(** * go-dl: release catalog, transfer engine, install engine and TUI state machine

    A shallow embedding of [main.go] and [tui.go].  Go values are modelled
    as follows: [int] and [int64] are [Z] (the program targets linux/amd64,
    where [int] is 64 bits wide and [int(resp.ContentLength)] is the
    identity); [string] is [string]; [[]byte] is [list byte]; a Go [error]
    is [option error] with [None] for [nil]; slices are lists.

    The operating system, the HTTP client, the archive readers and the
    bubbletea runtime are not part of the repository.  They appear as
    explicit environments (scripts of read and write results, a file-system
    map, the list of messages a command posts) so that every function of the
    program is a total, executable function of its inputs.  Two packages of
    the Go library decide the order of releases, go/version and sort; they
    are modelled function by function. *)

From Stdlib Require Import ZArith List String Ascii Bool Lia.
From Stdlib.Strings Require Import Byte.
From stdpp Require Import base tactics option list strings gmap.
Import ListNotations.

Local Open Scope string_scope.
Local Open Scope list_scope.

(** ** Errors *)

(** A Go [error] value.  [io.EOF] is a distinguished sentinel compared by
    identity ([err == io.EOF]); every other error is identified with its
    message. *)
Inductive error : Type :=
  | EOF
  | Err (msg : string).

#[global] Instance error_eq_dec : EqDecision error.
Proof. solve_decision. Defined.

Definition is_EOF (e : error) : bool :=
  match e with EOF => true | Err _ => false end.

(** ** Catalog model ([main.go], types [File], [Files], [Release]) *)

Record File : Type := mkFile {
  Filename : string;
  Os : string;
  Arch : string;
  Version : string;
  Sha256 : string;
  Size : Z;
  Kind : string
}.

#[global] Instance File_eq_dec : EqDecision File.
Proof. solve_decision. Defined.

(** [File{}], the zero value of the struct. *)
Definition File_zero : File := mkFile "" "" "" "" "" 0 "".

Definition Files : Type := list File.

Record Release : Type := mkRelease {
  Release_Version : string;
  Stable : bool;
  Release_Files : Files
}.

(** The inner loop of [Files.Filter]:
    [isSpecified := true; for _, spec := range specs { isSpecified = isSpecified && spec(v) }]. *)
Definition isSpecified (specs : list (File -> bool)) (v : File) : bool :=
  fold_left (fun acc spec => acc && spec v) specs true.

(** [func (files Files) Filter(specs ...func(f File) bool) []File]. *)
Definition Filter (files : Files) (specs : list (File -> bool)) : list File :=
  fold_left
    (fun filteredFiles v =>
       if isSpecified specs v then filteredFiles ++ [v] else filteredFiles)
    files [].

(** ** go/version.Compare

    [ByRelease.Less] calls [version.Compare] of the Go standard library
    (package go/version over internal/gover).  The library is modelled here
    function by function: [cutInt], [Parse], [CmpInt], [Compare] of gover and
    [stripGo], [Compare] of go/version. *)
Module version.

Definition isDigit (c : ascii) : bool :=
  Ascii.leb "0" c && Ascii.leb c "9".

Definition isLower (c : ascii) : bool :=
  Ascii.leb "a" c && Ascii.leb c "z".

(** The longest prefix of [x] whose characters satisfy [p], and the rest. *)
Fixpoint span (p : ascii -> bool) (x : string) : string * string :=
  match x with
  | EmptyString => (EmptyString, EmptyString)
  | String c r =>
      if p c then let '(a, b) := span p r in (String c a, b)
      else (EmptyString, x)
  end.

Fixpoint all_chars (p : ascii -> bool) (x : string) : bool :=
  match x with
  | EmptyString => true
  | String c r => p c && all_chars p r
  end.

(** [cutInt]: a leading decimal integer without unnecessary leading zero. *)
Definition cutInt (x : string) : option (string * string) :=
  let '(n, rest) := span isDigit x in
  match n with
  | EmptyString => None
  | String "0" (String _ _) => None
  | _ => Some (n, rest)
  end.

Record Version : Type := mkVersion {
  Major : string;
  Minor : string;
  Patch : string;
  VKind : string;
  Pre : string
}.

Definition Version_zero : Version := mkVersion "" "" "" "" "".

(** [CmpInt]: decimal strings compared by length, then bytewise. *)
Definition CmpInt (x y : string) : Z :=
  if String.eqb x y then 0
  else if (String.length x <? String.length y)%nat then -1
  else if (String.length y <? String.length x)%nat then 1
  else if String.ltb x y then -1 else 1.

(** [cmp.Compare] on strings. *)
Definition cmp_Compare (x y : string) : Z :=
  if String.ltb x y then -1 else if String.ltb y x then 1 else 0.

(** The prerelease part of [Parse]: a lower-case kind, then an optional
    number that must end the string. *)
Definition parsePre (v : Version) (x : string) : Version :=
  let '(kind, rest) := span (fun c => negb (isDigit c)) x in
  if negb (all_chars isLower kind) then Version_zero
  else
    match kind with
    | EmptyString => Version_zero
    | _ =>
        let v := mkVersion (Major v) (Minor v) (Patch v) kind (Pre v) in
        match rest with
        | EmptyString => v
        | _ =>
            match cutInt rest with
            | Some (pre, EmptyString) =>
                mkVersion (Major v) (Minor v) (Patch v) (VKind v) pre
            | _ => Version_zero
            end
        end
    end.

Definition Parse (x : string) : Version :=
  match cutInt x with
  | None => Version_zero
  | Some (major, x) =>
      match x with
      | EmptyString => mkVersion major "0" "0" "" ""
      | String c x1 =>
          if negb (Ascii.eqb c ".") then Version_zero
          else
            match cutInt x1 with
            | None => Version_zero
            | Some (minor, x) =>
                match x with
                | EmptyString =>
                    if Z.ltb (CmpInt minor "21") 0
                    then mkVersion major minor "0" "" ""
                    else mkVersion major minor "" "" ""
                | String c' x2 =>
                    if Ascii.eqb c' "." then
                      match cutInt x2 with
                      | Some (patch, EmptyString) =>
                          mkVersion major minor patch "" ""
                      | _ => Version_zero
                      end
                    else parsePre (mkVersion major minor "" "" "") x
                end
            end
      end
  end.

(** gover.Compare: the parsed fields compared in order. *)
Definition gover_Compare (x y : string) : Z :=
  let vx := Parse x in
  let vy := Parse y in
  let c := CmpInt (Major vx) (Major vy) in
  if negb (Z.eqb c 0) then c else
  let c := CmpInt (Minor vx) (Minor vy) in
  if negb (Z.eqb c 0) then c else
  let c := CmpInt (Patch vx) (Patch vy) in
  if negb (Z.eqb c 0) then c else
  let c := cmp_Compare (VKind vx) (VKind vy) in
  if negb (Z.eqb c 0) then c else
  let c := CmpInt (Pre vx) (Pre vy) in
  if negb (Z.eqb c 0) then c else
  0%Z.

(** [strings.Cut(v, "-")], first component. *)
Definition beforeDash (v : string) : string :=
  fst (span (fun c => negb (Ascii.eqb c "-")) v).

(** [stripGo]: "go1.21" becomes "1.21"; anything without the prefix
    becomes the empty (invalid) version. *)
Definition stripGo (v : string) : string :=
  match beforeDash v with
  | String "g" (String "o" r) => r
  | _ => EmptyString
  end.

Definition Compare (x y : string) : Z :=
  gover_Compare (stripGo x) (stripGo y).

End version.

(** ** The release ordering ([ByRelease]) *)

Definition ByRelease : Type := list Release.

Definition ByRelease_Len (a : ByRelease) : Z := Z.of_nat (length a).

(** [a[i], a[j] = a[j], a[i]]; an index out of range panics ([None]). *)
Definition ByRelease_Swap (a : ByRelease) (i j : nat) : option ByRelease :=
  match a !! i, a !! j with
  | Some x, Some y => Some (<[j:=x]> (<[i:=y]> a))
  | _, _ => None
  end.

(** The comparison of [Less] on two elements. *)
Definition release_less (x y : Release) : bool :=
  (0 <? version.Compare (Release_Version x) (Release_Version y))%Z.

(** [func (a ByRelease) Less(i, j int) bool]; [None] is the index panic. *)
Definition ByRelease_Less (a : ByRelease) (i j : nat) : option bool :=
  match a !! i, a !! j with
  | Some x, Some y => Some (release_less x y)
  | _, _ => None
  end.

(** [sort.IsSorted(ByRelease(a))]: no element is [Less] than its
    predecessor. *)
Fixpoint IsSorted (a : ByRelease) : bool :=
  match a with
  | [] => true
  | x :: rest =>
      match rest with
      | [] => true
      | y :: _ => negb (release_less y x) && IsSorted rest
      end
  end.

(** The list shown to the user in [main]:
    [for _, v := range versions { items = append(items, item(v.Version)) }].
    The catalog is used as [GetVersions] returned it. *)
Definition main_items (versions : list Release) : list string :=
  fold_left (fun items v => items ++ [Release_Version v]) versions [].

(** ** Progress fractions and the event trace *)

(** The argument of [onProgress]: [float64(num) / float64(den)].  The two
    integers are kept instead of the quotient.  For equal non-zero integers
    the float division yields exactly 1.0; for 0/0 it yields NaN. *)
Record Ratio : Type := mkRatio { num : Z; den : Z }.

#[global] Instance Ratio_eq_dec : EqDecision Ratio.
Proof. solve_decision. Defined.

(** The fraction is exactly 1.0. *)
Definition is_one (r : Ratio) : Prop := num r = den r /\ den r <> 0%Z.

(** [r >= 1.0] on the exact quotient (NaN compares false). *)
Definition ge_one (r : Ratio) : bool :=
  if Z.ltb 0 (den r) then Z.leb (den r) (num r)
  else if Z.ltb (den r) 0 then Z.leb (num r) (den r)
  else Z.ltb 0 (num r).

(** A path, as the list of its components below the root. *)
Abbreviation path := (list string).

(** [tar.Header], the fields the program reads. *)
Record Header : Type := mkHeader {
  Name : string;
  Typeflag : ascii;
  Mode : Z
}.

(** Everything the program does to the outside world, in program order. *)
Inductive Event : Type :=
  | EvRequest (url : string)
  | EvRead (cap : N) (data : list byte) (err : option error)
  | EvWrite (data : list byte) (nw : nat) (err : option error)
  | EvProgress (r : Ratio)
  | EvMkdirAll (p : path)
  | EvGzipHeader
  | EvNext (h : option Header)
  | EvSeekStart
  | EvStat (p : path)
  | EvOpenFile (p : path) (perm : Z)
  | EvCopy (p : path) (data : list byte)
  | EvCreateTemp
  | EvRemoveAll (p : path).

Definition is_progress (ev : Event) : bool :=
  match ev with EvProgress _ => true | _ => false end.

Definition progress_of (evs : list Event) : list Ratio :=
  omap (fun ev => match ev with EvProgress r => Some r | _ => None end) evs.

(** How a call ends: it returns its [error] result, it panics, or the
    model's fuel ran out (which [Download] is shown never to do). *)
Inductive outcome : Type :=
  | Returned (err : option error)
  | Panicked
  | OutOfFuel.

(** ** Transfer engine ([GoRepository.Download]) *)

(** [resp.Body], an [io.Reader], as the script of what the source hands
    over: each element is a segment of bytes and the error reported with its
    last byte.  A [Read] into a buffer of [cap] bytes returns the segment, or
    its first [cap] bytes when it does not fit; an exhausted script reads as
    [(0, io.EOF)]. *)
Definition Body : Type := list (list byte * option error).

Definition Body_Read (cap : nat) (b : Body) : list byte * option error * Body :=
  match b with
  | [] => ([], Some EOF, [])
  | (s, e) :: rest =>
      if (length s <=? cap)%nat then (s, e, rest)
      else (take cap s, None, (drop cap s, e) :: rest)
  end.

Definition Body_bytes (b : Body) : list byte := concat (map fst b).

(** A bound on the number of [Read] calls a script can serve. *)
Fixpoint Body_size (b : Body) : nat :=
  match b with
  | [] => 0
  | (s, _) :: rest => S (length s + Body_size rest)
  end.

(** [*os.File] opened for writing: its content and the script of write
    faults.  [None] (or an exhausted script) is a complete write;
    [Some (k, e)] writes at most [k] bytes and reports [e]. *)
Record OsFile : Type := mkOsFile {
  content : list byte;
  faults : list (option (nat * error))
}.

Definition File_Write (f : OsFile) (b : list byte) : nat * option error * OsFile :=
  match faults f with
  | [] => (length b, None, mkOsFile (content f ++ b) [])
  | None :: fl => (length b, None, mkOsFile (content f ++ b) fl)
  | Some (k, e) :: fl =>
      (length (take k b), Some e, mkOsFile (content f ++ take k b) fl)
  end.

Record Response : Type := mkResponse {
  ContentLength : Z;
  Resp_Body : Body
}.

(** [*http.Client] seen from [Download]: building the request may fail,
    and so may the round trip.  An absent Content-Length header is reported
    by net/http as [ContentLength = -1]. *)
Record Client : Type := mkClient {
  NewRequest : string -> option error;
  Do : string -> error + Response
}.

Record GoRepository : Type := mkGoRepository {
  url : string;
  client : Client
}.

(** [buf := make([]byte, 32*1024)]: the length of the buffer. *)
Definition bufSize : N := 32 * 1024.

Definition errContentLength : error :=
  Err "unable to calculate progress: ContentLength is 0".

(** The [for] loop of [Download], reading into a buffer of [cap] bytes. *)
Fixpoint copyLoop (cap : N) (fuel : nat) (total downloaded : Z) (body : Body)
    (outFile : OsFile) : outcome * OsFile * list Event :=
  match fuel with
  | O => (OutOfFuel, outFile, [])
  | S fuel' =>
      let '(chunk, errRead, body') := Body_Read (N.to_nat cap) body in
      let after_read outFile' downloaded' evs :=
        match errRead with
        | Some e =>
            if is_EOF e then (Returned None, outFile', evs)
            else (Returned (Some e), outFile', evs)
        | None =>
            let '(r, f, rest) := copyLoop cap fuel' total downloaded' body' outFile' in
            (r, f, evs ++ rest)
        end in
      if (0 <? length chunk)%nat then
        let '(nw, errWrite, outFile') := File_Write outFile chunk in
        let downloaded' := (downloaded + Z.of_nat nw)%Z in
        let evs := [EvRead cap chunk errRead;
                    EvWrite chunk nw errWrite;
                    EvProgress (mkRatio downloaded' total)] in
        match errWrite with
        | Some e => (Returned (Some e), outFile', evs)
        | None => after_read outFile' downloaded' evs
        end
      else after_read outFile downloaded [EvRead cap chunk errRead]
  end.

(** [func (g *GoRepository) Download(ctx, dlFile, outFile) error]. *)
Definition Download (g : GoRepository) (dlFile : File) (outFile : OsFile)
  : outcome * OsFile * list Event :=
  let u := (url g +:+ "/" +:+ Filename dlFile)%string in
  match NewRequest (client g) u with
  | Some e => (Returned (Some e), outFile, [])
  | None =>
      match Do (client g) u with
      | inl e => (Returned (Some e), outFile, [EvRequest u])
      | inr resp =>
          let total := ContentLength resp in
          if Z.eqb total 0 then
            (Returned (Some errContentLength), outFile, [EvRequest u])
          else
            let '(r, f, evs) :=
              copyLoop bufSize (S (Body_size (Resp_Body resp))) total 0
                (Resp_Body resp) outFile in
            (r, f, EvRequest u :: evs)
      end
  end.

(** ** File system

    Paths are lists of components below the root [[]]; the file system is a
    finite map from paths to nodes.  Permission bits are recorded as passed
    to the call (the process umask is outside the model). *)
Inductive node : Type :=
  | Dir (perm : Z)
  | Reg (perm : Z) (data : list byte).

Abbreviation FS := (gmap path node).

Definition ENOTDIR : error := Err "not a directory".
Definition ENOENT : error := Err "no such file or directory".
Definition EISDIR : error := Err "is a directory".
Definition ErrInvalid : error := Err "invalid argument".

(** [os.Stat]: the root always exists. *)
Definition os_Stat (fs : FS) (p : path) : error + node :=
  match p with
  | [] => inr (Dir 493)
  | _ =>
      match fs !! p with
      | Some n => inr n
      | None => inl ENOENT
      end
  end.

Definition is_dir (fs : FS) (p : path) : bool :=
  match os_Stat fs p with
  | inr (Dir _) => true
  | _ => false
  end.

(** [os.MkdirAll]: every missing prefix of the path is created, an existing
    directory is left alone, a regular file on the way is an error. *)
Fixpoint MkdirAll_walk (fs : FS) (done : path) (todo : list string) (perm : Z)
  : error + FS :=
  match todo with
  | [] => inr fs
  | c :: todo' =>
      let p := done ++ [c] in
      match fs !! p with
      | Some (Dir _) => MkdirAll_walk fs p todo' perm
      | Some (Reg _ _) => inl ENOTDIR
      | None => MkdirAll_walk (<[p := Dir perm]> fs) p todo' perm
      end
  end.

Definition os_MkdirAll (fs : FS) (p : path) (perm : Z) : error + FS :=
  MkdirAll_walk fs [] p perm.

Definition parent (p : path) : path := removelast p.

(** [os.OpenFile(target, O_CREATE|O_TRUNC|O_RDWR, perm)]: an existing
    regular file is truncated and keeps its mode; a new file needs its
    parent directory to exist. *)
Definition os_OpenFile (fs : FS) (target : path) (perm : Z) : error + FS :=
  match target with
  | [] => inl EISDIR
  | _ =>
      match fs !! target with
      | Some (Dir _) => inl EISDIR
      | Some (Reg old _) => inr (<[target := Reg old []]> fs)
      | None =>
          if is_dir fs (parent target) then inr (<[target := Reg perm []]> fs)
          else inl ENOENT
      end
  end.

(** Writing [data] at the end of the open file [target]. *)
Definition write_data (fs : FS) (target : path) (data : list byte) : FS :=
  match fs !! target with
  | Some (Reg perm old) => <[target := Reg perm (old ++ data)]> fs
  | _ => fs
  end.

(** [os.RemoveAll]: the path and everything below it. *)
Definition os_RemoveAll (fs : FS) (p : path) : FS :=
  filter (fun kv => ~ p `prefix_of` kv.1) fs.

(** [filepath.Join(dst, name)] = [Clean(dst + "/" + name)] for an absolute
    [dst]: the components of [name] are applied to [dst] one by one. *)
Fixpoint split_slash_aux (acc : string) (s : string) : list string :=
  match s with
  | EmptyString => [acc]
  | String c r =>
      if Ascii.eqb c "/" then acc :: split_slash_aux EmptyString r
      else split_slash_aux (acc +:+ String c EmptyString) r
  end.

Definition split_slash (s : string) : list string :=
  split_slash_aux EmptyString s.

Definition Clean_step (p : path) (c : string) : path :=
  if String.eqb c "" then p
  else if String.eqb c "." then p
  else if String.eqb c ".." then removelast p
  else p ++ [c].

Definition filepath_Join (dst : path) (name : string) : path :=
  fold_left Clean_step (split_slash name) dst.

(** ** Archives

    The gzip-compressed tar stream behind the [io.ReadSeeker], as the two
    readers present it: whether the gzip header is readable, the entries
    [tr.Next] yields in order, and the error that ends the stream ([io.EOF]
    for a complete archive).  An entry carries the bytes [io.Copy] can read
    from it and the error that reading may end in.  The source is a file:
    after [Seek(0, io.SeekStart)] the same stream is read again. *)
Record Entry : Type := mkEntry {
  header : Header;
  data : list byte;
  dataErr : option error
}.

Record Archive : Type := mkArchive {
  gzipErr : option error;
  entries : list Entry;
  tarEnd : error;
  seekErr : option error
}.

Definition TypeReg : ascii := "0".
Definition TypeDir : ascii := "5".

Definition isReg (e : Entry) : bool := Ascii.eqb (Typeflag (header e)) TypeReg.
Definition isDirEntry (e : Entry) : bool := Ascii.eqb (Typeflag (header e)) TypeDir.

(** ** Install engine ([Decompress]) *)

(** The counting loop.  [tr.Next] returns [(nil, err)] at the end of the
    stream; only [err == io.EOF] leaves the loop, and [header.Typeflag] on a
    nil header is a nil-pointer dereference ([None]). *)
Fixpoint countLoop (es : list Entry) (tarEnd : error) (totalFiles : Z)
  : option Z * list Event :=
  match es with
  | [] =>
      if is_EOF tarEnd then (Some totalFiles, [EvNext None])
      else (None, [EvNext None])
  | e :: es' =>
      let totalFiles' :=
        if Ascii.eqb (Typeflag (header e)) TypeReg then (totalFiles + 1)%Z
        else totalFiles in
      let '(r, evs) := countLoop es' tarEnd totalFiles' in
      (r, EvNext (Some (header e)) :: evs)
  end.

(** The body of the extraction loop for one header: the [switch] on
    [header.Typeflag].  It yields the error the loop returns, or the new
    [countFiles]. *)
Definition extractEntry (dst : path) (fs : FS) (e : Entry) (countFiles : Z)
  : (error + Z) * FS * list Event :=
  let h := header e in
  let target := filepath_Join dst (Name h) in
  if Ascii.eqb (Typeflag h) TypeDir then
    match os_Stat fs target with
    | inl _ =>
        match os_MkdirAll fs target 493 with
        | inl err => (inl err, fs, [EvStat target; EvMkdirAll target])
        | inr fs' => (inr countFiles, fs', [EvStat target; EvMkdirAll target])
        end
    | inr _ => (inr countFiles, fs, [EvStat target])
    end
  else if Ascii.eqb (Typeflag h) TypeReg then
    match os_OpenFile fs target (Mode h) with
    | inl err => (inl err, fs, [EvOpenFile target (Mode h)])
    | inr fs' =>
        let fs'' := write_data fs' target (data e) in
        let evs := [EvOpenFile target (Mode h); EvCopy target (data e)] in
        match dataErr e with
        | Some err => (inl err, fs'', evs)
        | None => (inr (countFiles + 1)%Z, fs'', evs)
        end
    end
  else (inr countFiles, fs, []).

(** The extraction loop. *)
Fixpoint extractLoop (dst : path) (es : list Entry) (tarEnd : error)
    (totalFiles countFiles : Z) (fs : FS) : outcome * FS * list Event :=
  match es with
  | [] =>
      if is_EOF tarEnd then (Returned None, fs, [EvNext None])
      else (Returned (Some tarEnd), fs, [EvNext None])
  | e :: es' =>
      match extractEntry dst fs e countFiles with
      | (inl err, fs', evs) =>
          (Returned (Some err), fs', EvNext (Some (header e)) :: evs)
      | (inr countFiles', fs', evs) =>
          let '(r, fs'', rest) :=
            extractLoop dst es' tarEnd totalFiles countFiles' fs' in
          (r, fs'',
           EvNext (Some (header e)) :: evs
             ++ EvProgress (mkRatio countFiles' totalFiles) :: rest)
      end
  end.

(** [func Decompress(dst string, r io.ReadSeeker, onProgress func(float64)) error]. *)
Definition Decompress (dst : path) (r : Archive) (fs : FS)
  : outcome * FS * list Event :=
  match os_MkdirAll fs dst 493 with
  | inl err => (Returned (Some err), fs, [EvMkdirAll dst])
  | inr fs1 =>
      match gzipErr r with
      | Some err => (Returned (Some err), fs1, [EvMkdirAll dst; EvGzipHeader])
      | None =>
          let '(total, evs1) := countLoop (entries r) (tarEnd r) 0 in
          let pre := [EvMkdirAll dst; EvGzipHeader] ++ evs1 in
          match total with
          | None => (Panicked, fs1, pre)
          | Some totalFiles =>
              match seekErr r with
              | Some err => (Returned (Some err), fs1, pre ++ [EvSeekStart])
              | None =>
                  match gzipErr r with
                  | Some err =>
                      (Returned (Some err), fs1, pre ++ [EvSeekStart; EvGzipHeader])
                  | None =>
                      let '(res, fs2, evs2) :=
                        extractLoop dst (entries r) (tarEnd r) totalFiles 0 fs1 in
                      (res, fs2, pre ++ [EvSeekStart; EvGzipHeader] ++ evs2)
                  end
              end
          end
      end
  end.

(** ** Orchestrator ([tui.go]) *)

Inductive State : Type :=
  | Choosing
  | Downloading
  | Extracting
  | Quitting
  | Completed.

#[global] Instance State_eq_dec : EqDecision State.
Proof. solve_decision. Defined.

(** [tea.Msg] values the program handles; [otherMsg] stands for every
    message type without a case in [Update]. *)
Inductive Msg : Type :=
  | WindowSizeMsg (width : Z)
  | KeyMsg (key : string)
  | statusMsg (s : State)
  | errMsg (err : error)
  | doneMsg
  | progressMsg (r : Ratio)
  | FrameMsg
  | otherMsg.

(** [tea.Cmd] values the program builds, as syntax.  The bubbletea runtime
    gives them meaning; [cmd_nil] is the nil command. *)
#[warnings="-register-all"]
Inductive Cmd : Type :=
  | cmd_nil
  | tea_Quit
  | statusCmd (s : State)
  | downloadCmd_of_model
  | extractCmd_of_model
  | finalPause
  | SetPercent (r : Ratio)
  | widgetCmd
  | tea_Sequence (cmds : list Cmd)
  | tea_Batch (cmds : list Cmd).

(** The part of [list.Model] the program depends on. *)
Record list_Model : Type := mkList {
  items : list string;
  cursor : nat;
  width : Z
}.

Definition list_SelectedItem (l : list_Model) : option string :=
  items l !! cursor l.

Definition list_SetWidth (l : list_Model) (w : Z) : list_Model :=
  mkList (items l) (cursor l) w.

(** [list.Model.Update]: the widget moves its cursor on the arrow keys and
    ignores the messages of the program. *)
Definition list_Update (l : list_Model) (msg : Msg) : list_Model * Cmd :=
  match msg with
  | KeyMsg key =>
      if String.eqb key "down" then
        (mkList (items l) (Nat.min (S (cursor l)) (Nat.pred (length (items l)))) (width l),
         cmd_nil)
      else if String.eqb key "up" then
        (mkList (items l) (Nat.pred (cursor l)) (width l), cmd_nil)
      else (l, cmd_nil)
  | _ => (l, cmd_nil)
  end.

Record model : Type := mkModel {
  err : option error;
  mlist : list_Model;
  choice : string;
  progress : Ratio;
  repo : GoRepository;
  versions : list Release;
  file : option OsFile;
  status : State
}.

Definition set_status (m : model) (s : State) : model :=
  mkModel (err m) (mlist m) (choice m) (progress m) (repo m) (versions m) (file m) s.

Definition set_err (m : model) (e : error) : model :=
  mkModel (Some e) (mlist m) (choice m) (progress m) (repo m) (versions m) (file m)
    (status m).

Definition set_choice (m : model) (c : string) : model :=
  mkModel (err m) (mlist m) c (progress m) (repo m) (versions m) (file m) (status m).

Definition set_list (m : model) (l : list_Model) : model :=
  mkModel (err m) l (choice m) (progress m) (repo m) (versions m) (file m) (status m).

Definition set_progress (m : model) (r : Ratio) : model :=
  mkModel (err m) (mlist m) (choice m) r (repo m) (versions m) (file m) (status m).

Definition set_file (m : model) (f : option OsFile) : model :=
  mkModel (err m) (mlist m) (choice m) (progress m) (repo m) (versions m) f (status m).

(** [func (m model) Update(msg tea.Msg) (tea.Model, tea.Cmd)]. *)
Definition Update (m : model) (msg : Msg) : model * Cmd :=
  let fallthrough :=
    let '(l, cmd) := list_Update (mlist m) msg in (set_list m l, cmd) in
  match msg with
  | WindowSizeMsg w => (set_list m (list_SetWidth (mlist m) w), cmd_nil)
  | KeyMsg keypress =>
      if String.eqb keypress "ctrl+c" then (set_status m Quitting, tea_Quit)
      else if String.eqb keypress "enter" then
        let m :=
          match list_SelectedItem (mlist m) with
          | Some i => set_choice m i
          | None => m
          end in
        (m, tea_Sequence [statusCmd Downloading; downloadCmd_of_model;
                          statusCmd Extracting; extractCmd_of_model])
      else fallthrough
  | statusMsg s => (set_status m s, cmd_nil)
  | errMsg e => (set_err m e, tea_Quit)
  | doneMsg => (set_status m Completed, tea_Sequence [finalPause; tea_Quit])
  | progressMsg r =>
      let cmds := if ge_one r then [tea_Sequence [finalPause]] else [] in
      (set_progress m r, tea_Batch (cmds ++ [SetPercent r]))
  | FrameMsg => (m, widgetCmd)
  | otherMsg => fallthrough
  end.

(** What [View] renders, by case of the function. *)
Inductive Screen : Type :=
  | ErrorView (e : error)
  | DownloadingView (choice : string)
  | ExtractingView (choice : string)
  | CompletedView (choice : string)
  | QuittingView
  | ListView.

(** [func (m model) View() string]. *)
Definition View (m : model) : Screen :=
  match err m with
  | Some e => ErrorView e
  | None =>
      match status m with
      | Downloading => DownloadingView (choice m)
      | Extracting => ExtractingView (choice m)
      | Completed => CompletedView (choice m)
      | Quitting => QuittingView
      | Choosing => ListView
      end
  end.

(** *** The worker commands *)

Definition isLinux (f : File) : bool := String.eqb (Os f) "linux".
Definition isAmd64 (f : File) : bool := String.eqb (Arch f) "amd64".

(** The selection loop of [downloadCmd]: [dlf] starts as [File{}] and is
    overwritten by the first match of every release whose version is the
    choice. *)
Definition selectFile (versions : list Release) (choice : string) : File :=
  fold_left
    (fun dlf v =>
       if String.eqb choice (Release_Version v) then
         match Filter (Release_Files v) [isLinux; isAmd64] with
         | l0 :: _ => l0
         | [] => dlf
         end
       else dlf)
    versions File_zero.

Definition errNoMatch : error := Err "did not found a matching file".

(** What the commands find outside the program: the result of
    [os.CreateTemp], the file system, how the bytes of the downloaded file
    read as an archive, and whether [os.RemoveAll] fails.  The temporary
    file is followed through the [*os.File] the model holds ([file]), not as
    a path: [fs] is the file system apart from [os.TempDir()], where the
    program leaves the temporary file behind. *)
Record World : Type := mkWorld {
  createTemp : error + OsFile;
  fs : FS;
  readArchive : list byte -> Archive;
  removeAllErr : option error
}.

(** [downloadCmd(m)()]: the message returned ([None] for nil), the model
    behind the pointer [m] and the events. *)
Definition downloadCmd (m : model) (w : World) : option Msg * model * list Event :=
  let dlf := selectFile (versions m) (choice m) in
  if decide (dlf = File_zero) then (Some (errMsg errNoMatch), m, [])
  else
    match createTemp w with
    | inl e => (Some (errMsg e), set_file m None, [EvCreateTemp])
    | inr f =>
        let '(r, f', evs) := Download (repo m) dlf f in
        let m' := set_file m (Some f') in
        match r with
        | Returned None => (None, m', EvCreateTemp :: evs)
        | Returned (Some e) => (Some (errMsg e), m', EvCreateTemp :: evs)
        | Panicked | OutOfFuel => (None, m', EvCreateTemp :: evs)
        end
    end.

Definition usr_local : path := ["usr"; "local"].
Definition usr_local_go : path := ["usr"; "local"; "go"].

(** [extractCmd(m)()]: the message returned ([None] when [Decompress]
    panicked and the process died), the file system left behind and the
    events. *)
Definition extractCmd (m : model) (w : World) : option Msg * FS * list Event :=
  match file m with
  | None => (Some (errMsg ErrInvalid), fs w, [EvSeekStart])
  | Some f =>
      match removeAllErr w with
      | Some e => (Some (errMsg e), fs w, [EvSeekStart; EvRemoveAll usr_local_go])
      | None =>
          let fs1 := os_RemoveAll (fs w) usr_local_go in
          let '(r, fs2, evs) := Decompress usr_local (readArchive w (content f)) fs1 in
          let evs := [EvSeekStart; EvRemoveAll usr_local_go] ++ evs in
          match r with
          | Returned None => (Some doneMsg, fs2, evs)
          | Returned (Some e) => (Some (errMsg e), fs2, evs)
          | Panicked | OutOfFuel => (None, fs2, evs)
          end
      end
  end.

(** [onProgress] is [app.Send(progressMsg(ratio))]: every progress event is
    a message posted to the loop. *)
Definition progress_msgs (evs : list Event) : list Msg :=
  map progressMsg (progress_of evs).

Definition msg_list (o : option Msg) : list Msg :=
  match o with Some msg => [msg] | None => [] end.

(** The messages the worker posts for the command of the enter key,
    [tea.Sequence(statusCmd(Downloading), downloadCmd(&m), statusCmd(Extracting), extractCmd(&m))]:
    the runtime runs the commands one at a time, in order, and sends each
    result to the loop; it does not look at the messages. *)
Definition enterSequence (m : model) (w : World) : list Msg * FS :=
  let '(msgD, m', evsD) := downloadCmd m w in
  let '(msgE, fs', evsE) := extractCmd m' w in
  ([statusMsg Downloading] ++ progress_msgs evsD ++ msg_list msgD
     ++ [statusMsg Extracting] ++ progress_msgs evsE ++ msg_list msgE,
   fs').

(** The event loop: messages are handled one by one, in delivery order. *)
Definition loop (m : model) (msgs : list Msg) : model :=
  fold_left (fun m msg => (Update m msg).1) msgs m.

(** The states the loop goes through. *)
Fixpoint loop_states (m : model) (msgs : list Msg) : list model :=
  match msgs with
  | [] => [m]
  | msg :: rest => m :: loop_states (Update m msg).1 rest
  end.

(** The bytes the [Write] calls of a trace report as written. *)
Fixpoint written (evs : list Event) : Z :=
  match evs with
  | [] => 0%Z
  | EvWrite _ nw _ :: rest => (Z.of_nat nw + written rest)%Z
  | _ :: rest => written rest
  end.

Definition is_read (ev : Event) : bool :=
  match ev with EvRead _ _ _ => true | _ => false end.

(** ** Vocabulary of the properties

    Predicates and orders in which the properties of the program are
    stated. *)

Definition matches (specs : list (File -> bool)) (v : File) : bool :=
  forallb (fun spec => spec v) specs.

Definition platformSpecs : list (File -> bool) := [isLinux; isAmd64].

(** A three-way comparison that is a total order. *)
Record TotalCmp {A : Type} (c : A -> A -> Z) : Prop := mkTotalCmp {
  tc_range : forall x y, c x y = (-1)%Z \/ c x y = 0%Z \/ c x y = 1%Z;
  tc_eq : forall x y, c x y = 0%Z <-> x = y;
  tc_anti : forall x y, c y x = (- c x y)%Z;
  tc_trans : forall x y z, c x y = 1%Z -> c y z = 1%Z -> c x z = 1%Z
}.

(** "First difference decides": the shape of every step of gover.Compare. *)
Definition lexZ {A B : Type} (c1 : A -> A -> Z) (c2 : B -> B -> Z)
    (p q : A * B) : Z :=
  let c := c1 p.1 q.1 in
  if negb (Z.eqb c 0) then c else c2 p.2 q.2.

Definition cmpZ (c : comparison) : Z :=
  match c with Lt => (-1)%Z | Eq => 0%Z | Gt => 1%Z end.

Definition Version_key (v : version.Version)
  : string * (string * (string * (string * string))) :=
  (version.Major v, (version.Minor v, (version.Patch v,
     (version.VKind v, version.Pre v)))).

Definition key_cmp :=
  lexZ version.CmpInt (lexZ version.CmpInt (lexZ version.CmpInt
    (lexZ version.cmp_Compare version.CmpInt))).

(** The key [version.Compare] orders by. *)
Definition release_key (x : string) :=
  Version_key (version.Parse (version.stripGo x)).

(** Version strings in non-increasing order: no element is smaller than a
    later one. *)
Definition descending (l : list string) : Prop :=
  forall (i j : nat) (x y : string),
    i < j -> l !! i = Some x -> l !! j = Some y ->
    (0 <= version.Compare x y)%Z.

Definition version_ge (x y : Release) : Prop :=
  (0 <= version.Compare (Release_Version x) (Release_Version y))%Z.

(** What [after_read] of the loop returns when the read reported [e]. *)
Definition stop_result (e : error) : outcome :=
  if is_EOF e then Returned None else Returned (Some e).

(** The shape of every trace of the copy loop, started with [d] bytes
    already counted: rounds of "read; write; progress", each round complete
    before the next read, ended by a read that reports an error or by a
    write that fails. *)
Inductive transfer_trace (cap : N) (total : Z) : Z -> list Event -> outcome -> Prop :=
  | tt_stop (d : Z) (e : error) :
      transfer_trace cap total d [EvRead cap [] (Some e)] (stop_result e)
  | tt_idle (d : Z) (evs : list Event) (res : outcome) :
      transfer_trace cap total d evs res ->
      transfer_trace cap total d (EvRead cap [] None :: evs) res
  | tt_write_fail (d : Z) (chunk : list byte) (errRead : option error)
      (nw : nat) (e : error) :
      chunk <> [] -> length chunk <= N.to_nat cap -> nw <= length chunk ->
      transfer_trace cap total d
        [EvRead cap chunk errRead; EvWrite chunk nw (Some e);
         EvProgress (mkRatio (d + Z.of_nat nw) total)]
        (Returned (Some e))
  | tt_chunk_stop (d : Z) (chunk : list byte) (e : error) :
      chunk <> [] -> length chunk <= N.to_nat cap ->
      transfer_trace cap total d
        [EvRead cap chunk (Some e); EvWrite chunk (length chunk) None;
         EvProgress (mkRatio (d + Z.of_nat (length chunk)) total)]
        (stop_result e)
  | tt_chunk (d : Z) (chunk : list byte) (evs : list Event) (res : outcome) :
      chunk <> [] -> length chunk <= N.to_nat cap ->
      transfer_trace cap total (d + Z.of_nat (length chunk)) evs res ->
      transfer_trace cap total d
        (EvRead cap chunk None :: EvWrite chunk (length chunk) None
           :: EvProgress (mkRatio (d + Z.of_nat (length chunk)) total) :: evs)
        res.

(** ** Sample inputs and readings of the claims

    Concrete catalogs, responses, archives and worlds on which the
    properties below are exercised, with the predicates the claims are
    read as. *)

Definition bytes_of (s : string) : list byte := list_byte_of_string s.

Definition file_go1_20_2 : File :=
  mkFile "go1.20.2.linux-amd64.tar.gz" "linux" "amd64" "go1.20.2"
    "4eaea32f59cde4dc635fbc42161031d13e1c780b87097f4b4234cfce671f1768"
    100107955 "archive".

Definition file_go1_19_7 : File :=
  mkFile "go1.19.7.linux-amd64.tar.gz" "linux" "amd64" "go1.19.7"
    "7a75720c9b066ae1750f6bcc7052aba70fa3813f4223199ee2a2315fd3eb533d"
    149010475 "archive".

Definition file_windows : File :=
  mkFile "go1.20.5.windows-amd64.msi" "windows" "amd64" "go1.20.5" "" 0 "installer".

Definition release_go1_20_2 : Release := mkRelease "go1.20.2" true [file_go1_20_2].
Definition release_go1_19_7 : Release := mkRelease "go1.19.7" true [file_go1_19_7].
Definition release_windows_only : Release := mkRelease "go1.20.5" true [file_windows].

Definition sample_catalog : list Release :=
  [release_go1_20_2; release_go1_19_7; release_windows_only].

(** A client whose every request yields [resp]. *)
Definition client_of (resp : error + Response) : Client :=
  mkClient (fun _ => None) (fun _ => resp).

Definition repo_of (resp : error + Response) : GoRepository :=
  mkGoRepository "https://go.dev/dl" (client_of resp).

Definition empty_file : OsFile := mkOsFile [] [].

Definition model_of (resp : error + Response) (versions : list Release)
    (choice : string) : model :=
  mkModel None (mkList (main_items versions) 0 20) choice (mkRatio 0 1)
    (repo_of resp) versions None Choosing.

(** A world with an empty file system in which nothing fails and every
    downloaded file reads as the empty archive. *)
Definition quiet_world : World :=
  mkWorld (inr empty_file) ∅ (fun _ => mkArchive None [] EOF None) None.

(** The releases of [TestReleaseSort], in the order the test wants. *)
Definition sorted_releases : list Release :=
  [mkRelease "go1.20.2" false []; mkRelease "go1.20" false [];
   mkRelease "go1.19.7" false []; mkRelease "go1.18.10" false []].

(** A catalog that arrives oldest first. *)
Definition ascending_catalog : list Release :=
  [release_go1_19_7; release_go1_20_2].

(** The URL [Download] requests. *)
Definition download_url (g : GoRepository) (dlFile : File) : string :=
  (url g +:+ "/" +:+ Filename dlFile)%string.

(** A body that delivers all its bytes: no segment reports an error, except
    that the last may report [io.EOF] together with its bytes. *)
Fixpoint clean (b : Body) : bool :=
  match b with
  | [] => true
  | (_, None) :: rest => clean rest
  | (_, Some e) :: rest => is_EOF e && match rest with [] => true | _ => false end
  end.

(** A destination on which no write fails. *)
Definition reliable (f : OsFile) : bool :=
  forallb (fun fault => match fault with None => true | Some _ => false end)
    (faults f).

(** The discipline of the copy loop on a trace [evs] that ended in [res]:
    the buffer bound, "write before the next read", "progress right after
    every write attempt", and the two ways to fail. *)
Definition chunked_transfer (total : Z) (res : outcome) (evs : list Event) : Prop :=
  (exists r, res = Returned r)
  /\ (forall ev, In ev evs ->
        match ev with
        | EvRead c data _ => c = bufSize /\ length data <= N.to_nat bufSize
        | EvWrite data nw _ => length data <= N.to_nat bufSize /\ nw <= length data
        | EvProgress _ => True
        | _ => False
        end)
  /\ (forall pre c data e post,
        evs = pre ++ EvRead c data e :: post -> data <> [] ->
        exists nw we post',
          post = EvWrite data nw we
                   :: EvProgress (mkRatio (written pre + Z.of_nat nw) total)
                   :: post')
  /\ (forall pre r post,
        evs = pre ++ EvProgress r :: post ->
        r = mkRatio (written pre) total
        /\ exists pre' data nw we, pre = pre' ++ [EvWrite data nw we])
  /\ (forall pre data nw e post,
        evs = pre ++ EvWrite data nw (Some e) :: post ->
        res = Returned (Some e) /\ exists r, post = [EvProgress r])
  /\ (forall pre c data e post,
        evs = pre ++ EvRead c data (Some e) :: post ->
        forallb (fun ev => negb (is_read ev)) post = true
        /\ (res = (if is_EOF e then Returned None else Returned (Some e))
            \/ exists nw we r,
                 post = [EvWrite data nw (Some we); EvProgress r]
                 /\ res = Returned (Some we))).

(** The reading of C5 as stated: a progress event only follows a write that
    succeeded. *)
Definition progress_only_after_success (evs : list Event) : Prop :=
  forall pre r post,
    evs = pre ++ EvProgress r :: post ->
    exists pre' data nw, pre = pre' ++ [EvWrite data nw None].

(** A three-byte response and a destination whose first write fails. *)
Definition response_abc : Response := mkResponse 3 [(bytes_of "abc", None)].

Definition full_disk : OsFile :=
  mkOsFile [] [Some (0, Err "no space left on device")].

(** A response without Content-Length header. *)
Definition response_no_length : Response :=
  mkResponse (-1) [(bytes_of "abc", None)].

(** The path an entry is extracted to. *)
Definition target_of (dst : path) (e : Entry) : path :=
  filepath_Join dst (Name (header e)).

(** The number of regular-file entries. *)
Definition count_reg (es : list Entry) : Z :=
  Z.of_nat (length (List.filter isReg es)).

(** The events of the counting pass: one [tr.Next] per entry and the one
    that reports the end. *)
Definition count_events (es : list Entry) : list Event :=
  map (fun e => EvNext (Some (header e))) es ++ [EvNext None].

(** The reading of C6 as stated: a progress event only follows the copy of
    a regular file. *)
Definition progress_only_after_copy (evs : list Event) : Prop :=
  forall pre r post,
    evs = pre ++ EvProgress r :: post ->
    exists pre' p bytes, pre = pre' ++ [EvCopy p bytes].

Definition is_next (ev : Event) : bool :=
  match ev with EvNext _ => true | _ => false end.

(** An archive with the directory [go/] and the file [go/VERSION]. *)
Definition entry_go_dir : Entry := mkEntry (mkHeader "go/" TypeDir 493) [] None.

Definition entry_go_VERSION : Entry :=
  mkEntry (mkHeader "go/VERSION" TypeReg 420) (bytes_of "go1.20.2") None.

Definition small_archive : Archive :=
  mkArchive None [entry_go_dir; entry_go_VERSION] EOF None.

(** The same archive cut short: after the two headers the tar stream ends
    with [io.ErrUnexpectedEOF]. *)
Definition truncated_archive : Archive :=
  mkArchive None [entry_go_dir; entry_go_VERSION] (Err "unexpected EOF") None.

(** An archive whose file lies in a directory that has no entry. *)
Definition entry_go_bin_go : Entry :=
  mkEntry (mkHeader "go/bin/go" TypeReg 493) (bytes_of "ELF") None.

Definition archive_without_bin : Archive :=
  mkArchive None [entry_go_dir; entry_go_bin_go] EOF None.

(** The progress events of the extraction pass after [m] entries were
    handled: one per entry, counting the regular files among the entries
    handled so far, starting from [c], over [total]. *)
Definition progress_per_entry (es : list Entry) (c total : Z) (m : nat) : list Ratio :=
  map (fun k => mkRatio (c + count_reg (take k es)) total) (seq 1 m).

(** The two passes of [Decompress] on a trace [evs] that ended in [res]:
    the counting pass asks for every header and does nothing else, the
    source is rewound, and the extraction pass emits one progress event at
    the end of every entry it handles, over the total counted before. *)
Definition two_pass (dst : path) (es : list Entry) (res : outcome)
    (evs : list Event) : Prop :=
  exists evs2,
    evs = [EvMkdirAll dst; EvGzipHeader] ++ count_events es
            ++ [EvSeekStart; EvGzipHeader] ++ evs2
    /\ (exists m, m <= length es
          /\ progress_of evs2 = progress_per_entry es 0 (count_reg es) m
          /\ (res = Returned None -> m = length es))
    /\ (forall pre r post,
          evs2 = pre ++ EvProgress r :: post ->
          exists h post', post = EvNext h :: post').

(** Every non-empty prefix of [p] is a directory of [fs]. *)
Definition dirs_to (fs : FS) (p : path) : Prop :=
  forall k, k < length p -> exists perm, fs !! take (S k) p = Some (Dir perm).

(** A directory or regular-file entry whose bytes can be read. *)
Definition plain_entry (e : Entry) : bool :=
  (isReg e || isDirEntry e)
  && match dataErr e with None => true | Some _ => false end.

(** Nothing is in the way of the entry: its path is free, or it is a
    directory entry whose directory exists already. *)
Definition fresh_for (fs : FS) (dst : path) (e : Entry) : bool :=
  match fs !! target_of dst e with
  | None => true
  | Some (Dir _) => isDirEntry e
  | Some (Reg _ _) => false
  end.

Definition is_child_of (t d : path) : bool :=
  match t with
  | [] => false
  | _ => bool_decide (parent t = d)
  end.

(** Every entry lies directly in the destination root or in the directory
    of an earlier directory entry ([avail] lists the directories known so
    far). *)
Fixpoint parents_first (avail : list path) (dst : path) (es : list Entry) : bool :=
  match es with
  | [] => true
  | e :: es' =>
      existsb (is_child_of (target_of dst e)) avail
      && parents_first
           (if isDirEntry e then target_of dst e :: avail else avail) dst es'
  end.

(** The reading of C7 as stated: every regular file of the archive is on
    disk with its bytes and mode, every directory exists, and the last
    progress fraction is 1.0. *)
Definition installs_all (dst : path) (r : Archive) (fs : FS) : Prop :=
  (Decompress dst r fs).1.1 = Returned None
  /\ (forall e, In e (entries r) -> isReg e = true ->
        (Decompress dst r fs).1.2 !! target_of dst e
        = Some (Reg (Mode (header e)) (data e)))
  /\ (forall e, In e (entries r) -> isDirEntry e = true ->
        exists perm, (Decompress dst r fs).1.2 !! target_of dst e = Some (Dir perm))
  /\ exists p, last (progress_of (Decompress dst r fs).2) = Some p /\ is_one p.

(** A world with go1.19 installed under /usr/local/go, in which the
    temporary file can be created and an empty download reads as a stream
    without gzip header. *)
Definition installed_fs : FS :=
  <[usr_local_go ++ ["VERSION"] := Reg 420 (bytes_of "go1.19.7")]>
    (<[usr_local_go := Dir 493]>
       (<[usr_local := Dir 493]> (<[["usr"] := Dir 493]> ∅))).

Definition installed_world : World :=
  mkWorld (inr empty_file) installed_fs
    (fun _ => mkArchive (Some EOF) [] EOF None) None.

Definition errConnReset : error := Err "connection reset by peer".

(** The model at start-up when every request fails in transport, and the
    model once the user pressed enter on the first release. *)
Definition offline_model : model :=
  model_of (inl errConnReset) sample_catalog "".

Definition offline_model_chosen : model := (Update offline_model (KeyMsg "enter")).1.

(** ** Further vocabulary *)

(** A release that carries the chosen version and has a linux/amd64 file:
    the releases at which the loop of [downloadCmd] assigns [dlf]. *)
Definition has_platform_file (choice : string) (v : Release) : bool :=
  String.eqb choice (Release_Version v)
  && existsb (matches platformSpecs) (Release_Files v).

(** The model [main] hands to [tea.NewProgram]:
    [model{ctx: ctx, list: l, progress: p, repo: repo, versions: versions}]
    with the list built from the versions, 20 wide. *)
Definition main_model (g : GoRepository) (versions : list Release) : model :=
  mkModel None (mkList (main_items versions) 0 20) "" (mkRatio 0 1) g versions
    None Choosing.

(** No component of the name is [".."]. *)
Definition no_dotdot (name : string) : bool :=
  forallb (fun c => negb (String.eqb c "..")) (split_slash name).

(** A catalog in which go1.20.2 is listed twice, with different files. *)
Definition file_go1_20_2_rebuilt : File :=
  mkFile "go1.20.2-rebuilt.linux-amd64.tar.gz" "linux" "amd64" "go1.20.2" "" 1
    "archive".

Definition duplicated_catalog : list Release :=
  [release_go1_20_2; mkRelease "go1.20.2" true [file_windows];
   mkRelease "go1.20.2" true [file_windows; file_go1_20_2_rebuilt];
   release_go1_19_7].

(** A world in which a previous installation left a file the new archive
    does not contain, and the download reads as [small_archive]. *)
Definition stale_path : path := usr_local_go ++ ["pkg"; "stale.a"].

Definition upgrade_world : World :=
  mkWorld (inr empty_file)
    (<[stale_path := Reg 420 (bytes_of "old")]>
       (<[usr_local_go ++ ["pkg"] := Dir 493]> installed_fs))
    (fun _ => small_archive) None.

(** The installation ran to its end: there was a downloaded file,
    [os.RemoveAll] worked and [Decompress] returned nil. *)
Definition install_ok (m : model) (w : World) : Prop :=
  exists f, file m = Some f
    /\ removeAllErr w = None
    /\ (Decompress usr_local (readArchive w (content f))
          (os_RemoveAll (fs w) usr_local_go)).1.1 = Returned None.

(** ** The release client ([GoRepository.GetVersions]) and [main] *)

(** The response to the catalog request, as [GetVersions] reads it: the
    status code, and what [json.NewDecoder(resp.Body).Decode(&results)]
    leaves in [results] together with its error. *)
Record CatalogResponse : Type := mkCatalogResponse {
  StatusCode : Z;
  Decoded : list Release * option error
}.

(** The HTTP client as [GetVersions] uses it. *)
Record CatalogClient : Type := mkCatalogClient {
  Catalog_NewRequest : string -> option error;
  Catalog_Do : string -> error + CatalogResponse
}.

Definition errStatus : error := Err "not valid response status".

(** [func (g *GoRepository) GetVersions(ctx) ([]Release, error)] for a
    repository at [base]. *)
Definition GetVersions (base : string) (c : CatalogClient)
  : list Release * option error :=
  let u := (base +:+ "/?mode=json")%string in
  match Catalog_NewRequest c u with
  | Some e => ([], Some e)
  | None =>
      match Catalog_Do c u with
      | inl e => ([], Some e)
      | inr resp =>
          if Z.ltb (StatusCode resp) 200 || Z.leb 300 (StatusCode resp)
          then ([], Some errStatus)
          else
            match Decoded resp with
            | (results, Some e) => (results, Some e)
            | (results, None) => (results, None)
            end
      end
  end.

(** The model [main] starts the program with: the error of [GetVersions]
    is printed and otherwise ignored. *)
Definition main_start (g : GoRepository) (c : CatalogClient) : model :=
  main_model g (GetVersions (url g) c).1.

(** The catalog request got no response that [GetVersions] accepts. *)
Definition catalog_unavailable (base : string) (c : CatalogClient) : Prop :=
  let u := (base +:+ "/?mode=json")%string in
  (exists e, Catalog_NewRequest c u = Some e)
  \/ (exists e, Catalog_Do c u = inl e)
  \/ (exists resp, Catalog_Do c u = inr resp
        /\ ~ (200 <= StatusCode resp < 300)%Z).

(** A server that answers 500. *)
Definition client_500 : CatalogClient :=
  mkCatalogClient (fun _ => None)
    (fun _ => inr (mkCatalogResponse 500 ([], Some (Err "invalid character")))).

(** Every entry of the archive is extracted to /usr/local/go or below it,
    as the entries [go/...] of a Go release are. *)
Definition under_go (r : Archive) : bool :=
  forallb (fun e => bool_decide (usr_local_go `prefix_of` target_of usr_local e))
    (entries r).

(** The messages of a run in which nothing fails and no key is pressed. *)
Definition quiet_msg (msg : Msg) : bool :=
  match msg with
  | errMsg _ | KeyMsg _ => false
  | _ => true
  end.

(** The model once the user pressed enter on the first item of the sample
    catalog, with a server that answers [response_abc]. *)
Definition chosen_model : model :=
  (Update (main_model (repo_of (inr response_abc)) sample_catalog)
     (KeyMsg "enter")).1.

(** ** [sort.Sort] (package [sort] of the Go library)

    [ByRelease] exists to be handed to [sort.Sort], as [TestReleaseSort]
    does.  The functions below follow the library's pattern-defeating
    quicksort over a [sort.Interface], function by function.  A collection
    is changed only through [Swap] and inspected only through [Less]; a
    method that panics ends the run. *)

(** How a run ends: with a value, in a panic, or (in the model only) with
    its loop budget used up. *)
Inductive run (X : Type) : Type :=
  | Done (x : X)
  | Panic
  | NoFuel.
Arguments Done {X} x.
Arguments Panic {X}.
Arguments NoFuel {X}.

(** A computation over the collection [D] behind the interface. *)
Definition Sorter (D X : Type) : Type := D -> run (X * D).

Definition ret {D X : Type} (x : X) : Sorter D X := fun d => Done (x, d).

Definition bind {D X Y : Type} (m : Sorter D X) (k : X -> Sorter D Y) : Sorter D Y :=
  fun d =>
    match m d with
    | Done (x, d') => k x d'
    | Panic => Panic
    | NoFuel => NoFuel
    end.

Declare Scope sorter_scope.
Notation "'let*' x ':=' m 'in' k" := (bind m (fun x => k))
  (at level 10, x name, m at level 100, k at level 200, only parsing)
  : sorter_scope.
Notation "'let*' ' p ':=' m 'in' k" := (bind m (fun x => let 'p := x in k))
  (at level 10, p pattern, m at level 100, k at level 200, only parsing)
  : sorter_scope.
Notation "m ';;' k" := (bind m (fun _ => k))
  (at level 100, k at level 200, only parsing, right associativity)
  : sorter_scope.

(** A Go [for] loop over the local variables [S]: an iteration either
    leaves the loop with a result ([inl]) or goes round again ([inr]). *)
Fixpoint for_loop {D S R : Type} (fuel : nat) (body : S -> Sorter D (R + S)) (s : S)
  : Sorter D R :=
  match fuel with
  | O => fun _ => NoFuel
  | Datatypes.S fuel' =>
      fun d =>
        match body s d with
        | Done (inl r, d') => Done (r, d')
        | Done (inr s', d') => for_loop fuel' body s' d'
        | Panic => Panic
        | NoFuel => NoFuel
        end
  end.

(** [sort.Interface]. *)
Class Interface (D : Type) : Type := {
  Len : D -> Z;
  Less : D -> Z -> Z -> option bool;
  Swap : D -> Z -> Z -> option D
}.

(** A Go index: negative indices panic like indices past the end. *)
Definition index (i : Z) : option nat :=
  if (i <? 0)%Z then None else Some (Z.to_nat i).

#[global] Instance ByRelease_Interface : Interface ByRelease := {
  Len := ByRelease_Len;
  Less a i j :=
    match index i, index j with
    | Some i, Some j => ByRelease_Less a i j
    | _, _ => None
    end;
  Swap a i j :=
    match index i, index j with
    | Some i, Some j => ByRelease_Swap a i j
    | _, _ => None
    end
}.

Module sort.
Section Sort.
Context {D : Type} `{Interface D}.

Local Open Scope Z_scope.
Local Open Scope sorter_scope.

Definition less (i j : Z) : Sorter D bool :=
  fun d => match Less d i j with Some b => Done (b, d) | None => Panic end.

Definition swap (i j : Z) : Sorter D unit :=
  fun d => match Swap d i j with Some d' => Done (tt, d') | None => Panic end.

(** The budget of a loop whose counter runs over [n] values. *)
Definition steps (n : Z) : nat := Datatypes.S (Z.to_nat n).

(** [insertionSort(data, a, b)]:
    [for i := a + 1; i < b; i++ {
       for j := i; j > a && data.Less(j, j-1); j-- { data.Swap(j, j-1) } }]. *)
Definition insertionSort (a b : Z) : Sorter D unit :=
  for_loop (steps (b - a))
    (fun i =>
       if i <? b then
         for_loop (steps (i - a))
           (fun j =>
              if a <? j then
                let* lt := less j (j - 1) in
                if lt : bool then swap j (j - 1) ;; ret (inr (j - 1))
                else ret (inl tt)
              else ret (inl tt))
           i ;;
         ret (inr (i + 1))
       else ret (inl tt))
    (a + 1).

(** [siftDown(data, lo, hi, first)]. *)
Definition siftDown (lo hi first : Z) : Sorter D unit :=
  for_loop (steps hi)
    (fun root =>
       let child := 2 * root + 1 in
       if hi <=? child then ret (inl tt)
       else
         let* child :=
           if child + 1 <? hi then
             let* lt := less (first + child) (first + child + 1) in
             ret (if lt : bool then child + 1 else child)
           else ret child in
         let* lt := less (first + root) (first + child) in
         if negb lt then ret (inl tt)
         else swap (first + root) (first + child) ;; ret (inr child))
    lo.

(** [heapSort(data, a, b)]. *)
Definition heapSort (a b : Z) : Sorter D unit :=
  let first := a in
  let lo := 0 in
  let hi := b - a in
  for_loop (steps (hi + 1))
    (fun i =>
       if 0 <=? i then siftDown i hi first ;; ret (inr (i - 1))
       else ret (inl tt))
    ((hi - 1) ÷ 2) ;;
  for_loop (steps hi)
    (fun i =>
       if 0 <=? i then
         swap first (first + i) ;; siftDown lo i first ;; ret (inr (i - 1))
       else ret (inl tt))
    (hi - 1).

(** [sortedHint]. *)
Inductive sortedHint : Type :=
  | unknownHint
  | increasingHint
  | decreasingHint.

(** [order2(data, a, b, swaps)]; the counter behind [swaps *int] is
    returned with the result. *)
Definition order2 (a b swaps : Z) : Sorter D (Z * Z * Z) :=
  let* lt := less b a in
  if lt : bool then ret (b, a, swaps + 1) else ret (a, b, swaps).

(** [median(data, a, b, c, swaps)]. *)
Definition median (a b c swaps : Z) : Sorter D (Z * Z) :=
  let* '(a, b, swaps) := order2 a b swaps in
  let* '(b, c, swaps) := order2 b c swaps in
  let* '(a, b, swaps) := order2 a b swaps in
  ret (b, swaps).

(** [medianAdjacent(data, a, swaps)]. *)
Definition medianAdjacent (a swaps : Z) : Sorter D (Z * Z) :=
  median (a - 1) a (a + 1) swaps.

(** [choosePivot(data, a, b)]. *)
Definition choosePivot (a b : Z) : Sorter D (Z * sortedHint) :=
  let shortestNinther := 50 in
  let maxSwaps := 4 * 3 in
  let l := b - a in
  let swaps := 0 in
  let i := a + l ÷ 4 * 1 in
  let j := a + l ÷ 4 * 2 in
  let k := a + l ÷ 4 * 3 in
  let* '(j, swaps) :=
    if 8 <=? l then
      let* '(i, j, k, swaps) :=
        if shortestNinther <=? l then
          let* '(i, swaps) := medianAdjacent i swaps in
          let* '(j, swaps) := medianAdjacent j swaps in
          let* '(k, swaps) := medianAdjacent k swaps in
          ret (i, j, k, swaps)
        else ret (i, j, k, swaps) in
      median i j k swaps
    else ret (j, swaps) in
  if swaps =? 0 then ret (j, increasingHint)
  else if swaps =? maxSwaps then ret (j, decreasingHint)
  else ret (j, unknownHint).

(** [reverseRange(data, a, b)]. *)
Definition reverseRange (a b : Z) : Sorter D unit :=
  for_loop (steps (b - a))
    (fun '(i, j) =>
       if i <? j then swap i j ;; ret (inr (i + 1, j - 1))
       else ret (inl tt))
    (a, b - 1).

(** [bits.Len(uint(n))] for [n >= 0]. *)
Definition bits_Len (n : Z) : Z :=
  if n <=? 0 then 0 else Z.log2 n + 1.

(** [nextPowerOfTwo(length)]. *)
Definition nextPowerOfTwo (length : Z) : Z :=
  Z.shiftl 1 (bits_Len length).

(** [xorshift.Next] on a [uint64]. *)
Definition xorshift_Next (r : Z) : Z :=
  let r := Z.lxor r (Z.shiftl r 13 mod 2 ^ 64) in
  let r := Z.lxor r (Z.shiftr r 7) in
  let r := Z.lxor r (Z.shiftl r 17 mod 2 ^ 64) in
  r.

(** [breakPatterns(data, a, b)]. *)
Definition breakPatterns (a b : Z) : Sorter D unit :=
  let length := b - a in
  if 8 <=? length then
    let random := length in
    let modulus := nextPowerOfTwo length in
    let idx := a + (length ÷ 4) * 2 - 1 in
    for_loop 4
      (fun '(i, random) =>
         if i <? 3 then
           let random := xorshift_Next random in
           let other := Z.land random (modulus - 1) in
           let other := if length <=? other then other - length else other in
           swap (idx - 1 + i) (a + other) ;;
           ret (inr (i + 1, random))
         else ret (inl tt))
      (0, random)
  else ret tt.

(** The loops of [partialInsertionSort]:
    [for i < b && !data.Less(i, i-1) { i++ }],
    [for j := i - 1; j >= 1; j-- {
       if !data.Less(j, j-1) { break }; data.Swap(j, j-1) }] and
    [for j := i + 1; j < b; j++ {
       if !data.Less(j, j-1) { break }; data.Swap(j, j-1) }]. *)
Definition scan_sorted (b i : Z) : Sorter D Z :=
  for_loop (steps (b - i))
    (fun i =>
       if i <? b then
         let* lt := less i (i - 1) in
         if negb lt then ret (inr (i + 1)) else ret (inl i)
       else ret (inl i))
    i.

Definition shift_left (i : Z) : Sorter D unit :=
  for_loop (steps i)
    (fun j =>
       if 1 <=? j then
         let* lt := less j (j - 1) in
         if negb lt then ret (inl tt)
         else swap j (j - 1) ;; ret (inr (j - 1))
       else ret (inl tt))
    (i - 1).

Definition shift_right (b i : Z) : Sorter D unit :=
  for_loop (steps (b - i))
    (fun j =>
       if j <? b then
         let* lt := less j (j - 1) in
         if negb lt then ret (inl tt)
         else swap j (j - 1) ;; ret (inr (j + 1))
       else ret (inl tt))
    (i + 1).

(** [partialInsertionSort(data, a, b)]. *)
Definition partialInsertionSort (a b : Z) : Sorter D bool :=
  let maxSteps := 5 in
  let shortestShifting := 50 in
  for_loop 6
    (fun '(i, j) =>
       if j <? maxSteps then
         let* i := scan_sorted b i in
         if i =? b then ret (inl true)
         else if b - a <? shortestShifting then ret (inl false)
         else
           swap i (i - 1) ;;
           (if 2 <=? i - a then shift_left i else ret tt) ;;
           (if 2 <=? b - i then shift_right b i else ret tt) ;;
           ret (inr (i, j + 1))
       else ret (inl false))
    (a + 1, 0).

(** The two scans of [partitionEqual]:
    [for i <= j && !data.Less(a, i) { i++ }] and
    [for i <= j && data.Less(a, j) { j-- }]. *)
Definition skip_equal (a b i j : Z) : Sorter D Z :=
  for_loop (steps (b - i))
    (fun i =>
       if i <=? j then
         let* lt := less a i in
         if negb lt then ret (inr (i + 1)) else ret (inl i)
       else ret (inl i))
    i.

Definition skip_greater (a i j : Z) : Sorter D Z :=
  for_loop (steps (j - a))
    (fun j =>
       if i <=? j then
         let* lt := less a j in
         if lt : bool then ret (inr (j - 1)) else ret (inl j)
       else ret (inl j))
    j.

(** [partitionEqual(data, a, b, pivot)]. *)
Definition partitionEqual (a b pivot : Z) : Sorter D Z :=
  swap a pivot ;;
  for_loop (steps (b - a))
    (fun '(i, j) =>
       let* i := skip_equal a b i j in
       let* j := skip_greater a i j in
       if j <? i then ret (inl i)
       else swap i j ;; ret (inr (i + 1, j - 1)))
    (a + 1, b - 1).

(** The two scans of [partition]:
    [for i <= j && data.Less(i, a) { i++ }] and
    [for i <= j && !data.Less(j, a) { j-- }]. *)
Definition scan_up (a b i j : Z) : Sorter D Z :=
  for_loop (steps (b - i))
    (fun i =>
       if i <=? j then
         let* lt := less i a in
         if lt : bool then ret (inr (i + 1)) else ret (inl i)
       else ret (inl i))
    i.

Definition scan_down (a i j : Z) : Sorter D Z :=
  for_loop (steps (j - a))
    (fun j =>
       if i <=? j then
         let* lt := less j a in
         if negb lt then ret (inr (j - 1)) else ret (inl j)
       else ret (inl j))
    j.

(** [partition(data, a, b, pivot)]. *)
Definition partition (a b pivot : Z) : Sorter D (Z * bool) :=
  swap a pivot ;;
  let i := a + 1 in
  let j := b - 1 in
  let* i := scan_up a b i j in
  let* j := scan_down a i j in
  if j <? i then swap j a ;; ret (j, true)
  else
    swap i j ;;
    let* j :=
      for_loop (steps (b - a))
        (fun '(i, j) =>
           let* i := scan_up a b i j in
           let* j := scan_down a i j in
           if j <? i then ret (inl j)
           else swap i j ;; ret (inr (i + 1, j - 1)))
        (i + 1, j - 1) in
    swap j a ;;
    ret (j, false).

(** [pdqsort(data, a, b, limit)].  The budget counts the iterations of
    its loop, through the nested calls. *)
Fixpoint pdqsort (fuel : nat) (a b limit : Z) : Sorter D unit :=
  match fuel with
  | O => fun _ => NoFuel
  | Datatypes.S fuel' =>
      let maxInsertion := 12 in
      for_loop (steps (b - a))
        (fun '(a, b, limit, wasBalanced, wasPartitioned) =>
           let length := b - a in
           if length <=? maxInsertion then insertionSort a b ;; ret (inl tt)
           else if limit =? 0 then heapSort a b ;; ret (inl tt)
           else
             let* limit :=
               if negb wasBalanced then breakPatterns a b ;; ret (limit - 1)
               else ret limit in
             let* '(pivot, hint) := choosePivot a b in
             let* '(pivot, hint) :=
               match hint with
               | decreasingHint =>
                   reverseRange a b ;;
                   ret ((b - 1) - (pivot - a), increasingHint)
               | _ => ret (pivot, hint)
               end in
             let* sorted :=
               if wasBalanced && wasPartitioned
                  && match hint with increasingHint => true | _ => false end
               then partialInsertionSort a b
               else ret false in
             if sorted : bool then ret (inl tt)
             else
               let* dup :=
                 if 0 <? a then
                   let* lt := less (a - 1) pivot in ret (negb lt)
                 else ret false in
               if dup : bool then
                 let* mid := partitionEqual a b pivot in
                 ret (inr (mid, b, limit, wasBalanced, wasPartitioned))
               else
                 let* '(mid, alreadyPartitioned) := partition a b pivot in
                 let wasPartitioned := alreadyPartitioned in
                 let leftLen := mid - a in
                 let rightLen := b - mid in
                 let balanceThreshold := length ÷ 8 in
                 if leftLen <? rightLen then
                   let wasBalanced := balanceThreshold <=? leftLen in
                   pdqsort fuel' a mid limit ;;
                   ret (inr (mid + 1, b, limit, wasBalanced, wasPartitioned))
                 else
                   let wasBalanced := balanceThreshold <=? rightLen in
                   pdqsort fuel' (mid + 1) b limit ;;
                   ret (inr (a, mid, limit, wasBalanced, wasPartitioned)))
        (a, b, limit, true, true)
  end.

(** [sort.Sort(data)]. *)
Definition Sort : Sorter D unit :=
  fun d =>
    let n := Len d in
    if n <=? 1 then Done (tt, d)
    else
      let limit := bits_Len n in
      pdqsort (steps n) 0 n limit d.

End Sort.
End sort.

(** [sort.Sort(ByRelease(a))]: the slice afterwards. *)
Definition sorted_by_release (a : ByRelease) : run ByRelease :=
  match sort.Sort a with
  | Done (_, a') => Done a'
  | Panic => Panic
  | NoFuel => NoFuel
  end.

(** *** Vocabulary of the sorting properties *)

(** Total correctness of a computation: from [d] it ends with a value and a
    collection that satisfy [Q]; it neither panics nor runs out of budget. *)
Definition wp {D X : Type} (m : Sorter D X) (Q : X -> D -> Prop) (d : D) : Prop :=
  match m d with
  | Done (x, d') => Q x d'
  | Panic | NoFuel => False
  end.

Section SortSpec.
Context {A : Type} `{Inhabited A} (lt : A -> A -> bool).

Local Open Scope Z_scope.

(** A slice of [A] behind [sort.Interface], ordered by [lt]: the shape of
    [ByRelease] with its [Len], [Swap] and [Less]. *)
Definition slice_Interface : Interface (list A) := {|
  Len l := Z.of_nat (length l);
  Less l i j :=
    match index i, index j with
    | Some i, Some j =>
        match l !! i, l !! j with
        | Some x, Some y => Some (lt x y)
        | _, _ => None
        end
    | _, _ => None
    end;
  Swap l i j :=
    match index i, index j with
    | Some i, Some j =>
        match l !! i, l !! j with
        | Some x, Some y => Some (<[j:=x]> (<[i:=y]> l))
        | _, _ => None
        end
    | _, _ => None
    end
|}.

(** The element at a Go index. *)
Definition elt (l : list A) (i : Z) : A := l !!! Z.to_nat i.

(** The slice with the elements at [i] and [j] exchanged. *)
Definition exchange (l : list A) (i j : Z) : list A :=
  <[Z.to_nat j := elt l i]> (<[Z.to_nat i := elt l j]> l).

(** [l[a:b]] is in order: no element is less than an earlier one. *)
Definition sorted_range (l : list A) (a b : Z) : Prop :=
  forall i j, a <= i -> i < j -> j < b -> lt (elt l j) (elt l i) = false.

(** [l'] comes from [l] by exchanges inside [l[a:b]]. *)
Inductive within (a b : Z) (l : list A) : list A -> Prop :=
  | within_refl : within a b l l
  | within_swap (l1 : list A) (i j : Z) :
      within a b l l1 ->
      a <= i < b -> a <= j < b ->
      0 <= i < Z.of_nat (length l1) -> 0 <= j < Z.of_nat (length l1) ->
      within a b l (exchange l1 i j).

(** Every element of [l[a:b]] satisfies [P]. *)
Definition all_in (l : list A) (a b : Z) (P : A -> Prop) : Prop :=
  forall k, a <= k < b -> P (elt l k).

(** No element of [l[a:b]] is less than the element before the range:
    what [pdqsort] knows of every range that does not start the slice. *)
Definition lower_bound (l : list A) (a b : Z) : Prop :=
  0 < a -> all_in l a b (fun y => lt y (elt l (a - 1)) = false).

(** [l[a:b]] is partitioned at [mid]: the pivot [p] is there, smaller
    elements are before it and no smaller element is after it. *)
Definition partitioned (l : list A) (a mid b : Z) (p : A) : Prop :=
  elt l mid = p
  /\ all_in l a mid (fun x => lt x p = true)
  /\ all_in l (mid + 1) b (fun x => lt x p = false).

(** The heap that [heapSort] builds in [l[first:first+hi]]: node [k] is
    not less than its children [2k+1] and [2k+2], for every node from [lo]
    on. *)
Definition heap_at (l : list A) (first hi k : Z) : Prop :=
  forall c, c = 2 * k + 1 \/ c = 2 * k + 2 -> c < hi ->
            lt (elt l (first + k)) (elt l (first + c)) = false.

Definition heap (l : list A) (first lo hi : Z) : Prop :=
  forall k, lo <= k -> heap_at l first hi k.

(** Elements that compare equal: neither is less than the other. *)
Definition tied (x y : A) : bool := negb (lt x y) && negb (lt y x).

(** [l'] keeps the elements that compare equal in the order they have in
    [l]: for every [x], the elements tied with [x] form the same sequence. *)
Definition same_ties (l l' : list A) : Prop :=
  forall x, List.filter (tied x) l' = List.filter (tied x) l.

End SortSpec.

#[global] Instance Release_inhabited : Inhabited Release :=
  populate (mkRelease "" false []).
(** [!version.IsValid(x)]: the string does not parse as a Go version. *)
Definition invalid (x : string) : Prop :=
  version.Parse (version.stripGo x) = version.Version_zero.

(** The input of [TestReleaseSort]. *)
Definition unsorted_releases : list Release :=
  [mkRelease "go1.19.7" false []; mkRelease "go1.20" false [];
   mkRelease "go1.20.2" false []; mkRelease "go1.18.10" false []].

(** Thirteen releases of which only the second has a valid version: the
    other twelve compare equal. *)
Definition thirteen_releases : list Release :=
  map (fun v => mkRelease v false [])
    ["a"; "go1.20"; "b"; "c"; "d"; "e"; "f"; "g"; "h"; "i"; "j"; "k"; "l"].

(** * Properties *)

(** ** File selection *)

Lemma isSpecified_from (specs : list (File -> bool)) (v : File) (b : bool) :
  fold_left (fun acc spec => acc && spec v) specs b = b && matches specs v.
Proof.
  revert b. induction specs as [|s specs IH]; intros b; simpl.
  - by rewrite andb_true_r.
  - rewrite IH. by rewrite andb_assoc.
Qed.

Lemma isSpecified_matches (specs : list (File -> bool)) (v : File) :
  isSpecified specs v = matches specs v.
Proof. unfold isSpecified. by rewrite isSpecified_from. Qed.

Lemma Filter_from (specs : list (File -> bool)) (files acc : list File) :
  fold_left
    (fun filteredFiles v =>
       if isSpecified specs v then filteredFiles ++ [v] else filteredFiles)
    files acc
  = acc ++ List.filter (matches specs) files.
Proof.
  revert acc. induction files as [|v files IH]; intros acc; simpl.
  - by rewrite app_nil_r.
  - rewrite IH, isSpecified_matches.
    destruct (matches specs v); [|done].
    by rewrite <- app_assoc.
Qed.

Lemma Filter_filter (files : Files) (specs : list (File -> bool)) :
  Filter files specs = List.filter (matches specs) files.
Proof. unfold Filter. by rewrite Filter_from. Qed.

Lemma filter_sublist {A} (p : A -> bool) (l : list A) :
  sublist (List.filter p l) l.
Proof.
  induction l as [|x l IH]; simpl; [constructor|].
  destruct (p x); by constructor.
Qed.

Lemma head_filter_find {A} (p : A -> bool) (l : list A) :
  head (List.filter p l) = List.find p l.
Proof.
  induction l as [|x l IH]; simpl; [done|].
  by destruct (p x).
Qed.

(** C10: [Filter] returns the matching files as a subsequence of its input,
    in the original order, and with no predicate it returns the input. *)
Theorem Filter_subsequence :
  forall (files : Files) (specs : list (File -> bool)),
    Filter files specs = List.filter (matches specs) files
    /\ sublist (Filter files specs) files
    /\ (forall f, In f (Filter files specs)
                  <-> In f files /\ forall spec, In spec specs -> spec f = true)
    /\ length (Filter files specs) <= length files
    /\ Filter files [] = files.
Proof.
  intros files specs. rewrite !Filter_filter.
  split; [done|]. split; [apply filter_sublist|].
  split; [|split; [apply sublist_length, filter_sublist|]].
  - intros f. rewrite filter_In. unfold matches. rewrite forallb_forall.
    tauto.
  - induction files as [|v files IH]; simpl; [done|]. by rewrite IH.
Qed.

Lemma platform_match_nonzero (f : File) :
  matches platformSpecs f = true -> f <> File_zero.
Proof.
  intros Hm ->. vm_compute in Hm. discriminate.
Qed.

(** The selection loop, from any starting value of [dlf], when the releases
    carrying the chosen version are all the release [r]. *)
Lemma selectFile_from (vs : list Release) (r : Release) (acc : File) :
  (forall r', In r' vs -> Release_Version r' = Release_Version r -> r' = r) ->
  fold_left
    (fun dlf v =>
       if String.eqb (Release_Version r) (Release_Version v) then
         match Filter (Release_Files v) platformSpecs with
         | l0 :: _ => l0
         | [] => dlf
         end
       else dlf)
    vs acc
  = if existsb (fun v => String.eqb (Release_Version r) (Release_Version v)) vs
    then default acc (List.find (matches platformSpecs) (Release_Files r))
    else acc.
Proof.
  revert acc. induction vs as [|v vs IH]; intros acc Huniq; simpl; [done|].
  rewrite IH by (intros r' Hin; apply Huniq; by right).
  destruct (String.eqb_spec (Release_Version r) (Release_Version v)) as [Heq|Hne];
    simpl; [|done].
  assert (v = r) as -> by (apply Huniq; [by left|done]).
  rewrite <- head_filter_find, <- Filter_filter.
  destruct (Filter (Release_Files r) platformSpecs) as [|l0 l]; simpl;
    by destruct (existsb _ vs).
Qed.

Lemma selectFile_unique (vs : list Release) (r : Release) :
  In r vs ->
  (forall r', In r' vs -> Release_Version r' = Release_Version r -> r' = r) ->
  selectFile vs (Release_Version r)
  = default File_zero (List.find (matches platformSpecs) (Release_Files r)).
Proof.
  intros Hin Huniq. unfold selectFile.
  change [isLinux; isAmd64] with platformSpecs.
  rewrite (selectFile_from vs r File_zero Huniq).
  assert (existsb (fun v => String.eqb (Release_Version r) (Release_Version v)) vs
          = true) as ->; [|done].
  apply existsb_exists. exists r. split; [done|]. apply String.eqb_refl.
Qed.

Lemma Update_errMsg (m : model) (e : error) :
  Update m (errMsg e) = (set_err m e, tea_Quit).
Proof. reflexivity. Qed.

Lemma View_set_err (m : model) (e : error) : View (set_err m e) = ErrorView e.
Proof. reflexivity. Qed.

(** C1: selection is the first file of the release, in catalog order, that
    satisfies every predicate; the file found is never the zero value and is
    the one transferred; without a match [downloadCmd] returns the explicit
    error before creating the temporary file or sending a request, and the
    loop records the error and shows it. *)
Theorem selection_first_match_or_error :
  (forall (files : Files) (specs : list (File -> bool)),
      head (Filter files specs) = List.find (matches specs) files)
  /\ forall (m : model) (w : World) (r : Release),
      In r (versions m) ->
      choice m = Release_Version r ->
      (forall r', In r' (versions m) ->
                  Release_Version r' = Release_Version r -> r' = r) ->
      match List.find (matches platformSpecs) (Release_Files r) with
      | Some f =>
          selectFile (versions m) (choice m) = f
          /\ f <> File_zero
          /\ forall tmp, createTemp w = inr tmp ->
               (downloadCmd m w).2 = EvCreateTemp :: (Download (repo m) f tmp).2
               /\ (downloadCmd m w).1.2
                  = set_file m (Some (Download (repo m) f tmp).1.2)
      | None =>
          downloadCmd m w = (Some (errMsg errNoMatch), m, [])
          /\ forall m0,
               Update m0 (errMsg errNoMatch) = (set_err m0 errNoMatch, tea_Quit)
               /\ View (set_err m0 errNoMatch) = ErrorView errNoMatch
      end.
Proof.
  split.
  - intros files specs. rewrite Filter_filter. apply head_filter_find.
  - intros m w r Hin Hchoice Huniq.
    pose proof (selectFile_unique _ _ Hin Huniq) as Hsel.
    rewrite <- Hchoice in Hsel.
    destruct (List.find (matches platformSpecs) (Release_Files r)) as [f|] eqn:Hfind;
      simpl in Hsel.
    + apply find_some in Hfind as [_ Hm].
      pose proof (platform_match_nonzero f Hm) as Hnz.
      split; [done|]. split; [done|].
      intros tmp Htmp. unfold downloadCmd. rewrite Hsel, Htmp.
      destruct (decide (f = File_zero)) as [?|_]; [done|].
      destruct (Download (repo m) f tmp) as [[res f'] evs].
      by destruct res as [[e|]| |].
    + split; [|done].
      unfold downloadCmd. rewrite Hsel.
      by destruct (decide (File_zero = File_zero)).
Qed.

Lemma selection_first_match_or_error_witness :
  selectFile sample_catalog "go1.20.2" = file_go1_20_2
  /\ file_go1_20_2 <> File_zero
  /\ forall tmp, createTemp quiet_world = inr tmp ->
       (downloadCmd (model_of (inl EOF) sample_catalog "go1.20.2") quiet_world).2
       = EvCreateTemp :: (Download (repo_of (inl EOF)) file_go1_20_2 tmp).2
       /\ (downloadCmd (model_of (inl EOF) sample_catalog "go1.20.2") quiet_world).1.2
          = set_file (model_of (inl EOF) sample_catalog "go1.20.2")
              (Some (Download (repo_of (inl EOF)) file_go1_20_2 tmp).1.2).
Proof.
  refine (proj2 selection_first_match_or_error
            (model_of (inl EOF) sample_catalog "go1.20.2") quiet_world
            release_go1_20_2 _ _ _).
  - simpl. auto.
  - reflexivity.
  - simpl. intros r' [<-|[<-|[<-|[]]]] Hv;
      [reflexivity|discriminate Hv|discriminate Hv].
Defined.

(** ** The release ordering *)

Lemma lexZ_total {A B : Type} (c1 : A -> A -> Z) (c2 : B -> B -> Z) :
  TotalCmp c1 -> TotalCmp c2 -> TotalCmp (lexZ c1 c2).
Proof.
  intros [r1 e1 a1 t1] [r2 e2 a2 t2]. split.
  - intros [x1 x2] [y1 y2]. unfold lexZ; simpl.
    destruct (Z.eqb_spec (c1 x1 y1) 0); simpl; [apply r2|apply r1].
  - intros [x1 x2] [y1 y2]. unfold lexZ; simpl.
    destruct (Z.eqb_spec (c1 x1 y1) 0) as [H0|Hn]; simpl.
    + apply e1 in H0 as ->. rewrite e2. split; [by intros ->|by intros [= ->]].
    + split; [done|]. intros [= -> ->]. destruct Hn. by apply e1.
  - intros [x1 x2] [y1 y2]. unfold lexZ; simpl.
    rewrite (a1 x1 y1).
    destruct (Z.eqb_spec (c1 x1 y1) 0) as [H0|Hn];
      destruct (Z.eqb_spec (- c1 x1 y1) 0) as [H0'|Hn']; simpl;
      try lia; apply a2.
  - intros [x1 x2] [y1 y2] [z1 z2]. unfold lexZ; simpl.
    destruct (Z.eqb_spec (c1 x1 y1) 0) as [Hxy|Hxy];
      destruct (Z.eqb_spec (c1 y1 z1) 0) as [Hyz|Hyz]; simpl.
    + apply e1 in Hxy as ->. apply e1 in Hyz as ->.
      assert (c1 z1 z1 = 0%Z) as -> by by apply e1.
      simpl. apply t2.
    + apply e1 in Hxy as ->. intros _ H1. rewrite H1. by simpl.
    + apply e1 in Hyz as ->. intros H1 _. rewrite H1. by simpl.
    + intros H1 H2. rewrite (t1 _ _ _ H1 H2). by simpl.
Qed.

Lemma ascii_compare_refl (a : ascii) : Ascii.compare a a = Eq.
Proof. unfold Ascii.compare. apply N.compare_refl. Qed.

Lemma ascii_compare_Gt_trans (a b c : ascii) :
  Ascii.compare a b = Gt -> Ascii.compare b c = Gt -> Ascii.compare a c = Gt.
Proof.
  unfold Ascii.compare. rewrite !N.compare_gt_iff. lia.
Qed.

Lemma string_compare_Gt_trans (x y z : string) :
  String.compare x y = Gt -> String.compare y z = Gt -> String.compare x z = Gt.
Proof.
  revert y z. induction x as [|a x IH]; intros [|b y] [|c z]; simpl; try done.
  destruct (Ascii.compare a b) eqn:Hab; try done;
    destruct (Ascii.compare b c) eqn:Hbc; try done.
  - apply Ascii.compare_eq_iff in Hab as ->. rewrite Hbc. apply IH.
  - apply Ascii.compare_eq_iff in Hab as ->. by rewrite Hbc.
  - apply Ascii.compare_eq_iff in Hbc as ->. by rewrite Hab.
  - by rewrite (ascii_compare_Gt_trans _ _ _ Hab Hbc).
Qed.

Lemma string_compare_refl (x : string) : String.compare x x = Eq.
Proof.
  induction x as [|a x IH]; simpl; [done|]. by rewrite ascii_compare_refl.
Qed.

Lemma string_compare_Eq (x y : string) : String.compare x y = Eq <-> x = y.
Proof.
  split; [apply String.compare_eq_iff|]. intros ->. apply string_compare_refl.
Qed.

Lemma string_ltb_compare (x y : string) :
  String.ltb x y = match String.compare x y with Lt => true | _ => false end.
Proof. reflexivity. Qed.

Lemma cmp_Compare_cmpZ (x y : string) :
  version.cmp_Compare x y = cmpZ (String.compare x y).
Proof.
  unfold version.cmp_Compare. rewrite !string_ltb_compare.
  rewrite (String.compare_antisym y x).
  by destruct (String.compare x y).
Qed.

Lemma cmp_Compare_total : TotalCmp version.cmp_Compare.
Proof.
  split.
  - intros x y. rewrite cmp_Compare_cmpZ. destruct (String.compare x y); simpl; auto.
  - intros x y. rewrite cmp_Compare_cmpZ. rewrite <- string_compare_Eq.
    destruct (String.compare x y); simpl; split; done.
  - intros x y. rewrite !cmp_Compare_cmpZ, (String.compare_antisym y x).
    by destruct (String.compare x y).
  - intros x y z. rewrite !cmp_Compare_cmpZ.
    destruct (String.compare x y) eqn:Hxy; try done.
    destruct (String.compare y z) eqn:Hyz; try done.
    by rewrite (string_compare_Gt_trans _ _ _ Hxy Hyz).
Qed.

(** [CmpInt x y = 1] exactly when [x] is longer, or as long and greater. *)
Lemma CmpInt_cases (x y : string) :
  version.CmpInt x y
  = match Nat.compare (String.length x) (String.length y) with
    | Lt => (-1)%Z
    | Gt => 1%Z
    | Eq => cmpZ (String.compare x y)
    end.
Proof.
  unfold version.CmpInt.
  destruct (String.eqb_spec x y) as [->|Hne].
  - by rewrite Nat.compare_refl, string_compare_refl.
  - destruct (Nat.ltb_spec (String.length x) (String.length y)) as [Hlt|Hge].
    + by apply Nat.compare_lt_iff in Hlt as ->.
    + destruct (Nat.ltb_spec (String.length y) (String.length x)) as [Hgt|Hle].
      * by apply Nat.compare_gt_iff in Hgt as ->.
      * assert (String.length x = String.length y) as Hlen by lia.
        apply Nat.compare_eq_iff in Hlen as ->.
        rewrite string_ltb_compare.
        destruct (String.compare x y) eqn:Hc; simpl; try done.
        by apply String.compare_eq_iff in Hc.
Qed.

Lemma CmpInt_total : TotalCmp version.CmpInt.
Proof.
  split.
  - intros x y. rewrite CmpInt_cases.
    destruct (Nat.compare _ _); auto.
    destruct (String.compare x y); simpl; auto.
  - intros x y. rewrite CmpInt_cases. split.
    + destruct (Nat.compare _ _); try done.
      destruct (String.compare x y) eqn:Hc; simpl; try done.
      intros _. by apply String.compare_eq_iff.
    + intros ->. by rewrite Nat.compare_refl, string_compare_refl.
  - intros x y. rewrite !CmpInt_cases.
    rewrite (Nat.compare_antisym (String.length x) (String.length y)).
    rewrite (String.compare_antisym y x).
    destruct (Nat.compare (String.length x) (String.length y)); simpl; try done.
    by destruct (String.compare x y).
  - intros x y z. rewrite !CmpInt_cases.
    destruct (Nat.compare_spec (String.length x) (String.length y)) as [Hxy|Hxy|Hxy];
      try done;
      destruct (Nat.compare_spec (String.length y) (String.length z)) as [Hyz|Hyz|Hyz];
      try done.
    + rewrite Hxy, Hyz, Nat.compare_refl.
      destruct (String.compare x y) eqn:Hc1; try done.
      destruct (String.compare y z) eqn:Hc2; try done.
      by rewrite (string_compare_Gt_trans _ _ _ Hc1 Hc2).
    + intros _ _. assert (String.length z < String.length x) as H by lia.
      by apply Nat.compare_gt_iff in H as ->.
    + intros _ _. assert (String.length z < String.length x) as H by lia.
      by apply Nat.compare_gt_iff in H as ->.
    + intros _ _. assert (String.length z < String.length x) as H by lia.
      by apply Nat.compare_gt_iff in H as ->.
Qed.

Lemma key_cmp_total : TotalCmp key_cmp.
Proof.
  unfold key_cmp.
  repeat apply lexZ_total; auto using CmpInt_total, cmp_Compare_total.
Qed.

Lemma last_step (c : Z) : (if negb (Z.eqb c 0) then c else 0%Z) = c.
Proof. by destruct (Z.eqb_spec c 0) as [->|]. Qed.

Lemma gover_Compare_key (x y : string) :
  version.gover_Compare x y
  = key_cmp (Version_key (version.Parse x)) (Version_key (version.Parse y)).
Proof.
  unfold version.gover_Compare.
  generalize (version.Parse x) (version.Parse y). intros vx vy.
  unfold key_cmp, lexZ, Version_key. cbn [fst snd].
  by rewrite last_step.
Qed.

Lemma Compare_key (x y : string) :
  version.Compare x y = key_cmp (release_key x) (release_key y).
Proof. unfold version.Compare. apply gover_Compare_key. Qed.

Lemma Compare_range (x y : string) :
  version.Compare x y = (-1)%Z \/ version.Compare x y = 0%Z
  \/ version.Compare x y = 1%Z.
Proof. rewrite Compare_key. apply key_cmp_total. Qed.

Lemma Compare_anti (x y : string) :
  version.Compare y x = (- version.Compare x y)%Z.
Proof. rewrite !Compare_key. apply key_cmp_total. Qed.

Lemma Compare_refl (x : string) : version.Compare x x = 0%Z.
Proof. rewrite Compare_key. by apply key_cmp_total. Qed.

Lemma Compare_ge_trans (x y z : string) :
  (0 <= version.Compare x y)%Z -> (0 <= version.Compare y z)%Z ->
  (0 <= version.Compare x z)%Z.
Proof.
  rewrite !Compare_key.
  pose proof key_cmp_total as [Hr He Ha Ht].
  destruct (Hr (release_key x) (release_key y)) as [H|[H|H]];
    destruct (Hr (release_key y) (release_key z)) as [H'|[H'|H']];
    try lia.
  - apply He in H as ->. lia.
  - apply He in H as ->. lia.
  - apply He in H' as <-. lia.
  - rewrite (Ht _ _ _ H H'). lia.
Qed.

Lemma release_less_false (x y : Release) :
  release_less y x = false <-> version_ge x y.
Proof.
  unfold release_less, version_ge.
  rewrite (Compare_anti (Release_Version x) (Release_Version y)).
  rewrite Z.ltb_ge. lia.
Qed.

Lemma IsSorted_cons (x : Release) (a : ByRelease) :
  IsSorted (x :: a) = true ->
  IsSorted a = true /\ Forall (version_ge x) a.
Proof.
  revert x. induction a as [|y a IH]; intros x Hs; [by split|].
  simpl in Hs. apply andb_true_iff in Hs as [Hxy Hrest].
  apply negb_true_iff, release_less_false in Hxy.
  split; [done|].
  destruct (IH y Hrest) as [_ Hall].
  constructor; [done|].
  eapply Forall_impl; [exact Hall|].
  intros z Hyz. unfold version_ge in *. by eapply Compare_ge_trans.
Qed.

Lemma IsSorted_descending (a : ByRelease) :
  IsSorted a = true -> descending (map Release_Version a).
Proof.
  induction a as [|r a IH]; intros Hs i j x y Hij Hi Hj.
  - simpl in Hi. by rewrite lookup_nil in Hi.
  - apply IsSorted_cons in Hs as [Hs Hall].
    destruct j as [|j]; [lia|]. simpl in Hj.
    destruct i as [|i].
    + simpl in Hi. injection Hi as <-.
      rewrite list_lookup_fmap in Hj.
      destruct (a !! j) as [r'|] eqn:Hr'; [|done].
      simpl in Hj. injection Hj as <-.
      rewrite Forall_forall in Hall. apply Hall.
      by eapply list_elem_of_lookup_2.
    + simpl in Hi. eapply (IH Hs i j); [lia|done|done].
Qed.

Lemma main_items_from (versions : list Release) (acc : list string) :
  fold_left (fun items v => items ++ [Release_Version v]) versions acc
  = acc ++ map Release_Version versions.
Proof.
  revert acc. induction versions as [|v vs IH]; intros acc; simpl.
  - by rewrite app_nil_r.
  - rewrite IH. by rewrite <- app_assoc.
Qed.

Lemma main_items_map (versions : list Release) :
  main_items versions = map Release_Version versions.
Proof. unfold main_items. by rewrite main_items_from. Qed.

(** ** Transfer engine *)

Lemma Body_Read_spec (cap : nat) (b : Body) :
  0 < cap ->
  let '(chunk, e, b') := Body_Read cap b in
  length chunk <= cap
  /\ (e = None -> Body_size b' < Body_size b)
  /\ Body_bytes b = chunk ++ Body_bytes b'
     \/ (b = [] /\ chunk = [] /\ e = Some EOF).
Proof.
  intros Hcap. destruct b as [|[s e] rest]; simpl; [by right|].
  destruct (Nat.leb_spec (length s) cap) as [Hle|Hgt]; left.
  - split; [done|]. split; [lia|]. done.
  - rewrite length_take. split; [lia|]. split.
    + intros _. simpl. rewrite length_drop. lia.
    + unfold Body_bytes. simpl. by rewrite app_assoc, take_drop.
Qed.

Lemma File_Write_spec (f : OsFile) (b : list byte) :
  let '(nw, e, f') := File_Write f b in
  nw <= length b
  /\ content f' = content f ++ take nw b
  /\ (e = None -> nw = length b).
Proof.
  unfold File_Write. destruct (faults f) as [|[[k e]|] fl]; simpl.
  - by rewrite firstn_all.
  - rewrite length_take. split; [lia|]. split; [|done].
    f_equal. destruct (Nat.le_ge_cases k (length b)) as [Hk|Hk].
    + by rewrite Nat.min_l.
    + rewrite Nat.min_r by done. by rewrite !take_ge by lia.
  - by rewrite firstn_all.
Qed.

Lemma nonempty_length {A} (l : list A) : (0 <? length l)%nat = true -> l <> [].
Proof. by destruct l. Qed.

Lemma empty_length {A} (l : list A) : (0 <? length l)%nat = false -> l = [].
Proof. by destruct l. Qed.

(** The loop conforms to the shape above and never runs out of fuel once
    the fuel exceeds the size of the script. *)
Lemma copyLoop_conforms (cap : N) (total : Z) (fuel : nat) :
  (0 < cap)%N ->
  forall (d : Z) (body : Body) (out : OsFile),
    Body_size body < fuel ->
    transfer_trace cap total d
      (copyLoop cap fuel total d body out).2
      (copyLoop cap fuel total d body out).1.1.
Proof.
  intros Hcap. induction fuel as [|fuel IH]; intros d body out Hfuel; [lia|].
  simpl.
  pose proof (Body_Read_spec (N.to_nat cap) body ltac:(lia)) as Hread.
  destruct (Body_Read (N.to_nat cap) body) as [[chunk errRead] body'].
  destruct (0 <? length chunk)%nat eqn:Hlen.
  - apply nonempty_length in Hlen.
    destruct Hread as [(Hle & Hsize & _)|(_ & -> & _)]; [|done].
    pose proof (File_Write_spec out chunk) as Hwrite.
    destruct (File_Write out chunk) as [[nw errWrite] out'].
    destruct Hwrite as (Hnw & _ & Hfull).
    destruct errWrite as [e|]; simpl.
    + by apply tt_write_fail.
    + rewrite (Hfull eq_refl).
      destruct errRead as [e|].
      * destruct e; simpl; by apply (tt_chunk_stop cap total d chunk).
      * specialize (IH (d + Z.of_nat (length chunk))%Z body' out'
                      ltac:(specialize (Hsize eq_refl); lia)).
        destruct (copyLoop cap fuel total _ body' out') as [[r f] rest].
        simpl in *. by apply tt_chunk.
  - apply empty_length in Hlen as ->.
    destruct errRead as [e|].
    + destruct e; simpl; apply (tt_stop cap total d).
    + destruct Hread as [(_ & Hsize & _)|(_ & _ & ?)]; [|done].
      specialize (IH d body' out ltac:(specialize (Hsize eq_refl); lia)).
      destruct (copyLoop cap fuel total d body' out) as [[r f] rest].
      simpl in *. by apply tt_idle.
Qed.

(** Case analysis on where a position [pre ++ x :: post] lies in a trace
    whose first event is known. *)
Ltac split_trace :=
  match goal with
  | H : [] = ?pre ++ _ :: _ |- _ => destruct pre; simpl in H; discriminate H
  | H : _ :: _ = ?pre ++ _ :: _ |- _ =>
      destruct pre as [|? ?]; simpl in H; simplify_eq; try done
  end.

Lemma transfer_trace_returns cap total d evs res :
  transfer_trace cap total d evs res -> exists r, res = Returned r.
Proof.
  induction 1; eauto; unfold stop_result; destruct (is_EOF e); eauto.
Qed.

(** Every read asks for [cap] bytes and gets at most that many; every write
    is handed at most [cap] bytes. *)
Lemma transfer_trace_bounded cap total d evs res :
  transfer_trace cap total d evs res ->
  forall ev, In ev evs ->
    match ev with
    | EvRead c data _ => c = cap /\ length data <= N.to_nat cap
    | EvWrite data nw _ => length data <= N.to_nat cap /\ nw <= length data
    | EvProgress _ => True
    | _ => False
    end.
Proof.
  induction 1; intros ev Hin; simpl in Hin;
    repeat (destruct Hin as [<-|Hin]; [simpl; auto with lia|]);
    try done; by apply IHtransfer_trace.
Qed.

(** A read that returned bytes is followed at once by the write of exactly
    these bytes and by the progress event for the bytes written so far. *)
Lemma transfer_trace_read_write cap total d evs res :
  transfer_trace cap total d evs res ->
  forall pre c data e post,
    evs = pre ++ EvRead c data e :: post -> data <> [] ->
    exists nw we post',
      post = EvWrite data nw we
               :: EvProgress (mkRatio (d + written pre + Z.of_nat nw) total) :: post'.
Proof.
  induction 1; intros pre c data e' post Heq Hdata.
  - split_trace. split_trace.
  - split_trace. destruct (IHtransfer_trace _ _ _ _ _ eq_refl Hdata)
      as (nw & we & post' & ->). simpl. eauto.
  - split_trace; [simpl; rewrite Z.add_0_r; eauto|].
    split_trace. split_trace. split_trace.
  - split_trace; [simpl; rewrite Z.add_0_r; eauto|].
    split_trace. split_trace. split_trace.
  - split_trace; [simpl; rewrite Z.add_0_r; eauto|].
    split_trace. split_trace.
    destruct (IHtransfer_trace _ _ _ _ _ eq_refl Hdata)
      as (nw & we & post' & ->). simpl.
    exists nw, we, post'. do 4 f_equal. lia.
Qed.

(** A progress event comes right after a write, and reports the bytes
    written so far over [total]. *)
Lemma transfer_trace_progress cap total d evs res :
  transfer_trace cap total d evs res ->
  forall pre r post,
    evs = pre ++ EvProgress r :: post ->
    r = mkRatio (d + written pre) total
    /\ exists pre' data nw we, pre = pre' ++ [EvWrite data nw we].
Proof.
  induction 1; intros pre r post Heq.
  - split_trace. split_trace.
  - split_trace.
    destruct (IHtransfer_trace _ _ _ eq_refl) as (-> & pre' & data & nw & we & ->).
    split; [done|]. by exists (EvRead cap [] None :: pre'), data, nw, we.
  - split_trace. split_trace. split_trace.
    + split; [simpl; f_equal; lia|]. by exists [EvRead cap chunk errRead], chunk, nw, (Some e).
    + split_trace.
  - split_trace. split_trace. split_trace.
    + split; [simpl; f_equal; lia|].
      by exists [EvRead cap chunk (Some e)], chunk, (length chunk), None.
    + split_trace.
  - split_trace. split_trace. split_trace.
    + split; [simpl; f_equal; lia|].
      by exists [EvRead cap chunk None], chunk, (length chunk), None.
    + destruct (IHtransfer_trace _ _ _ eq_refl)
        as (-> & pre' & data & nw & we & ->).
      split; [simpl; f_equal; lia|].
      by exists (EvRead cap chunk None :: EvWrite chunk (length chunk) None
                 :: EvProgress (mkRatio (d + Z.of_nat (length chunk)) total) :: pre'),
           data, nw, we.
Qed.

(** A failed write is followed by its progress event and nothing else, and
    its error is the result. *)
Lemma transfer_trace_write_failure cap total d evs res :
  transfer_trace cap total d evs res ->
  forall pre data nw e post,
    evs = pre ++ EvWrite data nw (Some e) :: post ->
    res = Returned (Some e) /\ exists r, post = [EvProgress r].
Proof.
  induction 1; intros pre data nw' e' post Heq.
  - split_trace. split_trace.
  - split_trace. eauto.
  - split_trace. split_trace; [eauto|].
    split_trace. split_trace.
  - split_trace. split_trace. split_trace. split_trace.
  - split_trace. split_trace. split_trace. eauto.
Qed.

(** A read that reports an error is the last read; the call returns that
    error ([nil] for [io.EOF]) unless the write of its bytes failed. *)
Lemma transfer_trace_read_failure cap total d evs res :
  transfer_trace cap total d evs res ->
  forall pre c data e post,
    evs = pre ++ EvRead c data (Some e) :: post ->
    forallb (fun ev => negb (is_read ev)) post = true
    /\ (res = stop_result e
        \/ exists nw we r, post = [EvWrite data nw (Some we); EvProgress r]
                           /\ res = Returned (Some we)).
Proof.
  induction 1; intros pre c data e' post Heq.
  - split_trace; [auto|]. split_trace.
  - split_trace. eauto.
  - split_trace; [split; [done|]; right; eauto|].
    split_trace. split_trace. split_trace.
  - split_trace; [auto|].
    split_trace. split_trace. split_trace.
  - split_trace. split_trace. split_trace. eauto.
Qed.

Lemma bufSize_pos : (0 < bufSize)%N.
Proof. reflexivity. Qed.

Lemma Download_trace (g : GoRepository) (dlFile : File) (outFile : OsFile)
    (resp : Response) :
  NewRequest (client g) (download_url g dlFile) = None ->
  Do (client g) (download_url g dlFile) = inr resp ->
  ContentLength resp <> 0%Z ->
  exists evs,
    (Download g dlFile outFile).2 = EvRequest (download_url g dlFile) :: evs
    /\ transfer_trace bufSize (ContentLength resp) 0 evs (Download g dlFile outFile).1.1.
Proof.
  intros Hreq Hdo Hlen. unfold Download.
  fold (download_url g dlFile). rewrite Hreq, Hdo.
  destruct (Z.eqb_spec (ContentLength resp) 0) as [?|_]; [done|].
  pose proof (copyLoop_conforms bufSize (ContentLength resp)
                (S (Body_size (Resp_Body resp))) bufSize_pos 0
                (Resp_Body resp) outFile ltac:(lia)) as Hconf.
  destruct (copyLoop bufSize _ _ _ _ _) as [[r f] evs].
  exists evs. by split.
Qed.

(** C5, as stated, fails: the progress callback runs before the write error
    is examined, so a failed write is still followed by a progress event. *)
Lemma progress_after_failed_write :
  Download (repo_of (inr response_abc)) file_go1_20_2 full_disk
  = (Returned (Some (Err "no space left on device")),
     mkOsFile [] [],
     [EvRequest "https://go.dev/dl/go1.20.2.linux-amd64.tar.gz";
      EvRead bufSize (bytes_of "abc") None;
      EvWrite (bytes_of "abc") 0 (Some (Err "no space left on device"));
      EvProgress (mkRatio 0 3)])
  /\ ~ progress_only_after_success
         (Download (repo_of (inr response_abc)) file_go1_20_2 full_disk).2.
Proof.
  assert (Download (repo_of (inr response_abc)) file_go1_20_2 full_disk
          = (Returned (Some (Err "no space left on device")),
             mkOsFile [] [],
             [EvRequest "https://go.dev/dl/go1.20.2.linux-amd64.tar.gz";
              EvRead bufSize (bytes_of "abc") None;
              EvWrite (bytes_of "abc") 0 (Some (Err "no space left on device"));
              EvProgress (mkRatio 0 3)])) as Heq
    by (vm_compute; reflexivity).
  split; [exact Heq|].
  rewrite Heq. intros H.
  destruct (H [EvRequest "https://go.dev/dl/go1.20.2.linux-amd64.tar.gz";
               EvRead bufSize (bytes_of "abc") None;
               EvWrite (bytes_of "abc") 0 (Some (Err "no space left on device"))]
              (mkRatio 0 3) [] eq_refl) as (pre' & data & nw & Hpre).
  change [EvRequest "https://go.dev/dl/go1.20.2.linux-amd64.tar.gz";
          EvRead bufSize (bytes_of "abc") None;
          EvWrite (bytes_of "abc") 0 (Some (Err "no space left on device"))]
    with ([EvRequest "https://go.dev/dl/go1.20.2.linux-amd64.tar.gz";
           EvRead bufSize (bytes_of "abc") None]
          ++ [EvWrite (bytes_of "abc") 0 (Some (Err "no space left on device"))])
    in Hpre.
  apply app_inj_tail in Hpre as [_ Hlast]. discriminate Hlast.
Qed.

(** C5, amended: bytes move through a buffer of 32 KiB; a chunk that was
    read is written before the next read; right after every write attempt,
    failed or not, the progress callback receives the bytes written so far
    over the declared total; a failed write ends the download with its
    error, and so does a failed read (other than [io.EOF]) once the bytes
    that came with it are written. *)
Theorem Download_chunked :
  forall (g : GoRepository) (dlFile : File) (outFile : OsFile) (resp : Response),
    NewRequest (client g) (download_url g dlFile) = None ->
    Do (client g) (download_url g dlFile) = inr resp ->
    ContentLength resp <> 0%Z ->
    exists evs,
      (Download g dlFile outFile).2 = EvRequest (download_url g dlFile) :: evs
      /\ chunked_transfer (ContentLength resp) (Download g dlFile outFile).1.1 evs.
Proof.
  intros g dlFile outFile resp Hreq Hdo Hlen.
  destruct (Download_trace g dlFile outFile resp Hreq Hdo Hlen) as (evs & Hevs & Ht).
  exists evs. split; [done|].
  unfold chunked_transfer.
  refine (conj _ (conj _ (conj _ (conj _ (conj _ _))))).
  - by eapply transfer_trace_returns.
  - by eapply transfer_trace_bounded.
  - intros pre c data e post Hpos Hdata.
    destruct (transfer_trace_read_write _ _ _ _ _ Ht _ _ _ _ _ Hpos Hdata)
      as (nw & we & post' & ->).
    rewrite Z.add_0_l. eauto.
  - intros pre r post Hpos.
    destruct (transfer_trace_progress _ _ _ _ _ Ht _ _ _ Hpos) as [-> Hpre].
    rewrite Z.add_0_l. split; [done|exact Hpre].
  - intros pre data nw e post Hpos.
    exact (transfer_trace_write_failure _ _ _ _ _ Ht _ _ _ _ _ Hpos).
  - intros pre c data e post Hpos.
    exact (transfer_trace_read_failure _ _ _ _ _ Ht _ _ _ _ _ Hpos).
Qed.

Lemma Download_chunked_witness :
  exists evs,
    (Download (repo_of (inr response_abc)) file_go1_20_2 full_disk).2
    = EvRequest (download_url (repo_of (inr response_abc)) file_go1_20_2) :: evs
    /\ chunked_transfer (ContentLength response_abc)
         (Download (repo_of (inr response_abc)) file_go1_20_2 full_disk).1.1 evs.
Proof.
  apply (Download_chunked (repo_of (inr response_abc)) file_go1_20_2 full_disk
           response_abc); [reflexivity|reflexivity|].
  simpl. lia.
Defined.

Lemma File_Write_reliable (f : OsFile) (b : list byte) :
  reliable f = true ->
  exists f', File_Write f b = (length b, None, f')
             /\ content f' = content f ++ b /\ reliable f' = true.
Proof.
  unfold reliable, File_Write. destruct (faults f) as [|[[k e]|] fl]; simpl.
  - intros _. eauto.
  - done.
  - intros Hfl. eauto.
Qed.

Lemma last_cons_cons {A} (x y : A) (l : list A) :
  last (x :: y :: l) = last (y :: l).
Proof. reflexivity. Qed.

(** On a clean body and a reliable destination the loop copies every byte
    and its last progress event counts them all. *)
Lemma copyLoop_clean (cap : N) (total : Z) (fuel : nat) :
  (0 < cap)%N ->
  forall (d : Z) (body : Body) (out : OsFile),
    clean body = true -> reliable out = true -> Body_size body < fuel ->
    exists out' evs,
      copyLoop cap fuel total d body out = (Returned None, out', evs)
      /\ content out' = content out ++ Body_bytes body
      /\ written evs = Z.of_nat (length (Body_bytes body))
      /\ last (mkRatio d total :: progress_of evs)
         = Some (mkRatio (d + Z.of_nat (length (Body_bytes body))) total)
      /\ (Body_bytes body <> [] -> progress_of evs <> []).
Proof.
  intros Hcap. induction fuel as [|fuel IH]; intros d body out Hclean Hrel Hfuel;
    [lia|].
  destruct body as [|[s e] rest].
  - exists out, [EvRead cap [] (Some EOF)]. simpl.
    rewrite app_nil_r, Z.add_0_r. by repeat split.
  - cbn [copyLoop Body_Read].
    destruct (Nat.leb_spec (length s) (N.to_nat cap)) as [Hfit|Hbig].
    + (* the segment fits the buffer *)
      destruct (0 <? length s)%nat eqn:Hlen.
      * destruct (File_Write_reliable out s Hrel) as (out1 & -> & Hc1 & Hr1).
        destruct e as [e|]; simpl in Hclean.
        -- apply andb_true_iff in Hclean as [-> Hrest].
           destruct rest; [|done].
           exists out1. eexists. split; [reflexivity|].
           unfold Body_bytes; simpl. rewrite app_nil_r.
           split; [done|]. split; [lia|]. split; [done|]. done.
        -- destruct (IH (d + Z.of_nat (length s))%Z rest out1 Hclean Hr1
                       ltac:(simpl in Hfuel; lia))
             as (out' & evs & -> & Hc & Hw & Hlast & Hne).
           exists out'. eexists. split; [reflexivity|].
           unfold Body_bytes in *; simpl. rewrite length_app, Hc, Hc1.
           split; [by rewrite app_assoc|].
           split; [rewrite Hw; lia|].
           split; [|done].
           try rewrite last_cons_cons. rewrite Hlast. do 2 f_equal. lia.
      * apply empty_length in Hlen as ->.
        destruct e as [e|]; simpl in Hclean.
        -- apply andb_true_iff in Hclean as [-> Hrest].
           destruct rest; [|done].
           exists out. eexists. split; [reflexivity|].
           unfold Body_bytes; simpl. rewrite app_nil_r, Z.add_0_r.
           by repeat split.
        -- destruct (IH d rest out Hclean Hrel ltac:(simpl in Hfuel; lia))
             as (out' & evs & -> & Hc & Hw & Hlast & Hne).
           exists out'. eexists. split; [reflexivity|].
           unfold Body_bytes in *; simpl. by repeat split.
    + (* the segment is longer than the buffer *)
      assert (length (take (N.to_nat cap) s) = N.to_nat cap) as Htake
        by (rewrite length_take; lia).
      assert ((0 <? length (take (N.to_nat cap) s))%nat = true) as ->
        by (apply Nat.ltb_lt; lia).
      destruct (File_Write_reliable out (take (N.to_nat cap) s) Hrel)
        as (out1 & -> & Hc1 & Hr1).
      destruct (IH (d + Z.of_nat (length (take (N.to_nat cap) s)))%Z
                  ((drop (N.to_nat cap) s, e) :: rest) out1)
        as (out' & evs & -> & Hc & Hw & Hlast & Hne).
      { simpl. by destruct e. }
      { done. }
      { simpl in *. rewrite length_drop. lia. }
      exists out'. eexists. split; [reflexivity|].
      assert (Body_bytes ((s, e) :: rest)
              = take (N.to_nat cap) s ++ Body_bytes ((drop (N.to_nat cap) s, e) :: rest))
        as Hbytes by (unfold Body_bytes; simpl; by rewrite app_assoc, take_drop).
      rewrite Hbytes, length_app, Hc, Hc1.
      split; [by rewrite app_assoc|].
      split; [simpl; rewrite Hw; lia|].
      split; [|done].
      simpl progress_of. try rewrite last_cons_cons. rewrite Hlast.
      do 2 f_equal. lia.
Qed.

(** C8: when the body delivers its N bytes, N > 0 is the declared length
    and no write fails, [Download] returns nil, appends exactly these N bytes
    to the destination, and its last progress event is N/N = 1.0. *)
Theorem Download_complete :
  forall (g : GoRepository) (dlFile : File) (outFile : OsFile) (resp : Response),
    NewRequest (client g) (download_url g dlFile) = None ->
    Do (client g) (download_url g dlFile) = inr resp ->
    clean (Resp_Body resp) = true ->
    reliable outFile = true ->
    ContentLength resp = Z.of_nat (length (Body_bytes (Resp_Body resp))) ->
    (0 < ContentLength resp)%Z ->
    exists out' evs,
      Download g dlFile outFile = (Returned None, out', evs)
      /\ content out' = content outFile ++ Body_bytes (Resp_Body resp)
      /\ written evs = ContentLength resp
      /\ last (progress_of evs)
         = Some (mkRatio (ContentLength resp) (ContentLength resp))
      /\ is_one (mkRatio (ContentLength resp) (ContentLength resp)).
Proof.
  intros g dlFile outFile resp Hreq Hdo Hclean Hrel Hlen Hpos.
  unfold Download. fold (download_url g dlFile). rewrite Hreq, Hdo.
  destruct (Z.eqb_spec (ContentLength resp) 0) as [?|_]; [lia|].
  destruct (copyLoop_clean bufSize (ContentLength resp)
              (S (Body_size (Resp_Body resp))) bufSize_pos 0
              (Resp_Body resp) outFile Hclean Hrel ltac:(lia))
    as (out' & evs & -> & Hc & Hw & Hlast & Hne).
  exists out'. eexists. split; [reflexivity|].
  split; [done|]. split; [simpl; lia|].
  split; [|split; simpl; lia].
  simpl progress_of.
  assert (progress_of evs <> []) as Hprog.
  { apply Hne. intros Hnil. rewrite Hnil in Hlen. simpl in Hlen. lia. }
  destruct (progress_of evs) as [|p ps]; [done|].
  rewrite last_cons_cons in Hlast. rewrite Hlast. do 2 f_equal. lia.
Qed.

Lemma Download_complete_witness :
  exists out' evs,
    Download (repo_of (inr response_abc)) file_go1_20_2 empty_file
    = (Returned None, out', evs)
    /\ content out' = content empty_file ++ Body_bytes (Resp_Body response_abc)
    /\ written evs = ContentLength response_abc
    /\ last (progress_of evs)
       = Some (mkRatio (ContentLength response_abc) (ContentLength response_abc))
    /\ is_one (mkRatio (ContentLength response_abc) (ContentLength response_abc)).
Proof.
  apply (Download_complete (repo_of (inr response_abc)) file_go1_20_2 empty_file
           response_abc); try reflexivity.
Defined.

(** C2 at its failing input: a response without Content-Length reaches the
    program as [ContentLength = -1]; the guard [total == 0] lets it pass, the
    body is copied and the progress fraction is 3 / -1. *)
Theorem Download_absent_length_not_rejected :
  Download (repo_of (inr response_no_length)) file_go1_20_2 empty_file
  = (Returned None,
     mkOsFile (bytes_of "abc") [],
     [EvRequest "https://go.dev/dl/go1.20.2.linux-amd64.tar.gz";
      EvRead bufSize (bytes_of "abc") None;
      EvWrite (bytes_of "abc") 3 None;
      EvProgress (mkRatio 3 (-1));
      EvRead bufSize [] (Some EOF)]).
Proof. vm_compute. reflexivity. Qed.

(** A declared length of zero is rejected before the body is touched: no
    read, no write, the destination as it was. *)
Theorem Download_zero_length :
  forall (g : GoRepository) (dlFile : File) (outFile : OsFile) (resp : Response),
    NewRequest (client g) (download_url g dlFile) = None ->
    Do (client g) (download_url g dlFile) = inr resp ->
    ContentLength resp = 0%Z ->
    Download g dlFile outFile
    = (Returned (Some errContentLength), outFile,
       [EvRequest (download_url g dlFile)]).
Proof.
  intros g dlFile outFile resp Hreq Hdo Hlen.
  unfold Download. fold (download_url g dlFile). by rewrite Hreq, Hdo, Hlen.
Qed.

Lemma Download_zero_length_witness :
  Download (repo_of (inr (mkResponse 0 []))) file_go1_20_2 empty_file
  = (Returned (Some errContentLength), empty_file,
     [EvRequest (download_url (repo_of (inr (mkResponse 0 []))) file_go1_20_2)]).
Proof.
  apply (Download_zero_length (repo_of (inr (mkResponse 0 []))) file_go1_20_2
           empty_file (mkResponse 0 [])); reflexivity.
Defined.

(** ** Install engine *)

Lemma countLoop_EOF (es : list Entry) (totalFiles : Z) :
  countLoop es EOF totalFiles = (Some (totalFiles + count_reg es)%Z, count_events es).
Proof.
  revert totalFiles. induction es as [|e es IH]; intros totalFiles.
  - simpl. unfold count_reg. simpl. by rewrite Z.add_0_r.
  - simpl. rewrite IH. unfold count_reg, count_events, isReg. simpl.
    destruct (Ascii.eqb (Typeflag (header e)) TypeReg); simpl;
      do 2 f_equal; lia.
Qed.

(** A stream that ends in an error other than [io.EOF] makes the counting
    loop dereference the nil header. *)
Lemma countLoop_error (es : list Entry) (tarEnd : error) (totalFiles : Z) :
  is_EOF tarEnd = false ->
  countLoop es tarEnd totalFiles = (None, count_events es).
Proof.
  intros Herr. revert totalFiles. induction es as [|e es IH]; intros totalFiles.
  - simpl. by rewrite Herr.
  - simpl. by rewrite IH.
Qed.

(** C9 at its failing input: on an archive whose tar stream breaks off,
    [tr.Next] returns a nil header with [io.ErrUnexpectedEOF]; the counting
    loop only tests for [io.EOF] and reads [header.Typeflag], which panics.
    The extraction loop, given the same stream, returns the error. *)
Theorem Decompress_counting_pass_panics :
  (Decompress usr_local truncated_archive ∅).1.1 = Panicked
  /\ (Decompress usr_local truncated_archive ∅).2
     = [EvMkdirAll usr_local; EvGzipHeader;
        EvNext (Some (header entry_go_dir));
        EvNext (Some (header entry_go_VERSION));
        EvNext None]
  /\ (extractLoop usr_local [] (tarEnd truncated_archive) 1 1 ∅).1.1
     = Returned (Some (Err "unexpected EOF")).
Proof. vm_compute. done. Qed.

(** Every archive whose tar stream ends in an error makes [Decompress]
    panic, whatever the destination. *)
Theorem Decompress_panics_on_broken_stream :
  forall (dst : path) (r : Archive) (fs fs1 : FS),
    os_MkdirAll fs dst 493 = inr fs1 ->
    gzipErr r = None ->
    is_EOF (tarEnd r) = false ->
    Decompress dst r fs
    = (Panicked, fs1, [EvMkdirAll dst; EvGzipHeader] ++ count_events (entries r)).
Proof.
  intros dst r fs fs1 Hmk Hgz Herr. unfold Decompress.
  by rewrite Hmk, Hgz, (countLoop_error _ _ _ Herr).
Qed.

Lemma Decompress_panics_on_broken_stream_witness :
  Decompress usr_local truncated_archive ∅
  = (Panicked, <[usr_local := Dir 493]> (<[["usr"] := Dir 493]> ∅),
     [EvMkdirAll usr_local; EvGzipHeader] ++ count_events (entries truncated_archive)).
Proof.
  apply (Decompress_panics_on_broken_stream usr_local truncated_archive ∅);
    reflexivity.
Defined.

Lemma TypeDir_not_TypeReg (c : ascii) :
  Ascii.eqb c TypeDir = true -> Ascii.eqb c TypeReg = false.
Proof. intros H. apply Ascii.eqb_eq in H as ->. reflexivity. Qed.

(** The body of the loop emits no progress and asks for no header; it adds
    one to [countFiles] exactly for a regular file. *)
Lemma extractEntry_spec (dst : path) (fs : FS) (e : Entry) (c : Z) :
  progress_of (extractEntry dst fs e c).2 = []
  /\ forallb (fun ev => negb (is_next ev)) (extractEntry dst fs e c).2 = true
  /\ forall c', (extractEntry dst fs e c).1.1 = inr c' ->
                c' = (c + count_reg [e])%Z.
Proof.
  unfold extractEntry, count_reg, isReg. simpl.
  destruct (Ascii.eqb (Typeflag (header e)) TypeDir) eqn:Hdir.
  - rewrite (TypeDir_not_TypeReg _ Hdir). simpl.
    destruct (os_Stat fs _); [destruct (os_MkdirAll fs _ _)|]; simpl;
      repeat split; try done; intros c' [= <-]; lia.
  - destruct (Ascii.eqb (Typeflag (header e)) TypeReg) eqn:Hreg; simpl.
    + destruct (os_OpenFile fs _ _); [|destruct (dataErr e)]; simpl;
        repeat split; try done; intros c' [= <-]; lia.
    + repeat split; try done. intros c' [= <-]. lia.
Qed.

Lemma progress_of_app (l1 l2 : list Event) :
  progress_of (l1 ++ l2) = progress_of l1 ++ progress_of l2.
Proof. unfold progress_of. apply omap_app. Qed.

Lemma count_reg_cons (e : Entry) (es : list Entry) :
  count_reg (e :: es) = (count_reg [e] + count_reg es)%Z.
Proof. unfold count_reg. simpl. destruct (isReg e); simpl; lia. Qed.

Lemma extractLoop_progress (dst : path) (es : list Entry) (tarEnd : error)
    (total c : Z) (fs : FS) :
  exists m, m <= length es
    /\ progress_of (extractLoop dst es tarEnd total c fs).2
       = progress_per_entry es c total m
    /\ ((extractLoop dst es tarEnd total c fs).1.1 = Returned None ->
        m = length es).
Proof.
  revert c fs. induction es as [|e es IH]; intros c fs.
  - exists 0. simpl. by destruct (is_EOF tarEnd).
  - simpl.
    pose proof (extractEntry_spec dst fs e c) as (Hnp & _ & Hc).
    destruct (extractEntry dst fs e c) as [[[err|c'] fs'] evs]; simpl in *.
    + exists 0. split; [lia|]. by split.
    + specialize (Hc c' eq_refl). subst c'.
      destruct (IH (c + count_reg [e])%Z fs') as (m & Hm & Hprog & Hres).
      destruct (extractLoop dst es tarEnd total _ fs') as [[res fs''] rest].
      simpl in *. exists (S m). split; [lia|]. split; [|intros H; by rewrite Hres].
      rewrite progress_of_app, Hnp. simpl. rewrite Hprog.
      unfold progress_per_entry. simpl. rewrite take_0. f_equal.
      rewrite <- (seq_shift m 1), map_map. apply map_ext. intros k. simpl.
      f_equal. rewrite (count_reg_cons e (take k es)). lia.
Qed.

Lemma extractLoop_starts_with_Next (dst : path) (es : list Entry) (tarEnd : error)
    (total c : Z) (fs : FS) :
  exists h tl, (extractLoop dst es tarEnd total c fs).2 = EvNext h :: tl.
Proof.
  destruct es as [|e es]; simpl.
  - destruct (is_EOF tarEnd); simpl; eauto.
  - destruct (extractEntry dst fs e c) as [[[err|c'] fs'] evs]; simpl; eauto.
    destruct (extractLoop dst es tarEnd total c' fs') as [[res fs''] rest].
    simpl. eauto.
Qed.

Lemma progress_position (l1 : list Event) (r0 : Ratio) (rest pre : list Event)
    (r : Ratio) (post : list Event) :
  progress_of l1 = [] ->
  l1 ++ EvProgress r0 :: rest = pre ++ EvProgress r :: post ->
  (pre = l1 /\ r = r0 /\ post = rest)
  \/ exists pre', pre = l1 ++ EvProgress r0 :: pre'
                  /\ rest = pre' ++ EvProgress r :: post.
Proof.
  revert pre. induction l1 as [|a l1 IH]; intros pre Hnp Heq; simpl in *.
  - destruct pre as [|b pre]; simpl in Heq; simplify_eq; [by left|].
    right. by exists pre.
  - destruct pre as [|b pre]; simpl in Heq; simplify_eq; try done.
    assert (progress_of l1 = []) as Hnp' by (by destruct b).
    match goal with
    | H : l1 ++ _ = pre ++ _ |- _ =>
        destruct (IH pre Hnp' H) as [(-> & -> & ->)|(pre' & -> & ->)]
    end; [by left|right; by exists pre'].
Qed.

Lemma no_progress_no_position (l pre : list Event) (r : Ratio) (post : list Event) :
  progress_of l = [] -> l <> pre ++ EvProgress r :: post.
Proof.
  intros Hnp ->. rewrite progress_of_app in Hnp. simpl in Hnp.
  by destruct (progress_of pre).
Qed.

(** In the extraction pass a progress event is the last event of its
    iteration: the next event is the next [tr.Next]. *)
Lemma extractLoop_progress_then_Next (dst : path) (es : list Entry) (tarEnd : error)
    (total c : Z) (fs : FS) :
  forall pre r post,
    (extractLoop dst es tarEnd total c fs).2 = pre ++ EvProgress r :: post ->
    exists h post', post = EvNext h :: post'.
Proof.
  revert c fs. induction es as [|e es IH]; intros c fs pre r post Heq.
  - exfalso. revert Heq. apply no_progress_no_position.
    simpl. by destruct (is_EOF tarEnd).
  - simpl in Heq.
    pose proof (extractEntry_spec dst fs e c) as (Hnp & _ & _).
    destruct (extractEntry dst fs e c) as [[[err|c'] fs'] evs]; simpl in *.
    + exfalso. revert Heq. by apply no_progress_no_position.
    + pose proof (extractLoop_starts_with_Next dst es tarEnd total c' fs')
        as (h & tl & Hstart).
      specialize (IH c' fs').
      destruct (extractLoop dst es tarEnd total c' fs') as [[res fs''] rest].
      simpl in *.
      change (EvNext (Some (header e)) :: evs ++ EvProgress (mkRatio c' total) :: rest)
        with ((EvNext (Some (header e)) :: evs) ++ EvProgress (mkRatio c' total) :: rest)
        in Heq.
      apply progress_position in Heq as [(_ & _ & ->)|(pre' & _ & Hrest)];
        [eauto|by eapply IH|done].
Qed.

(** C6, as stated, fails: the progress callback runs at the end of every
    iteration of the extraction loop, also after a directory entry. *)
Lemma progress_after_directory_entry :
  progress_of (Decompress usr_local small_archive ∅).2
  = [mkRatio 0 1; mkRatio 1 1]
  /\ ~ progress_only_after_copy (Decompress usr_local small_archive ∅).2.
Proof.
  split; [vm_compute; reflexivity|].
  intros H.
  destruct (H ([EvMkdirAll usr_local; EvGzipHeader;
                EvNext (Some (header entry_go_dir));
                EvNext (Some (header entry_go_VERSION));
                EvNext None; EvSeekStart; EvGzipHeader;
                EvNext (Some (header entry_go_dir));
                EvStat usr_local_go] ++ [EvMkdirAll usr_local_go])
              (mkRatio 0 1)
              [EvNext (Some (header entry_go_VERSION));
               EvOpenFile (usr_local_go ++ ["VERSION"]) 420;
               EvCopy (usr_local_go ++ ["VERSION"]) (bytes_of "go1.20.2");
               EvProgress (mkRatio 1 1); EvNext None])
    as (pre' & p & bytes & Hpre).
  - vm_compute. reflexivity.
  - apply app_inj_tail in Hpre as [_ Hlast]. discriminate Hlast.
Qed.

(** C6, amended: [Decompress] makes two passes over the archive: the
    first only asks for the headers and counts the regular files, then the
    source is rewound and the second pass extracts; at the end of every
    iteration of the second pass, whatever the type of the entry, the
    progress callback receives the regular files extracted so far over the
    total counted by the first pass. *)
Theorem Decompress_two_passes :
  forall (dst : path) (r : Archive) (fs fs1 : FS),
    os_MkdirAll fs dst 493 = inr fs1 ->
    gzipErr r = None ->
    tarEnd r = EOF ->
    seekErr r = None ->
    (Decompress dst r fs).1
    = (extractLoop dst (entries r) EOF (count_reg (entries r)) 0 fs1).1
    /\ two_pass dst (entries r) (Decompress dst r fs).1.1 (Decompress dst r fs).2.
Proof.
  intros dst r fs fs1 Hmk Hgz Hend Hseek.
  unfold Decompress. rewrite Hmk, Hgz, Hend, Hseek, countLoop_EOF, Z.add_0_l.
  pose proof (extractLoop_progress dst (entries r) EOF (count_reg (entries r)) 0 fs1)
    as Hprog.
  pose proof (extractLoop_progress_then_Next dst (entries r) EOF
                (count_reg (entries r)) 0 fs1) as Hpos.
  destruct (extractLoop dst (entries r) EOF (count_reg (entries r)) 0 fs1)
    as [[res fs2] evs2].
  simpl in *. split; [done|].
  exists evs2. split; [reflexivity|]. by split.
Qed.

Lemma Decompress_two_passes_witness :
  (Decompress usr_local small_archive ∅).1
  = (extractLoop usr_local (entries small_archive) EOF
       (count_reg (entries small_archive)) 0
       (<[usr_local := Dir 493]> (<[["usr"] := Dir 493]> ∅))).1
  /\ two_pass usr_local (entries small_archive)
       (Decompress usr_local small_archive ∅).1.1
       (Decompress usr_local small_archive ∅).2.
Proof.
  apply (Decompress_two_passes usr_local small_archive ∅); reflexivity.
Defined.

(** *** The file-system calls *)

Lemma MkdirAll_walk_existing (fs : FS) (todo : list string) (perm : Z) :
  forall pfx : path,
    (forall k, k < length todo ->
               exists x, fs !! (pfx ++ take (S k) todo) = Some (Dir x)) ->
    MkdirAll_walk fs pfx todo perm = inr fs.
Proof.
  induction todo as [|c todo IH]; intros pfx Hdirs; simpl; [done|].
  destruct (Hdirs 0 ltac:(simpl; lia)) as [x Hx]. simpl in Hx.
  rewrite take_0 in Hx. rewrite Hx.
  apply IH. intros k Hk.
  destruct (Hdirs (S k) ltac:(simpl; lia)) as [y Hy].
  exists y. rewrite <- Hy. by rewrite <- app_assoc.
Qed.

Lemma MkdirAll_walk_app (t1 t2 : list string) (perm : Z) :
  forall (fs : FS) (pfx : path),
    MkdirAll_walk fs pfx (t1 ++ t2) perm
    = match MkdirAll_walk fs pfx t1 perm with
      | inl e => inl e
      | inr fs' => MkdirAll_walk fs' (pfx ++ t1) t2 perm
      end.
Proof.
  induction t1 as [|c t1 IH]; intros fs pfx; simpl.
  - by rewrite app_nil_r.
  - destruct (fs !! (pfx ++ [c])) as [[x|x bytes]|]; [|done|];
      rewrite IH; by rewrite <- app_assoc.
Qed.

(** After a successful [MkdirAll] the whole chain of directories exists,
    and no directory was lost. *)
Lemma MkdirAll_walk_dirs (todo : list string) (perm : Z) :
  forall (fs fs' : FS) (pfx : path),
    MkdirAll_walk fs pfx todo perm = inr fs' ->
    (forall k, k < length todo ->
               exists x, fs' !! (pfx ++ take (S k) todo) = Some (Dir x))
    /\ (forall p x, fs !! p = Some (Dir x) -> fs' !! p = Some (Dir x)).
Proof.
  induction todo as [|c todo IH]; intros fs fs' pfx Hwalk; simpl in Hwalk.
  - injection Hwalk as <-. split; [simpl; lia|done].
  - destruct (fs !! (pfx ++ [c])) as [[x|x bytes]|] eqn:Hp; [|done|].
    + destruct (IH _ _ _ Hwalk) as [Hchain Hmono].
      split; [|done].
      intros [|k] Hk; simpl.
      * rewrite take_0. exists x. by apply Hmono.
      * destruct (Hchain k ltac:(simpl in Hk; lia)) as [y Hy].
        exists y. rewrite <- Hy. by rewrite <- app_assoc.
    + destruct (IH _ _ _ Hwalk) as [Hchain Hmono].
      split.
      * intros [|k] Hk; simpl.
        -- rewrite take_0. exists perm. apply Hmono. apply lookup_insert_eq.
        -- destruct (Hchain k ltac:(simpl in Hk; lia)) as [y Hy].
           exists y. rewrite <- Hy. by rewrite <- app_assoc.
      * intros p x Hx. apply Hmono.
        rewrite lookup_insert_ne; [done|]. intros <-. congruence.
Qed.

Lemma MkdirAll_dirs_to (fs fs' : FS) (p : path) (perm : Z) :
  os_MkdirAll fs p perm = inr fs' ->
  dirs_to fs' p /\ (forall q x, fs !! q = Some (Dir x) -> fs' !! q = Some (Dir x)).
Proof. intros H. by apply MkdirAll_walk_dirs in H. Qed.

Lemma child_split (t d : path) :
  is_child_of t d = true -> exists c, t = d ++ [c].
Proof.
  unfold is_child_of, parent. destruct t as [|a t]; [done|].
  intros H. apply bool_decide_eq_true in H as <-.
  exists (List.last (a :: t) a). by apply app_removelast_last.
Qed.

Lemma dirs_to_child (fs : FS) (d : path) (c : string) (perm : Z) :
  dirs_to fs d -> fs !! (d ++ [c]) = Some (Dir perm) -> dirs_to fs (d ++ [c]).
Proof.
  intros Hd Hc k Hk. rewrite length_app in Hk. simpl in Hk.
  destruct (decide (k < length d)) as [Hlt|Hge].
  - rewrite take_app_le by lia. by apply Hd.
  - rewrite take_ge by (rewrite length_app; simpl; lia). eauto.
Qed.

(** Creating a directory whose parent chain exists adds just that
    directory. *)
Lemma MkdirAll_new (fs : FS) (d : path) (c : string) (perm : Z) :
  dirs_to fs d -> fs !! (d ++ [c]) = None ->
  os_MkdirAll fs (d ++ [c]) perm = inr (<[d ++ [c] := Dir perm]> fs).
Proof.
  intros Hd Hnone. unfold os_MkdirAll.
  rewrite MkdirAll_walk_app, MkdirAll_walk_existing by exact Hd.
  simpl. by rewrite Hnone.
Qed.

Lemma dirs_to_is_dir (fs : FS) (d : path) : dirs_to fs d -> is_dir fs d = true.
Proof.
  intros Hd. unfold is_dir, os_Stat.
  destruct (decide (d = [])) as [->|Hne]; [done|].
  destruct (Hd (Nat.pred (length d))) as [x Hx]; [destruct d; simpl; [done|lia]|].
  rewrite take_ge in Hx by (destruct d; simpl; [done|lia]).
  rewrite Hx. by destruct d.
Qed.

Lemma dirs_to_insert (fs : FS) (d t : path) (n : node) :
  fs !! t = None -> dirs_to fs d -> dirs_to (<[t := n]> fs) d.
Proof.
  intros Hnone Hd k Hk. destruct (Hd k Hk) as [x Hx]. exists x.
  rewrite lookup_insert_ne; [done|]. intros Heq. rewrite <- Heq in Hx.
  congruence.
Qed.

Lemma os_Stat_child (fs : FS) (d : path) (c : string) :
  os_Stat fs (d ++ [c])
  = match fs !! (d ++ [c]) with Some n => inr n | None => inl ENOENT end.
Proof. unfold os_Stat. by destruct d. Qed.

Lemma os_OpenFile_new (fs : FS) (d : path) (c : string) (perm : Z) :
  dirs_to fs d -> fs !! (d ++ [c]) = None ->
  os_OpenFile fs (d ++ [c]) perm = inr (<[d ++ [c] := Reg perm []]> fs).
Proof.
  intros Hd Hnone. unfold os_OpenFile, parent.
  rewrite Hnone, removelast_last, (dirs_to_is_dir _ _ Hd).
  by destruct d.
Qed.

(** *** One entry *)

(** What the body of the extraction loop does for an entry that lies
    directly in an existing directory [d] and has nothing in its way. *)
Lemma extractEntry_installs (dst : path) (fs : FS) (e : Entry) (c : Z) (d : path) :
  plain_entry e = true ->
  fresh_for fs dst e = true ->
  is_child_of (target_of dst e) d = true ->
  dirs_to fs d ->
  exists fs1 evs,
    extractEntry dst fs e c = (inr (c + count_reg [e])%Z, fs1, evs)
    /\ (isReg e = true ->
        fs1 !! target_of dst e = Some (Reg (Mode (header e)) (data e)))
    /\ (isDirEntry e = true ->
        dirs_to fs1 (target_of dst e)
        /\ exists perm, fs1 !! target_of dst e = Some (Dir perm))
    /\ (forall p, p <> target_of dst e -> fs1 !! p = fs !! p)
    /\ (forall p x, fs !! p = Some (Dir x) -> fs1 !! p = Some (Dir x)).
Proof.
  intros Hplain Hfresh Hchild Hd.
  apply child_split in Hchild as [name Ht].
  unfold plain_entry in Hplain. apply andb_true_iff in Hplain as [Hkind Hdata].
  destruct (dataErr e) as [?|] eqn:HdataErr; [done|]. clear Hdata.
  unfold fresh_for in Hfresh.
  unfold extractEntry, count_reg. simpl.
  fold (target_of dst e). fold (isReg e).
  unfold isReg, isDirEntry in *.
  destruct (Ascii.eqb (Typeflag (header e)) TypeDir) eqn:Hdir.
  - (* a directory entry *)
    rewrite (TypeDir_not_TypeReg _ Hdir). simpl.
    rewrite Ht, os_Stat_child. rewrite Ht in Hfresh.
    destruct (fs !! (d ++ [name])) as [[perm|perm bytes]|] eqn:Hlook; [| done |].
    + exists fs. eexists. split; [by rewrite Z.add_0_r|].
      split; [done|]. split; [|done].
      intros _. split; [by eapply dirs_to_child|eauto].
    + rewrite (MkdirAll_new _ _ _ _ Hd Hlook).
      exists (<[d ++ [name] := Dir 493]> fs). eexists.
      split; [by rewrite Z.add_0_r|].
      split; [done|].
      split; [intros _; split|split].
      * apply dirs_to_child with (perm := 493%Z);
          [by apply dirs_to_insert|apply lookup_insert_eq].
      * exists 493%Z. apply lookup_insert_eq.
      * intros p Hp. by rewrite lookup_insert_ne.
      * intros p x Hx. rewrite lookup_insert_ne; [done|]. intros <-. congruence.
  - (* a regular file *)
    rewrite orb_false_r in Hkind. rewrite Hkind. simpl.
    rewrite Ht. rewrite Ht in Hfresh.
    destruct (fs !! (d ++ [name])) as [[perm|perm bytes]|] eqn:Hlook; [done|done|].
    rewrite (os_OpenFile_new _ _ _ _ Hd Hlook).
    unfold write_data. rewrite lookup_insert_eq, insert_insert_eq. simpl.
    rewrite HdataErr.
    exists (<[d ++ [name] := Reg (Mode (header e)) (data e)]> fs). eexists.
    split; [done|].
    split; [intros _; apply lookup_insert_eq|].
    split; [done|]. split.
    + intros p Hp. by rewrite lookup_insert_ne.
    + intros p x Hx. rewrite lookup_insert_ne; [done|]. intros <-. congruence.
Qed.

Lemma dirs_to_mono (fs fs' : FS) (d : path) :
  (forall p x, fs !! p = Some (Dir x) -> fs' !! p = Some (Dir x)) ->
  dirs_to fs d -> dirs_to fs' d.
Proof. intros Hmono Hd k Hk. destruct (Hd k Hk) as [x Hx]. eauto. Qed.

Lemma fresh_for_unchanged (fs fs' : FS) (dst : path) (e : Entry) :
  fs' !! target_of dst e = fs !! target_of dst e ->
  fresh_for fs' dst e = fresh_for fs dst e.
Proof. unfold fresh_for. by intros ->. Qed.

Lemma forallb_ext_In {A} (f g : A -> bool) (l : list A) :
  (forall x, In x l -> f x = g x) -> forallb f l = forallb g l.
Proof.
  induction l as [|a l IH]; intros Hext; simpl; [done|].
  rewrite (Hext a (or_introl eq_refl)), IH; [done|].
  intros x Hx. apply Hext. by right.
Qed.

(** *** The extraction loop on a well-formed archive *)

Lemma extractLoop_installs (dst : path) (total : Z) (es : list Entry) :
  forall (avail : list path) (fs : FS) (c : Z),
    forallb plain_entry es = true ->
    NoDup (map (target_of dst) es) ->
    forallb (fresh_for fs dst) es = true ->
    parents_first avail dst es = true ->
    (forall d, In d avail -> dirs_to fs d) ->
    exists fs' evs,
      extractLoop dst es EOF total c fs = (Returned None, fs', evs)
      /\ (forall e, In e es -> isReg e = true ->
            fs' !! target_of dst e = Some (Reg (Mode (header e)) (data e)))
      /\ (forall e, In e es -> isDirEntry e = true ->
            exists perm, fs' !! target_of dst e = Some (Dir perm))
      /\ (forall p, ~ In p (map (target_of dst) es) -> fs' !! p = fs !! p)
      /\ (forall p x, fs !! p = Some (Dir x) -> fs' !! p = Some (Dir x)).
Proof.
  induction es as [|e es IH]; intros avail fs c Hplain Hnodup Hfresh Hparents Havail.
  - exists fs. eexists. simpl. split; [done|]. by repeat split.
  - simpl in Hplain, Hfresh, Hparents.
    apply andb_true_iff in Hplain as [Hplain_e Hplain].
    apply andb_true_iff in Hfresh as [Hfresh_e Hfresh].
    apply andb_true_iff in Hparents as [Hchild Hparents].
    apply existsb_exists in Hchild as (d & Hd_in & Hchild).
    simpl in Hnodup. apply NoDup_cons in Hnodup as [Hnotin Hnodup].
    rewrite list_elem_of_In in Hnotin.
    destruct (extractEntry_installs dst fs e c d Hplain_e Hfresh_e Hchild
                (Havail d Hd_in))
      as (fs1 & evs1 & Hstep & Hreg1 & Hdir1 & Hframe1 & Hmono1).
    destruct (IH (if isDirEntry e then target_of dst e :: avail else avail)
                fs1 (c + count_reg [e])%Z Hplain Hnodup)
      as (fs' & evs & Hloop & Hreg & Hdir & Hframe & Hmono).
    { rewrite <- Hfresh. apply forallb_ext_In. intros e' Hin.
      apply fresh_for_unchanged, Hframe1. intros Heq. apply Hnotin.
      rewrite <- Heq. by apply in_map. }
    { exact Hparents. }
    { intros d' Hd'. destruct (isDirEntry e) eqn:Hkind.
      - destruct Hd' as [<-|Hd']; [by apply Hdir1|].
        eapply dirs_to_mono; [exact Hmono1|by apply Havail].
      - eapply dirs_to_mono; [exact Hmono1|by apply Havail]. }
    exists fs'. eexists. split.
    { cbn [extractLoop]. rewrite Hstep, Hloop. reflexivity. }
    split; [|split; [|split]].
    + intros e' [<-|Hin] Hk; [|by apply Hreg].
      rewrite (Hframe _ Hnotin). by apply Hreg1.
    + intros e' [<-|Hin] Hk; [|by apply Hdir].
      destruct (Hdir1 Hk) as [_ [perm Hperm]].
      exists perm. by rewrite (Hframe _ Hnotin).
    + intros p Hp. simpl in Hp.
      rewrite Hframe by tauto. apply Hframe1. intros ->. tauto.
    + intros p x Hx. by apply Hmono, Hmono1.
Qed.

Lemma progress_of_count_events (es : list Entry) :
  progress_of (count_events es) = [].
Proof.
  unfold count_events. rewrite progress_of_app. simpl. rewrite app_nil_r.
  induction es as [|e es IH]; simpl; done.
Qed.

Lemma last_progress_per_entry (es : list Entry) (c total : Z) (m : nat) :
  last (progress_per_entry es c total (S m))
  = Some (mkRatio (c + count_reg (take (S m) es)) total).
Proof.
  unfold progress_per_entry. rewrite seq_S, map_app. simpl.
  by rewrite last_snoc.
Qed.

(** C7 at its failing input: a regular file is opened with [os.OpenFile],
    which does not create missing directories, while the directory case of
    the same switch calls [os.MkdirAll]; an archive that holds [go/bin/go]
    without an entry for [go/bin] ends in ENOENT and the file is not
    extracted. *)
Lemma file_without_directory_entry_fails :
  (Decompress usr_local archive_without_bin ∅).1.1 = Returned (Some ENOENT)
  /\ (Decompress usr_local archive_without_bin ∅).1.2
       !! target_of usr_local entry_go_bin_go = None
  /\ ~ installs_all usr_local archive_without_bin ∅.
Proof.
  assert ((Decompress usr_local archive_without_bin ∅).1.1 = Returned (Some ENOENT))
    as Hres by (vm_compute; reflexivity).
  split; [exact Hres|]. split; [vm_compute; reflexivity|].
  intros [Hok _]. rewrite Hres in Hok. discriminate Hok.
Qed.

(** What [Decompress] does achieve: for an archive of directory and
    regular-file entries with distinct paths and at least one regular file,
    in which every entry lies directly in the destination root or in the
    directory of an earlier directory entry, and with nothing in the way at
    the destination, [Decompress] returns nil, every regular file is at its
    path under the root with the bytes and the mode of its entry, every
    directory exists (a directory that was there already is kept), every
    other path is as it was, and the last progress fraction is n/n = 1.0. *)
Theorem Decompress_installs :
  forall (dst : path) (r : Archive) (fs fs1 : FS),
    os_MkdirAll fs dst 493 = inr fs1 ->
    gzipErr r = None ->
    tarEnd r = EOF ->
    seekErr r = None ->
    forallb plain_entry (entries r) = true ->
    NoDup (map (target_of dst) (entries r)) ->
    forallb (fresh_for fs1 dst) (entries r) = true ->
    parents_first [dst] dst (entries r) = true ->
    (0 < count_reg (entries r))%Z ->
    exists fs' evs,
      Decompress dst r fs = (Returned None, fs', evs)
      /\ (forall e, In e (entries r) -> isReg e = true ->
            fs' !! target_of dst e = Some (Reg (Mode (header e)) (data e)))
      /\ (forall e, In e (entries r) -> isDirEntry e = true ->
            exists perm, fs' !! target_of dst e = Some (Dir perm))
      /\ (forall p, ~ In p (map (target_of dst) (entries r)) -> fs' !! p = fs1 !! p)
      /\ last (progress_of evs)
         = Some (mkRatio (count_reg (entries r)) (count_reg (entries r)))
      /\ is_one (mkRatio (count_reg (entries r)) (count_reg (entries r))).
Proof.
  intros dst r fs fs1 Hmk Hgz Hend Hseek Hplain Hnodup Hfresh Hparents Hpos.
  destruct (MkdirAll_dirs_to _ _ _ _ Hmk) as [Hdst _].
  destruct (extractLoop_installs dst (count_reg (entries r)) (entries r)
              [dst] fs1 0 Hplain Hnodup Hfresh Hparents)
    as (fs' & evs2 & Hloop & Hreg & Hdir & Hframe & _).
  { intros d [<-|[]]. exact Hdst. }
  destruct (extractLoop_progress dst (entries r) EOF (count_reg (entries r)) 0 fs1)
    as (m & _ & Hprog & Hm).
  rewrite Hloop in Hprog, Hm. simpl in Hprog, Hm.
  specialize (Hm eq_refl). subst m.
  exists fs'. eexists. split.
  { unfold Decompress.
    rewrite Hmk, Hgz, Hend, Hseek, countLoop_EOF, Z.add_0_l, Hloop.
    reflexivity. }
  split; [done|]. split; [done|]. split; [done|].
  split; [|split; simpl; lia].
  rewrite !progress_of_app, progress_of_count_events. simpl. rewrite Hprog.
  destruct (entries r) as [|e es] eqn:Hes; [by vm_compute in Hpos|].
  cbn [length]. rewrite last_progress_per_entry.
  rewrite take_ge by (simpl; lia). by rewrite Z.add_0_l.
Qed.

Lemma Decompress_installs_witness :
  exists fs' evs,
    Decompress usr_local small_archive ∅ = (Returned None, fs', evs)
    /\ (forall e, In e (entries small_archive) -> isReg e = true ->
          fs' !! target_of usr_local e = Some (Reg (Mode (header e)) (data e)))
    /\ (forall e, In e (entries small_archive) -> isDirEntry e = true ->
          exists perm, fs' !! target_of usr_local e = Some (Dir perm))
    /\ (forall p, ~ In p (map (target_of usr_local) (entries small_archive)) ->
          fs' !! p = (<[usr_local := Dir 493]> (<[["usr"] := Dir 493]> ∅) : FS) !! p)
    /\ last (progress_of evs)
       = Some (mkRatio (count_reg (entries small_archive))
                 (count_reg (entries small_archive)))
    /\ is_one (mkRatio (count_reg (entries small_archive))
                 (count_reg (entries small_archive))).
Proof.
  apply (Decompress_installs usr_local small_archive ∅); try reflexivity.
  apply (bool_decide_unpack _). vm_compute. exact I.
Defined.

(** ** Orchestrator *)

(** C3 at its failing input: the transfer fails, [downloadCmd] returns
    [errMsg], and the sequence started by the enter key goes on: it posts
    [statusMsg(Extracting)] and runs [extractCmd].  [Update] sets the status
    to [Extracting] although the error is recorded, and [extractCmd] has
    removed the installed toolchain before [Decompress] fails. *)
Theorem Extracting_entered_after_failed_transfer :
  (Update offline_model (KeyMsg "enter")).2
  = tea_Sequence [statusCmd Downloading; downloadCmd_of_model;
                  statusCmd Extracting; extractCmd_of_model]
  /\ choice offline_model_chosen = "go1.20.2"
  /\ (enterSequence offline_model_chosen installed_world).1
     = [statusMsg Downloading; errMsg errConnReset;
        statusMsg Extracting; errMsg EOF]
  /\ map (fun m => (status m, err m))
       (loop_states offline_model_chosen
          [statusMsg Downloading; errMsg errConnReset; statusMsg Extracting])
     = [(Choosing, None); (Downloading, None);
        (Downloading, Some errConnReset); (Extracting, Some errConnReset)]
  /\ installed_fs !! (usr_local_go ++ ["VERSION"])
     = Some (Reg 420 (bytes_of "go1.19.7"))
  /\ (enterSequence offline_model_chosen installed_world).2
       !! (usr_local_go ++ ["VERSION"]) = None.
Proof. vm_compute. done. Qed.

(** Once an error is recorded only another [errMsg] replaces it, and the
    view is the error text whatever the status becomes. *)
Theorem error_view_persists :
  forall (m : model) (msg : Msg) (e : error),
    err m = Some e ->
    (forall e', msg <> errMsg e') ->
    err (Update m msg).1 = Some e /\ View (Update m msg).1 = ErrorView e.
Proof.
  intros m msg e He Hmsg.
  assert (err (Update m msg).1 = Some e) as Herr.
  { destruct msg; simpl; try done.
    - destruct (String.eqb key "ctrl+c"); [done|].
      destruct (String.eqb key "enter").
      + by destruct (list_SelectedItem (mlist m)).
      + by repeat (destruct (String.eqb key _)).
    - by destruct (Hmsg err0). }
  split; [done|]. unfold View. by rewrite Herr.
Qed.

Lemma error_view_persists_witness :
  err (Update (set_err offline_model errConnReset) (statusMsg Extracting)).1
  = Some errConnReset
  /\ View (Update (set_err offline_model errConnReset) (statusMsg Extracting)).1
     = ErrorView errConnReset.
Proof.
  apply (error_view_persists (set_err offline_model errConnReset)
           (statusMsg Extracting) errConnReset); [reflexivity|].
  intros e' H. discriminate H.
Defined.

(** * Further properties *)

(** ** [Files.Filter] *)

Lemma matches_app (s1 s2 : list (File -> bool)) (v : File) :
  matches (s1 ++ s2) v = matches s1 v && matches s2 v.
Proof. unfold matches. apply forallb_app. Qed.

Lemma filter_twice {A} (f g : A -> bool) (l : list A) :
  List.filter g (List.filter f l) = List.filter (fun x => f x && g x) l.
Proof.
  induction l as [|x l IH]; simpl; [done|].
  destruct (f x); simpl; [|done]. destruct (g x); by rewrite IH.
Qed.

(** Filtering in two steps is filtering by all predicates at once, and
    filtering again by the same predicates changes nothing. *)
Theorem Filter_compose :
  forall (files : Files) (s1 s2 : list (File -> bool)),
    Filter (Filter files s1) s2 = Filter files (s1 ++ s2)
    /\ Filter (Filter files s1) s1 = Filter files s1.
Proof.
  intros files s1 s2. rewrite !Filter_filter, !filter_twice. split.
  - apply filter_ext. intros v. by rewrite matches_app.
  - apply filter_ext. intros v. by destruct (matches s1 v).
Qed.

Lemma matches_Permutation (s1 s2 : list (File -> bool)) (v : File) :
  Permutation s1 s2 -> matches s1 v = matches s2 v.
Proof.
  unfold matches. induction 1; simpl.
  - done.
  - by rewrite IHPermutation.
  - by rewrite !andb_assoc, (andb_comm (y v)).
  - congruence.
Qed.

(** The order in which the predicates are given does not matter. *)
Theorem Filter_specs_order :
  forall (files : Files) (s1 s2 : list (File -> bool)),
    Permutation s1 s2 -> Filter files s1 = Filter files s2.
Proof.
  intros files s1 s2 Hperm. rewrite !Filter_filter.
  apply filter_ext. intros v. by apply matches_Permutation.
Qed.

Lemma Filter_specs_order_witness :
  Filter [file_go1_20_2; file_windows] [isLinux; isAmd64]
  = Filter [file_go1_20_2; file_windows] [isAmd64; isLinux].
Proof.
  apply (Filter_specs_order [file_go1_20_2; file_windows] [isLinux; isAmd64]
           [isAmd64; isLinux]).
  apply perm_swap.
Defined.

(** ** The selection loop of [downloadCmd] *)

Lemma Filter_head_exists (files : Files) (specs : list (File -> bool)) :
  existsb (matches specs) files = true
  <-> exists f, List.find (matches specs) files = Some f.
Proof.
  induction files as [|v files IH]; simpl.
  - split; [done|by intros [f ?]].
  - destruct (matches specs v); simpl; [split; eauto|exact IH].
Qed.

(** The loop has no [break]: from any starting [dlf], the result is the
    first match of the last release that carries the version and has a
    match. *)
Lemma selectFile_last_from (choice : string) (vs : list Release) (acc : File) :
  fold_left
    (fun dlf v =>
       if String.eqb choice (Release_Version v) then
         match Filter (Release_Files v) platformSpecs with
         | l0 :: _ => l0
         | [] => dlf
         end
       else dlf)
    vs acc
  = match last (List.filter (has_platform_file choice) vs) with
    | Some v => default acc (List.find (matches platformSpecs) (Release_Files v))
    | None => acc
    end.
Proof.
  revert acc. induction vs as [|v vs IH]; intros acc; simpl; [done|].
  rewrite IH, Filter_filter. unfold has_platform_file at 2.
  pose proof (head_filter_find (matches platformSpecs) (Release_Files v)) as Hhead.
  pose proof (Filter_head_exists (Release_Files v) platformSpecs) as Hex.
  destruct (String.eqb choice (Release_Version v)); simpl; [|done].
  destruct (List.filter (matches platformSpecs) (Release_Files v)) as [|l0 l];
    simpl in Hhead.
  - assert (existsb (matches platformSpecs) (Release_Files v) = false) as ->.
    { destruct (existsb _ _); [|done].
      destruct Hex as [[f Hf'] _]; [done|congruence]. }
    done.
  - assert (existsb (matches platformSpecs) (Release_Files v) = true) as ->
      by (apply Hex; eauto).
    destruct (List.filter (has_platform_file choice) vs) as [|v' vs'] eqn:Hrest.
    + simpl. by rewrite <- Hhead.
    + change (last (v :: v' :: vs')) with (last (v' :: vs')).
      destruct (last (v' :: vs')) as [w|] eqn:Hlast; [|by rewrite last_None in Hlast].
      assert (In w (List.filter (has_platform_file choice) vs)) as Hw.
      { rewrite Hrest. apply list_elem_of_In. by apply last_Some_elem_of. }
      apply filter_In in Hw as [_ Hw]. unfold has_platform_file in Hw.
      apply andb_true_iff in Hw as [_ Hw].
      apply Filter_head_exists in Hw as [f ->]. done.
Qed.

(** Without any assumption on the catalog: [downloadCmd] transfers the
    first linux/amd64 file of the last release that carries the chosen
    version and has such a file; it reports "no match" exactly when no
    release does, and then does nothing else. *)
Theorem selectFile_last_release :
  forall (m : model) (w : World),
    match last (List.filter (has_platform_file (choice m)) (versions m)) with
    | Some v =>
        exists f,
          List.find (matches platformSpecs) (Release_Files v) = Some f
          /\ selectFile (versions m) (choice m) = f
          /\ f <> File_zero
          /\ exists evs, (downloadCmd m w).2 = EvCreateTemp :: evs
    | None =>
        selectFile (versions m) (choice m) = File_zero
        /\ downloadCmd m w = (Some (errMsg errNoMatch), m, [])
    end.
Proof.
  intros m w.
  pose proof (selectFile_last_from (choice m) (versions m) File_zero) as Hsel.
  change (fold_left _ (versions m) File_zero)
    with (selectFile (versions m) (choice m)) in Hsel.
  destruct (last (List.filter (has_platform_file (choice m)) (versions m)))
    as [v|] eqn:Hlast.
  - assert (In v (List.filter (has_platform_file (choice m)) (versions m))) as Hv
      by (apply list_elem_of_In; by apply last_Some_elem_of).
    apply filter_In in Hv as [_ Hv]. unfold has_platform_file in Hv.
    apply andb_true_iff in Hv as [_ Hv].
    apply Filter_head_exists in Hv as [f Hf].
    rewrite Hf in Hsel. simpl in Hsel.
    exists f. split; [done|]. split; [done|].
    apply find_some in Hf as [_ Hm].
    pose proof (platform_match_nonzero f Hm) as Hnz. split; [done|].
    unfold downloadCmd. rewrite Hsel.
    destruct (decide (f = File_zero)) as [?|_]; [done|].
    destruct (createTemp w) as [e|tmp]; [by eexists|].
    destruct (Download (repo m) f tmp) as [[res f'] evs].
    destruct res as [[e|]| |]; by eexists.
  - split; [done|]. unfold downloadCmd. rewrite Hsel.
    by destruct (decide (File_zero = File_zero)).
Qed.

Example selectFile_duplicated_version :
  selectFile duplicated_catalog "go1.20.2" = file_go1_20_2_rebuilt.
Proof. reflexivity. Qed.

(** ** [ByRelease]: [Less] and [Swap] *)

Lemma Compare_gt_trans (x y z : string) :
  version.Compare x y = 1%Z -> version.Compare y z = 1%Z ->
  version.Compare x z = 1%Z.
Proof. rewrite !Compare_key. apply key_cmp_total. Qed.

Lemma release_less_true (x y : Release) :
  release_less x y = true
  <-> version.Compare (Release_Version x) (Release_Version y) = 1%Z.
Proof.
  unfold release_less. rewrite Z.ltb_lt.
  destruct (Compare_range (Release_Version x) (Release_Version y))
    as [H|[H|H]]; rewrite H; lia.
Qed.

(** [Less] is a strict weak ordering, which is what package sort asks of
    a [sort.Interface]: nothing is less than itself or than something less
    than it, and both "less" and "not less" are transitive. *)
Theorem Less_strict_weak_order :
  forall x y z : Release,
    release_less x x = false
    /\ (release_less x y = true -> release_less y x = false)
    /\ (release_less x y = true -> release_less y z = true ->
        release_less x z = true)
    /\ (release_less x y = false -> release_less y z = false ->
        release_less x z = false).
Proof.
  intros x y z. refine (conj _ (conj _ (conj _ _))).
  - unfold release_less. by rewrite Compare_refl.
  - intros H. apply release_less_true in H.
    unfold release_less. rewrite (Compare_anti (Release_Version x)), H. done.
  - rewrite !release_less_true. apply Compare_gt_trans.
  - rewrite !release_less_false. unfold version_ge. intros H1 H2.
    by eapply Compare_ge_trans.
Qed.

(** [Less] and [Swap] panic exactly on an index out of range. *)
Lemma index_panics (a : ByRelease) (i j : nat) :
  (ByRelease_Less a i j = None <-> ~ (i < length a /\ j < length a))
  /\ (ByRelease_Swap a i j = None <-> ~ (i < length a /\ j < length a)).
Proof.
  unfold ByRelease_Less, ByRelease_Swap.
  destruct (a !! i) as [x|] eqn:Hi; destruct (a !! j) as [y|] eqn:Hj;
    try apply lookup_lt_Some in Hi; try apply lookup_lt_Some in Hj;
    try apply lookup_ge_None in Hi; try apply lookup_ge_None in Hj;
    split; split; try done; try lia; intros H; exfalso; lia.
Qed.

(** A swap inside the slice exchanges the two elements, leaves the others
    and the length alone, and is undone by the same swap. *)
Theorem Swap_exchanges :
  forall (a : ByRelease) (i j : nat),
    i < length a -> j < length a ->
    exists a',
      ByRelease_Swap a i j = Some a'
      /\ length a' = length a
      /\ a' !! i = a !! j
      /\ a' !! j = a !! i
      /\ (forall k, k <> i -> k <> j -> a' !! k = a !! k)
      /\ ByRelease_Swap a' i j = Some a.
Proof.
  intros a i j Hi Hj. unfold ByRelease_Swap, ByRelease in *.
  destruct (lookup_lt_is_Some_2 a i Hi) as [x Hx].
  destruct (lookup_lt_is_Some_2 a j Hj) as [y Hy].
  rewrite Hx, Hy. eexists. split; [reflexivity|].
  assert (<[j:=x]> (<[i:=y]> a) !! i = Some y) as Hi'.
  { destruct (decide (i = j)) as [->|Hne].
    - rewrite list_lookup_insert_eq by (by rewrite length_insert). congruence.
    - rewrite list_lookup_insert_ne by done. by rewrite list_lookup_insert_eq. }
  assert (<[j:=x]> (<[i:=y]> a) !! j = Some x) as Hj'
    by (rewrite list_lookup_insert_eq by (by rewrite length_insert); done).
  split; [by rewrite !length_insert|].
  split; [exact Hi'|]. split; [exact Hj'|]. split.
  - intros k Hki Hkj. by rewrite !list_lookup_insert_ne.
  - rewrite Hi', Hj'. f_equal. apply list_eq. intros k.
    destruct (decide (k = j)) as [->|Hkj].
    + rewrite list_lookup_insert_eq by (by rewrite !length_insert). done.
    + rewrite list_lookup_insert_ne by done.
      destruct (decide (k = i)) as [->|Hki].
      * rewrite list_lookup_insert_eq by (by rewrite !length_insert). done.
      * by rewrite !list_lookup_insert_ne.
Qed.

Lemma Swap_exchanges_witness :
  exists a',
    ByRelease_Swap sorted_releases 0 3 = Some a'
    /\ length a' = length sorted_releases
    /\ a' !! 0 = sorted_releases !! 3
    /\ a' !! 3 = sorted_releases !! 0
    /\ (forall k, k <> 0 -> k <> 3 -> a' !! k = sorted_releases !! k)
    /\ ByRelease_Swap a' 0 3 = Some sorted_releases.
Proof.
  apply (Swap_exchanges sorted_releases 0 3); simpl; lia.
Defined.

(** ** [Download]: what reaches the destination *)

Lemma written_app (l1 l2 : list Event) :
  written (l1 ++ l2) = (written l1 + written l2)%Z.
Proof.
  induction l1 as [|ev l1 IH]; simpl; [done|].
  destruct ev; rewrite ?IH; lia.
Qed.

Lemma written_nonneg (l : list Event) : (0 <= written l)%Z.
Proof. induction l as [|ev l IH]; simpl; [done|]. destruct ev; lia. Qed.

(** Whatever fails, the loop has appended a prefix of the body to the
    destination, and the writes it logged account for exactly that
    prefix. *)
Lemma copyLoop_prefix (cap : N) (total : Z) (fuel : nat) :
  (0 < cap)%N ->
  forall (d : Z) (body : Body) (out : OsFile),
    Body_size body < fuel ->
    exists n,
      n <= length (Body_bytes body)
      /\ content (copyLoop cap fuel total d body out).1.2
         = content out ++ take n (Body_bytes body)
      /\ written (copyLoop cap fuel total d body out).2 = Z.of_nat n.
Proof.
  intros Hcap. induction fuel as [|fuel IH]; intros d body out Hfuel; [lia|].
  simpl.
  pose proof (Body_Read_spec (N.to_nat cap) body ltac:(lia)) as Hread.
  destruct (Body_Read (N.to_nat cap) body) as [[chunk errRead] body'].
  destruct (0 <? length chunk)%nat eqn:Hlen.
  - apply nonempty_length in Hlen.
    destruct Hread as [(_ & Hsize & Hbytes)|(_ & -> & _)]; [|done].
    pose proof (File_Write_spec out chunk) as Hwrite.
    destruct (File_Write out chunk) as [[nw errWrite] out'].
    destruct Hwrite as (Hnw & Hcontent & Hfull).
    destruct errWrite as [e|]; simpl.
    + exists nw. rewrite Hbytes, length_app. split; [lia|].
      rewrite take_app_le by lia. split; [done|lia].
    + rewrite (Hfull eq_refl) in *. rewrite firstn_all in Hcontent.
      destruct errRead as [e|].
      * exists (length chunk). rewrite Hbytes, length_app. split; [lia|].
        rewrite take_app_length.
        destruct (is_EOF e); simpl; (split; [done|lia]).
      * destruct (IH (d + Z.of_nat (length chunk))%Z body' out'
                    ltac:(specialize (Hsize eq_refl); lia))
          as (n & Hn & Hc & Hw).
        destruct (copyLoop cap fuel total _ body' out') as [[r f] rest].
        simpl in *. exists (length chunk + n).
        rewrite Hbytes, length_app. split; [lia|].
        rewrite take_app_add, Hc, Hcontent, <- app_assoc. split; [done|lia].
  - apply empty_length in Hlen as ->.
    destruct errRead as [e|].
    + exists 0. rewrite take_0, app_nil_r.
      destruct (is_EOF e); simpl; (split; [lia|done]).
    + destruct Hread as [(_ & Hsize & Hbytes)|(_ & _ & ?)]; [|done].
      destruct (IH d body' out ltac:(specialize (Hsize eq_refl); lia))
        as (n & Hn & Hc & Hw).
      destruct (copyLoop cap fuel total d body' out) as [[r f] rest].
      simpl in *. exists n. rewrite Hbytes. simpl. done.
Qed.

(** For every repository, file and destination, [Download] returns (the
    copy loop ends on every finite body), and what it leaves in the
    destination is the old content followed by a prefix of the response
    body, as long as the writes it made: it never writes a byte it did not
    read, and nothing when the request fails or the length is zero. *)
Theorem Download_returns_and_appends_prefix :
  forall (g : GoRepository) (dlFile : File) (outFile : OsFile),
    (exists r, (Download g dlFile outFile).1.1 = Returned r)
    /\ exists n,
         written (Download g dlFile outFile).2 = Z.of_nat n
         /\ content (Download g dlFile outFile).1.2
            = content outFile
                ++ take n (match Do (client g) (download_url g dlFile) with
                           | inr resp => Body_bytes (Resp_Body resp)
                           | inl _ => []
                           end).
Proof.
  intros g dlFile outFile.
  unfold Download. fold (download_url g dlFile).
  destruct (NewRequest (client g) (download_url g dlFile)) as [e|].
  { split; [by eexists|]. exists 0. simpl. by rewrite take_0, app_nil_r. }
  destruct (Do (client g) (download_url g dlFile)) as [e|resp].
  { split; [by eexists|]. exists 0. simpl. by rewrite app_nil_r. }
  destruct (Z.eqb (ContentLength resp) 0).
  { split; [by eexists|]. exists 0. simpl. by rewrite take_0, app_nil_r. }
  pose proof (copyLoop_conforms bufSize (ContentLength resp)
                (S (Body_size (Resp_Body resp))) bufSize_pos 0
                (Resp_Body resp) outFile ltac:(lia)) as Hconf.
  destruct (copyLoop_prefix bufSize (ContentLength resp)
              (S (Body_size (Resp_Body resp))) bufSize_pos 0
              (Resp_Body resp) outFile ltac:(lia)) as (n & _ & Hc & Hw).
  destruct (copyLoop bufSize _ _ _ _ _) as [[r f] evs]. simpl in *.
  split; [by eapply transfer_trace_returns|]. by exists n.
Qed.

Lemma Download_loop (g : GoRepository) (dlFile : File) (outFile : OsFile)
    (resp : Response) :
  NewRequest (client g) (download_url g dlFile) = None ->
  Do (client g) (download_url g dlFile) = inr resp ->
  ContentLength resp <> 0%Z ->
  exists evs n,
    (Download g dlFile outFile).2 = EvRequest (download_url g dlFile) :: evs
    /\ transfer_trace bufSize (ContentLength resp) 0 evs (Download g dlFile outFile).1.1
    /\ written evs = Z.of_nat n
    /\ n <= length (Body_bytes (Resp_Body resp)).
Proof.
  intros Hreq Hdo Hlen. unfold Download.
  fold (download_url g dlFile). rewrite Hreq, Hdo.
  destruct (Z.eqb_spec (ContentLength resp) 0) as [?|_]; [done|].
  pose proof (copyLoop_conforms bufSize (ContentLength resp)
                (S (Body_size (Resp_Body resp))) bufSize_pos 0
                (Resp_Body resp) outFile ltac:(lia)) as Hconf.
  destruct (copyLoop_prefix bufSize (ContentLength resp)
              (S (Body_size (Resp_Body resp))) bufSize_pos 0
              (Resp_Body resp) outFile ltac:(lia)) as (n & Hn & _ & Hw).
  destruct (copyLoop bufSize _ _ _ _ _) as [[r f] evs]. simpl in *.
  by exists evs, n.
Qed.

(** When the body is not longer than the declared, positive length, every
    progress fraction of a download lies between 0 and 1, has the declared
    length as its denominator, and the fractions never decrease. *)
Theorem Download_progress_bounded :
  forall (g : GoRepository) (dlFile : File) (outFile : OsFile) (resp : Response),
    NewRequest (client g) (download_url g dlFile) = None ->
    Do (client g) (download_url g dlFile) = inr resp ->
    (0 < ContentLength resp)%Z ->
    (Z.of_nat (length (Body_bytes (Resp_Body resp))) <= ContentLength resp)%Z ->
    (forall r, In (EvProgress r) (Download g dlFile outFile).2 ->
               den r = ContentLength resp /\ (0 <= num r <= den r)%Z)
    /\ (forall pre r mid r' post,
          (Download g dlFile outFile).2
          = pre ++ EvProgress r :: mid ++ EvProgress r' :: post ->
          (num r <= num r')%Z).
Proof.
  intros g dlFile outFile resp Hreq Hdo Hpos Hlen.
  destruct (Download_loop g dlFile outFile resp Hreq Hdo ltac:(lia))
    as (evs & n & -> & Ht & Hw & Hn).
  split.
  - intros r [Hr|Hr]; [done|].
    apply in_split in Hr as (pre & post & ->).
    destruct (transfer_trace_progress _ _ _ _ _ Ht _ _ _ eq_refl) as [-> _].
    simpl. rewrite written_app in Hw. simpl in Hw.
    pose proof (written_nonneg pre). pose proof (written_nonneg post). lia.
  - intros pre r mid r' post Heq.
    destruct pre as [|ev pre]; simpl in Heq; [done|].
    injection Heq as _ ->.
    destruct (transfer_trace_progress _ _ _ _ _ Ht pre r
                (mid ++ EvProgress r' :: post) eq_refl) as [Hr _].
    destruct (transfer_trace_progress _ _ _ _ _ Ht
                (pre ++ EvProgress r :: mid) r' post) as [Hr' _].
    { by rewrite <- app_assoc. }
    rewrite Hr' at 1. rewrite Hr at 1. simpl. rewrite written_app. simpl.
    pose proof (written_nonneg mid). lia.
Qed.

Lemma Download_progress_bounded_witness :
  (forall r,
      In (EvProgress r)
        (Download (repo_of (inr response_abc)) file_go1_20_2 full_disk).2 ->
      den r = ContentLength response_abc /\ (0 <= num r <= den r)%Z)
  /\ (forall pre r mid r' post,
        (Download (repo_of (inr response_abc)) file_go1_20_2 full_disk).2
        = pre ++ EvProgress r :: mid ++ EvProgress r' :: post ->
        (num r <= num r')%Z).
Proof.
  apply (Download_progress_bounded (repo_of (inr response_abc)) file_go1_20_2
           full_disk response_abc); try reflexivity; simpl; lia.
Defined.

(** ** [Decompress]: what it leaves alone *)

Lemma MkdirAll_walk_frame (todo : list string) (perm : Z) :
  forall (fs fs' : FS) (pfx : path),
    MkdirAll_walk fs pfx todo perm = inr fs' ->
    forall p, ~ p `prefix_of` pfx ++ todo -> fs' !! p = fs !! p.
Proof.
  induction todo as [|c todo IH]; intros fs fs' pfx Hwalk p Hp; simpl in Hwalk.
  - by injection Hwalk as <-.
  - assert (~ p `prefix_of` (pfx ++ [c]) ++ todo) as Hp'
      by (by rewrite <- app_assoc).
    destruct (fs !! (pfx ++ [c])) as [[x|x bytes]|] eqn:Hlook; [|done|].
    + by apply (IH _ _ _ Hwalk).
    + rewrite (IH _ _ _ Hwalk p Hp'). apply lookup_insert_ne.
      intros <-. apply Hp. apply prefix_app, prefix_cons, prefix_nil.
Qed.

(** One iteration of the extraction loop, on any entry and any file
    system, changes nothing except on the way to the entry's path, and never
    loses a directory. *)
Lemma extractEntry_frame (dst : path) (fs : FS) (e : Entry) (c : Z) :
  (forall p, ~ p `prefix_of` target_of dst e ->
             (extractEntry dst fs e c).1.2 !! p = fs !! p)
  /\ (forall p x, fs !! p = Some (Dir x) ->
                  (extractEntry dst fs e c).1.2 !! p = Some (Dir x)).
Proof.
  unfold extractEntry. fold (target_of dst e).
  destruct (Ascii.eqb (Typeflag (header e)) TypeDir).
  - destruct (os_Stat fs (target_of dst e)); [|done].
    destruct (os_MkdirAll fs (target_of dst e) 493) as [err|fs'] eqn:Hmk; [done|].
    simpl. split.
    + intros p Hp. by apply (MkdirAll_walk_frame _ _ _ _ _ Hmk).
    + by apply (MkdirAll_walk_dirs _ _ _ _ _ Hmk).
  - destruct (Ascii.eqb (Typeflag (header e)) TypeReg); [|done].
    assert (forall (fs' : FS) (n : node),
               (forall x, fs !! target_of dst e <> Some (Dir x)) ->
               let fs'' := write_data (<[target_of dst e := n]> fs)
                             (target_of dst e) (data e) in
               (forall p, ~ p `prefix_of` target_of dst e -> fs'' !! p = fs !! p)
               /\ (forall p x, fs !! p = Some (Dir x) -> fs'' !! p = Some (Dir x)))
      as Hwrite.
    { intros _ n Hnotdir. unfold write_data. rewrite lookup_insert_eq.
      assert (forall (m : FS) p, p <> target_of dst e ->
                (forall q, q <> target_of dst e -> m !! q = fs !! q) ->
                m !! p = fs !! p) as Haway by (intros m p Hp Hm; by apply Hm).
      destruct n as [perm|perm old]; simpl; split.
      - intros p Hp. apply lookup_insert_ne. by intros <-.
      - intros p x Hx. rewrite lookup_insert_ne; [done|].
        intros <-. by apply (Hnotdir x).
      - intros p Hp. rewrite !lookup_insert_ne; [done|by intros <-|by intros <-].
      - intros p x Hx. rewrite !lookup_insert_ne; [done| |];
          intros <-; by apply (Hnotdir x). }
    unfold os_OpenFile.
    destruct (target_of dst e) as [|t0 ts] eqn:Ht; [done|].
    rewrite <- Ht in *.
    destruct (fs !! target_of dst e) as [[perm|perm old]|] eqn:Hlook; [done| |].
    + destruct (Hwrite fs (Reg perm []) ltac:(congruence)) as [H1 H2].
      by destruct (dataErr e).
    + destruct (is_dir fs (parent (target_of dst e))); [|done].
      destruct (Hwrite fs (Reg (Mode (header e)) []) ltac:(congruence)) as [H1 H2].
      by destruct (dataErr e).
Qed.

Lemma extractLoop_frame (dst : path) (tarEnd : error) (total : Z) (es : list Entry) :
  forall (c : Z) (fs : FS),
    (forall p, (forall e, In e es -> ~ p `prefix_of` target_of dst e) ->
               (extractLoop dst es tarEnd total c fs).1.2 !! p = fs !! p)
    /\ (forall p x, fs !! p = Some (Dir x) ->
                    (extractLoop dst es tarEnd total c fs).1.2 !! p = Some (Dir x)).
Proof.
  induction es as [|e es IH]; intros c fs.
  - simpl. by destruct (is_EOF tarEnd).
  - simpl. destruct (extractEntry_frame dst fs e c) as [Hframe Hmono].
    destruct (extractEntry dst fs e c) as [[[err|c'] fs1] evs]; simpl in *.
    + split; [|done]. intros p Hp. apply Hframe, Hp. by left.
    + destruct (IH c' fs1) as [Hframe' Hmono'].
      destruct (extractLoop dst es tarEnd total c' fs1) as [[res fs2] rest].
      simpl in *. split.
      * intros p Hp. rewrite Hframe' by (intros e' He'; apply Hp; by right).
        apply Hframe, Hp. by left.
      * intros p x Hx. by apply Hmono', Hmono.
Qed.

Lemma Decompress_frame (dst : path) (r : Archive) (fs : FS) :
  (forall p, ~ p `prefix_of` dst ->
             (forall e, In e (entries r) -> ~ p `prefix_of` target_of dst e) ->
             (Decompress dst r fs).1.2 !! p = fs !! p)
  /\ (forall p x, fs !! p = Some (Dir x) ->
                  (Decompress dst r fs).1.2 !! p = Some (Dir x)).
Proof.
  unfold Decompress.
  destruct (os_MkdirAll fs dst 493) as [err|fs1] eqn:Hmk; [done|].
  pose proof (MkdirAll_walk_frame _ _ _ _ _ Hmk) as Hframe1.
  destruct (MkdirAll_walk_dirs _ _ _ _ _ Hmk) as [_ Hmono1].
  simpl in Hframe1.
  destruct (gzipErr r); [by split; auto|].
  destruct (countLoop (entries r) (tarEnd r) 0) as [[total|] evs1];
    [|by split; auto].
  destruct (seekErr r); [by split; auto|].
  destruct (extractLoop_frame dst (tarEnd r) total (entries r) 0 fs1)
    as [Hframe Hmono].
  destruct (extractLoop dst (entries r) (tarEnd r) total 0 fs1) as [[res fs2] evs2].
  simpl in *. split.
  - intros p Hp Hes. rewrite (Hframe p Hes). by apply Hframe1.
  - intros p x Hx. by apply Hmono, Hmono1.
Qed.

Lemma not_prefix_by_computation (p q : path) :
  bool_decide (p `prefix_of` q) = false -> ~ p `prefix_of` q.
Proof. apply bool_decide_eq_false. Qed.

(** On any archive and with any outcome, [Decompress] changes the file
    system only at the destination root and the directories leading to it,
    and at the paths of the entries and the directories leading to
    them. *)
Theorem Decompress_touches_only_targets :
  forall (dst : path) (r : Archive) (fs : FS) (p : path),
    ~ p `prefix_of` dst ->
    (forall e, In e (entries r) -> ~ p `prefix_of` target_of dst e) ->
    (Decompress dst r fs).1.2 !! p = fs !! p.
Proof. intros dst r fs p. apply Decompress_frame. Qed.

Lemma Decompress_touches_only_targets_witness :
  (Decompress usr_local small_archive installed_fs).1.2 !! ["usr"; "bin"]
  = installed_fs !! ["usr"; "bin"].
Proof.
  apply (Decompress_touches_only_targets usr_local small_archive installed_fs
           ["usr"; "bin"]).
  - apply not_prefix_by_computation. vm_compute. reflexivity.
  - intros e [<-|[<-|[]]]; apply not_prefix_by_computation; vm_compute; reflexivity.
Defined.

(** On any archive and with any outcome, a directory that existed before
    [Decompress] exists afterwards, with its mode. *)
Theorem Decompress_keeps_directories :
  forall (dst : path) (r : Archive) (fs : FS) (p : path) (perm : Z),
    fs !! p = Some (Dir perm) ->
    (Decompress dst r fs).1.2 !! p = Some (Dir perm).
Proof. intros dst r fs p perm. apply Decompress_frame. Qed.

Lemma Decompress_keeps_directories_witness :
  (Decompress usr_local archive_without_bin installed_fs).1.2 !! usr_local_go
  = Some (Dir 493).
Proof.
  apply (Decompress_keeps_directories usr_local archive_without_bin installed_fs
           usr_local_go 493).
  reflexivity.
Defined.

Lemma Join_under (dst : path) (name : string) :
  no_dotdot name = true -> dst `prefix_of` filepath_Join dst name.
Proof.
  unfold no_dotdot, filepath_Join.
  assert (forall comps acc,
             forallb (fun c => negb (String.eqb c "..")) comps = true ->
             dst `prefix_of` acc ->
             dst `prefix_of` fold_left Clean_step comps acc) as Hfold.
  { induction comps as [|c comps IH]; intros acc Hcomps Hacc; simpl; [done|].
    simpl in Hcomps. apply andb_true_iff in Hcomps as [Hc Hcomps].
    apply IH; [done|]. unfold Clean_step.
    destruct (String.eqb c ""); [done|]. destruct (String.eqb c "."); [done|].
    destruct (String.eqb c ".."); [done|]. by apply prefix_app_r. }
  intros H. by apply Hfold.
Qed.

(** When no entry name has a [".."] component, extraction stays inside the
    destination: every path that is neither the root or one of its parent
    directories nor below the root is as it was, whatever the outcome. *)
Theorem Decompress_confined :
  forall (dst : path) (r : Archive) (fs : FS) (p : path),
    forallb (fun e => no_dotdot (Name (header e))) (entries r) = true ->
    ~ p `prefix_of` dst ->
    ~ dst `prefix_of` p ->
    (Decompress dst r fs).1.2 !! p = fs !! p.
Proof.
  intros dst r fs p Hnames Hup Hdown.
  apply Decompress_frame; [done|].
  intros e He Hp. rewrite forallb_forall in Hnames.
  pose proof (Join_under dst _ (Hnames e He)) as Hdst.
  destruct (prefix_weak_total _ _ _ Hp Hdst); done.
Qed.

Lemma Decompress_confined_witness :
  (Decompress usr_local small_archive installed_fs).1.2 !! ["etc"; "passwd"]
  = installed_fs !! ["etc"; "passwd"].
Proof.
  apply (Decompress_confined usr_local small_archive installed_fs
           ["etc"; "passwd"]); [reflexivity| |];
    apply not_prefix_by_computation; vm_compute; reflexivity.
Defined.

Lemma count_reg_take (es : list Entry) (k : nat) :
  (0 <= count_reg (take k es) <= count_reg es)%Z.
Proof.
  unfold count_reg. rewrite <- (take_drop k es) at 3.
  rewrite List.filter_app, length_app. lia.
Qed.

(** On any archive, every progress fraction [Decompress] emits has the
    number of regular-file entries as its denominator and lies between 0 and
    that number: it is a fraction in [0, 1], or 0/0 when the archive has no
    regular file. *)
Theorem Decompress_progress_bounded :
  forall (dst : path) (r : Archive) (fs : FS) (q : Ratio),
    In q (progress_of (Decompress dst r fs).2) ->
    den q = count_reg (entries r) /\ (0 <= num q <= den q)%Z.
Proof.
  intros dst r fs q. unfold Decompress.
  destruct (os_MkdirAll fs dst 493) as [err|fs1]; [done|].
  destruct (gzipErr r); [done|].
  destruct (tarEnd r) as [|msg] eqn:Hend.
  - rewrite countLoop_EOF, Z.add_0_l.
    destruct (seekErr r).
    { cbn [fst snd]. rewrite !progress_of_app, progress_of_count_events. done. }
    destruct (extractLoop_progress dst (entries r) EOF (count_reg (entries r)) 0 fs1)
      as (m & _ & Hprog & _).
    destruct (extractLoop dst (entries r) EOF (count_reg (entries r)) 0 fs1)
      as [[res fs2] evs2].
    cbn [fst snd] in *. rewrite !progress_of_app, progress_of_count_events. simpl.
    rewrite Hprog. unfold progress_per_entry. intros Hq.
    apply in_map_iff in Hq as (k & <- & _). simpl.
    pose proof (count_reg_take (entries r) k). split; [done|lia].
  - rewrite countLoop_error by done. cbn [fst snd].
    rewrite progress_of_app, progress_of_count_events. done.
Qed.

Lemma Decompress_progress_bounded_witness :
  den (mkRatio 1 1) = count_reg (entries small_archive)
  /\ (0 <= num (mkRatio 1 1) <= den (mkRatio 1 1))%Z.
Proof.
  apply (Decompress_progress_bounded usr_local small_archive ∅ (mkRatio 1 1)).
  vm_compute. auto.
Defined.

(** ** The commands of the enter key *)

(** When no release with the chosen version has a linux/amd64 file,
    nothing is downloaded and nothing is removed: the sequence posts the
    "no match" error, then [extractCmd] fails on the missing temporary file
    before [os.RemoveAll], and the file system is as it was. *)
Theorem no_match_leaves_installation :
  forall (m : model) (w : World),
    file m = None ->
    List.filter (has_platform_file (choice m)) (versions m) = [] ->
    enterSequence m w
    = ([statusMsg Downloading; errMsg errNoMatch;
        statusMsg Extracting; errMsg ErrInvalid], fs w).
Proof.
  intros m w Hfile Hnone.
  pose proof (selectFile_last_from (choice m) (versions m) File_zero) as Hsel.
  change (fold_left _ (versions m) File_zero)
    with (selectFile (versions m) (choice m)) in Hsel.
  rewrite Hnone in Hsel. simpl in Hsel.
  unfold enterSequence, downloadCmd. rewrite Hsel.
  destruct (decide (File_zero = File_zero)) as [_|?]; [|done].
  unfold extractCmd. by rewrite Hfile.
Qed.

Lemma no_match_leaves_installation_witness :
  enterSequence (model_of (inl EOF) sample_catalog "go1.20.5") installed_world
  = ([statusMsg Downloading; errMsg errNoMatch;
      statusMsg Extracting; errMsg ErrInvalid], fs installed_world).
Proof.
  apply (no_match_leaves_installation
           (model_of (inl EOF) sample_catalog "go1.20.5") installed_world);
    reflexivity.
Defined.

Lemma os_RemoveAll_below (fs : FS) (d p : path) :
  d `prefix_of` p -> os_RemoveAll fs d !! p = None.
Proof.
  intros Hp. unfold os_RemoveAll. apply map_lookup_filter_None. right.
  intros x _ Hnot. by apply Hnot.
Qed.

(** Whenever [extractCmd] gets as far as removing the old installation,
    a path below /usr/local/go that is not on the way to any entry of the
    archive is absent afterwards, whether or not the extraction succeeds: no
    file of the previous installation survives beside the new ones. *)
Theorem extractCmd_removes_stale_files :
  forall (m : model) (w : World) (f : OsFile) (p : path),
    file m = Some f ->
    removeAllErr w = None ->
    usr_local_go `prefix_of` p ->
    (forall e, In e (entries (readArchive w (content f))) ->
               ~ p `prefix_of` target_of usr_local e) ->
    (extractCmd m w).1.2 !! p = None.
Proof.
  intros m w f p Hfile Hrm Hbelow Hes.
  unfold extractCmd. rewrite Hfile, Hrm.
  destruct (Decompress_frame usr_local (readArchive w (content f))
              (os_RemoveAll (fs w) usr_local_go)) as [Hframe _].
  specialize (Hframe p).
  destruct (Decompress usr_local _ _) as [[res fs2] evs]. simpl in Hframe.
  assert (fs2 !! p = None) as Hp.
  { rewrite Hframe; [by apply os_RemoveAll_below| |done].
    intros Hup. apply prefix_length in Hup. apply prefix_length in Hbelow.
    simpl in *. lia. }
  by destruct res as [[e|]| |].
Qed.

Lemma extractCmd_removes_stale_files_witness :
  (extractCmd (set_file (main_model (repo_of (inl EOF)) sample_catalog)
                 (Some empty_file)) upgrade_world).1.2 !! stale_path = None.
Proof.
  apply (extractCmd_removes_stale_files
           (set_file (main_model (repo_of (inl EOF)) sample_catalog)
              (Some empty_file)) upgrade_world empty_file stale_path);
    [reflexivity|reflexivity| |].
  - apply (bool_decide_unpack _). vm_compute. exact I.
  - intros e [<-|[<-|[]]]; apply not_prefix_by_computation; vm_compute;
      reflexivity.
Defined.

(** ** [Update] over a run of the loop *)

Lemma Update_keeps (m : model) (msg : Msg) :
  versions (Update m msg).1 = versions m
  /\ repo (Update m msg).1 = repo m
  /\ file (Update m msg).1 = file m
  /\ items (mlist (Update m msg).1) = items (mlist m)
  /\ (choice (Update m msg).1 = choice m
      \/ In (choice (Update m msg).1) (items (mlist m))).
Proof.
  destruct msg; simpl; try (repeat split; auto; fail).
  - destruct (String.eqb key "ctrl+c"); [repeat split; auto|].
    destruct (String.eqb key "enter").
    + unfold list_SelectedItem.
      destruct (items (mlist m) !! cursor (mlist m)) as [i|] eqn:Hi; simpl;
        repeat split; auto.
      right. apply list_elem_of_In. by eapply list_elem_of_lookup_2.
    + repeat (destruct (String.eqb key _)); simpl; repeat split; auto.
Qed.

Lemma loop_keeps (msgs : list Msg) :
  forall m : model,
    versions (loop m msgs) = versions m
    /\ repo (loop m msgs) = repo m
    /\ file (loop m msgs) = file m
    /\ items (mlist (loop m msgs)) = items (mlist m)
    /\ (choice (loop m msgs) = choice m
        \/ In (choice (loop m msgs)) (items (mlist m))).
Proof.
  induction msgs as [|msg msgs IH]; intros m; simpl; [by repeat split; auto|].
  destruct (Update_keeps m msg) as (Hv & Hr & Hf & Hi & Hc).
  destruct (IH (Update m msg).1) as (Hv' & Hr' & Hf' & Hi' & Hc').
  unfold loop in *. rewrite Hv', Hr', Hf', Hi'.
  repeat split; try done.
  destruct Hc' as [->|Hin]; [done|]. right. by rewrite <- Hi.
Qed.

(** Started as [main] starts it, and whatever messages arrive, the loop
    never changes the catalog, the repository or the list of items, and the
    choice is either still empty or the version of a release of the catalog:
    the string [downloadCmd] looks up always names a listed release. *)
Theorem choice_names_a_release :
  forall (g : GoRepository) (catalog : list Release) (msgs : list Msg),
    versions (loop (main_model g catalog) msgs) = catalog
    /\ repo (loop (main_model g catalog) msgs) = g
    /\ items (mlist (loop (main_model g catalog) msgs)) = main_items catalog
    /\ (choice (loop (main_model g catalog) msgs) = ""
        \/ exists r, In r catalog
             /\ Release_Version r = choice (loop (main_model g catalog) msgs)).
Proof.
  intros g catalog msgs.
  destruct (loop_keeps msgs (main_model g catalog)) as (Hv & Hr & _ & Hi & Hc).
  repeat split; try done.
  destruct Hc as [Hc|Hc]; [by left|right].
  simpl in Hc. rewrite main_items_map in Hc.
  apply in_map_iff in Hc as (r & Hr' & Hin). by exists r.
Qed.

(** Only [statusMsg], [doneMsg] and the ctrl+c key change the status:
    progress, window size, frame and all other key messages leave it where
    it is, and so does [errMsg]. *)
Theorem status_changes_only_on_status_messages :
  forall (m : model) (msg : Msg),
    (forall s, msg <> statusMsg s) ->
    msg <> doneMsg ->
    msg <> KeyMsg "ctrl+c" ->
    status (Update m msg).1 = status m.
Proof.
  intros m msg Hs Hd Hk. destruct msg; simpl; try done.
  - destruct (String.eqb_spec key "ctrl+c") as [->|_]; [done|].
    destruct (String.eqb key "enter").
    + by destruct (list_SelectedItem (mlist m)).
    + by repeat (destruct (String.eqb key _)).
  - by destruct (Hs s).
Qed.

Lemma status_changes_only_on_status_messages_witness :
  status (Update (set_status offline_model Downloading)
            (progressMsg (mkRatio 3 3))).1
  = status (set_status offline_model Downloading).
Proof.
  apply (status_changes_only_on_status_messages
           (set_status offline_model Downloading) (progressMsg (mkRatio 3 3)));
    intros; discriminate.
Defined.

Lemma loop_app (m : model) (l1 l2 : list Msg) :
  loop m (l1 ++ l2) = loop (loop m l1) l2.
Proof. unfold loop. apply fold_left_app. Qed.

Lemma loop_progress_status (evs : list Event) (m : model) :
  status (loop m (progress_msgs evs)) = status m.
Proof.
  unfold progress_msgs. revert m.
  induction (progress_of evs) as [|r rs IH]; intros m; simpl; [done|].
  unfold loop in *. by rewrite IH.
Qed.

Lemma extractCmd_message (m : model) (w : World) :
  ((extractCmd m w).1.1 = Some doneMsg /\ install_ok m w)
  \/ (((exists e, (extractCmd m w).1.1 = Some (errMsg e))
       \/ (extractCmd m w).1.1 = None)
      /\ ~ install_ok m w).
Proof.
  unfold extractCmd, install_ok.
  destruct (file m) as [f|]; [|right; split; [left; by eexists|by intros (f & ? & _)]].
  destruct (removeAllErr w) as [e|];
    [right; split; [left; by eexists|by intros (f' & _ & ? & _)]|].
  destruct (Decompress usr_local (readArchive w (content f))
              (os_RemoveAll (fs w) usr_local_go)) as [[res fs2] evs] eqn:Hd.
  destruct res as [[e|]| |]; simpl.
  - right. split; [left; by eexists|].
    intros (f' & [= <-] & _ & H). rewrite Hd in H. done.
  - left. split; [done|]. exists f. by rewrite Hd.
  - right. split; [by right|].
    intros (f' & [= <-] & _ & H). rewrite Hd in H. done.
  - right. split; [by right|].
    intros (f' & [= <-] & _ & H). rewrite Hd in H. done.
Qed.

(** When the loop has handled every message of the enter-key sequence,
    the status is [Completed] exactly if the installation ran to its end
    (a downloaded file, [os.RemoveAll] and [Decompress] without error), and
    [Extracting] otherwise. *)
Theorem Completed_iff_install_ok :
  forall (m : model) (w : World),
    (status (loop m (enterSequence m w).1) = Completed
     <-> install_ok (downloadCmd m w).1.2 w)
    /\ (status (loop m (enterSequence m w).1) = Completed
        \/ status (loop m (enterSequence m w).1) = Extracting).
Proof.
  intros m w. unfold enterSequence.
  destruct (downloadCmd m w) as [[msgD m'] evsD]. cbn [fst snd].
  pose proof (extractCmd_message m' w) as Hmsg.
  destruct (extractCmd m' w) as [[msgE fs'] evsE]. cbn [fst snd] in *.
  rewrite !loop_app.
  set (m1 := loop (loop (loop m [statusMsg Downloading]) (progress_msgs evsD))
               (msg_list msgD)).
  assert (status (loop (loop m1 [statusMsg Extracting]) (progress_msgs evsE))
          = Extracting) as Hst by (by rewrite loop_progress_status).
  set (m2 := loop (loop m1 [statusMsg Extracting]) (progress_msgs evsE)) in *.
  destruct Hmsg as [[-> Hok]|[[[e ->]| ->] Hnot]]; simpl.
  - split; [by split|by left].
  - rewrite Hst. split; [by split|by right].
  - rewrite Hst. split; [by split|by right].
Qed.

Lemma Completed_example :
  status (loop (main_model (repo_of (inr response_abc)) sample_catalog)
            (KeyMsg "enter"
               :: (enterSequence
                     (Update (main_model (repo_of (inr response_abc)) sample_catalog)
                        (KeyMsg "enter")).1 upgrade_world).1))
  = Completed.
Proof. vm_compute. reflexivity. Qed.

(** ** [GetVersions] and the start of [main] *)

(** When the catalog cannot be fetched (the request cannot be built, the
    round trip fails, or the status is not 2xx), [GetVersions] returns an
    error and no release; [main] then shows an empty list, and the enter key
    leaves the choice empty: [downloadCmd] returns the "no match" error
    without creating a file or sending a request, the sequence goes on to
    [extractCmd], which fails with "invalid argument" on the nil file before
    [os.RemoveAll], and the file system is not touched. *)
Theorem unavailable_catalog_never_transfers :
  forall (g : GoRepository) (c : CatalogClient) (w : World),
    catalog_unavailable (url g) c ->
    (exists e, GetVersions (url g) c = ([], Some e))
    /\ items (mlist (main_start g c)) = []
    /\ choice (Update (main_start g c) (KeyMsg "enter")).1 = ""
    /\ enterSequence (Update (main_start g c) (KeyMsg "enter")).1 w
       = ([statusMsg Downloading; errMsg errNoMatch;
           statusMsg Extracting; errMsg ErrInvalid], fs w).
Proof.
  intros g c w Hun.
  assert (exists e, GetVersions (url g) c = ([], Some e)) as [e He].
  { unfold GetVersions, catalog_unavailable in *.
    destruct Hun as [[e ->]|[[e He]|(resp & Hdo & Hst)]]; [by eexists| |].
    - destruct (Catalog_NewRequest c _); [by eexists|]. rewrite He. by eexists.
    - destruct (Catalog_NewRequest c _); [by eexists|]. rewrite Hdo.
      destruct (Z.ltb_spec (StatusCode resp) 200);
        destruct (Z.leb_spec 300 (StatusCode resp)); simpl;
        try (by eexists). lia. }
  split; [by exists e|].
  unfold main_start. rewrite He. simpl. done.
Qed.

Lemma unavailable_catalog_never_transfers_witness :
  (exists e, GetVersions (url (repo_of (inl EOF))) client_500 = ([], Some e))
  /\ items (mlist (main_start (repo_of (inl EOF)) client_500)) = []
  /\ choice (Update (main_start (repo_of (inl EOF)) client_500) (KeyMsg "enter")).1
     = ""
  /\ enterSequence (Update (main_start (repo_of (inl EOF)) client_500)
                      (KeyMsg "enter")).1 installed_world
     = ([statusMsg Downloading; errMsg errNoMatch;
         statusMsg Extracting; errMsg ErrInvalid], fs installed_world).
Proof.
  apply (unavailable_catalog_never_transfers (repo_of (inl EOF)) client_500
           installed_world).
  right. right. eexists. split; [reflexivity|]. simpl. lia.
Defined.

(** ** The enter key, from the selection to the installed files *)

Lemma loop_quiet (msgs : list Msg) :
  forall m : model,
    forallb quiet_msg msgs = true ->
    err (loop m msgs) = err m /\ choice (loop m msgs) = choice m.
Proof.
  induction msgs as [|msg msgs IH]; intros m Hq; [done|].
  simpl in Hq. apply andb_true_iff in Hq as [Hmsg Hq].
  destruct (IH (Update m msg).1 Hq) as [He Hc].
  unfold loop in *. simpl. rewrite He, Hc.
  destruct msg; simpl in *; try done.
Qed.

Lemma progress_msgs_quiet (evs : list Event) :
  forallb quiet_msg (progress_msgs evs) = true.
Proof.
  unfold progress_msgs. induction (progress_of evs) as [|r rs IH]; simpl; done.
Qed.

(** [Decompress] on a well-formed archive, with the file system on which
    the extraction loop starts. *)
Lemma Decompress_well_formed (dst : path) (r : Archive) (fs fs1 : FS) :
  os_MkdirAll fs dst 493 = inr fs1 ->
  gzipErr r = None ->
  tarEnd r = EOF ->
  seekErr r = None ->
  forallb plain_entry (entries r) = true ->
  NoDup (map (target_of dst) (entries r)) ->
  forallb (fresh_for fs1 dst) (entries r) = true ->
  parents_first [dst] dst (entries r) = true ->
  exists fs' evs,
    Decompress dst r fs = (Returned None, fs', evs)
    /\ (forall e, In e (entries r) -> isReg e = true ->
          fs' !! target_of dst e = Some (Reg (Mode (header e)) (data e)))
    /\ (forall p, ~ In p (map (target_of dst) (entries r)) -> fs' !! p = fs1 !! p).
Proof.
  intros Hmk Hgz Hend Hseek Hplain Hnodup Hfresh Hparents.
  destruct (MkdirAll_dirs_to _ _ _ _ Hmk) as [Hdst _].
  destruct (extractLoop_installs dst (count_reg (entries r)) (entries r)
              [dst] fs1 0 Hplain Hnodup Hfresh Hparents)
    as (fs' & evs2 & Hloop & Hreg & _ & Hframe & _).
  { intros d [<-|[]]. exact Hdst. }
  exists fs'. eexists. split; [|by split].
  unfold Decompress.
  rewrite Hmk, Hgz, Hend, Hseek, countLoop_EOF, Z.add_0_l, Hloop.
  reflexivity.
Qed.

(** After [os.RemoveAll] of /usr/local/go and [os.MkdirAll] of /usr/local
    nothing is left at or below /usr/local/go, and every path that is not
    on the way to /usr/local is as before. *)
Lemma reset_installation (fs0 fs1 : FS) :
  os_MkdirAll (os_RemoveAll fs0 usr_local_go) usr_local 493 = inr fs1 ->
  (forall p, usr_local_go `prefix_of` p -> fs1 !! p = None)
  /\ (forall p, ~ p `prefix_of` usr_local -> ~ usr_local_go `prefix_of` p ->
                fs1 !! p = fs0 !! p).
Proof.
  intros Hmk.
  pose proof (MkdirAll_walk_frame _ _ _ _ _ Hmk) as Hframe. simpl in Hframe.
  split.
  - intros p Hp. rewrite Hframe; [by apply os_RemoveAll_below|].
    intros Hup. apply prefix_length in Hup. apply prefix_length in Hp.
    simpl in *. lia.
  - intros p Hp Hgo. rewrite (Hframe p Hp). unfold os_RemoveAll.
    destruct (fs0 !! p) as [n|] eqn:Hlook.
    + apply map_lookup_filter_Some. by split.
    + apply map_lookup_filter_None. by left.
Qed.

(** The whole run of the enter key when nothing fails.  A release with a
    linux/amd64 file is chosen, the temporary file is created empty and
    takes every write, the server delivers exactly the declared number of
    bytes (more than none), /usr/local can be created once the old
    /usr/local/go is removed, and the downloaded bytes read as a complete
    archive of distinct directory and regular-file entries, all at or below
    /usr/local/go, each in the directory of an earlier entry or directly
    in /usr/local.  Then the screen ends as the completed view of the choice;
    the temporary file holds exactly the bytes of the body; every regular
    file of the archive is installed with its bytes and mode; and at and
    below /usr/local/go nothing but the paths of the archive exists,
    whatever was installed before. *)
Theorem enter_replaces_installation :
  forall (m : model) (w : World) (tmp : OsFile) (resp : Response) (fs1 : FS),
    selectFile (versions m) (choice m) <> File_zero ->
    createTemp w = inr tmp ->
    content tmp = [] ->
    reliable tmp = true ->
    NewRequest (client (repo m))
      (download_url (repo m) (selectFile (versions m) (choice m))) = None ->
    Do (client (repo m))
      (download_url (repo m) (selectFile (versions m) (choice m))) = inr resp ->
    clean (Resp_Body resp) = true ->
    ContentLength resp = Z.of_nat (length (Body_bytes (Resp_Body resp))) ->
    (0 < ContentLength resp)%Z ->
    removeAllErr w = None ->
    os_MkdirAll (os_RemoveAll (fs w) usr_local_go) usr_local 493 = inr fs1 ->
    gzipErr (readArchive w (Body_bytes (Resp_Body resp))) = None ->
    tarEnd (readArchive w (Body_bytes (Resp_Body resp))) = EOF ->
    seekErr (readArchive w (Body_bytes (Resp_Body resp))) = None ->
    forallb plain_entry (entries (readArchive w (Body_bytes (Resp_Body resp))))
    = true ->
    NoDup (map (target_of usr_local)
             (entries (readArchive w (Body_bytes (Resp_Body resp))))) ->
    parents_first [usr_local] usr_local
      (entries (readArchive w (Body_bytes (Resp_Body resp)))) = true ->
    under_go (readArchive w (Body_bytes (Resp_Body resp))) = true ->
    err m = None ->
    View (loop m (enterSequence m w).1) = CompletedView (choice m)
    /\ (exists f, file (downloadCmd m w).1.2 = Some f
                  /\ content f = Body_bytes (Resp_Body resp))
    /\ (forall e,
          In e (entries (readArchive w (Body_bytes (Resp_Body resp)))) ->
          isReg e = true ->
          (enterSequence m w).2 !! target_of usr_local e
          = Some (Reg (Mode (header e)) (data e)))
    /\ (forall p,
          usr_local_go `prefix_of` p ->
          ~ In p (map (target_of usr_local)
                    (entries (readArchive w (Body_bytes (Resp_Body resp))))) ->
          (enterSequence m w).2 !! p = None).
Proof.
  intros m w tmp resp fs1 Hsel Htmp Hempty Hrel Hreq Hdo Hclean Hlen Hpos Hrm Hmk
    Hgz Hend Hseek Hplain Hnodup Hparents Hunder Herr.
  set (r := readArchive w (Body_bytes (Resp_Body resp))) in *.
  destruct (reset_installation _ _ Hmk) as [Hgone _].
  (* the transfer *)
  assert (exists out' evsD,
             Download (repo m) (selectFile (versions m) (choice m)) tmp
             = (Returned None, out', evsD)
             /\ content out' = Body_bytes (Resp_Body resp))
    as (out' & evsD & Hdl & Hcontent).
  { unfold Download.
    fold (download_url (repo m) (selectFile (versions m) (choice m))).
    rewrite Hreq, Hdo.
    destruct (Z.eqb_spec (ContentLength resp) 0) as [?|_]; [lia|].
    destruct (copyLoop_clean bufSize (ContentLength resp)
                (S (Body_size (Resp_Body resp))) bufSize_pos 0
                (Resp_Body resp) tmp Hclean Hrel ltac:(lia))
      as (out' & evs & -> & Hc & _).
    exists out'. eexists. split; [reflexivity|]. by rewrite Hc, Hempty. }
  (* the extraction *)
  assert (forallb (fresh_for fs1 usr_local) (entries r) = true) as Hfresh.
  { apply forallb_forall. intros e He. unfold fresh_for.
    unfold under_go in Hunder. rewrite forallb_forall in Hunder.
    specialize (Hunder e He). apply bool_decide_eq_true in Hunder.
    by rewrite (Hgone _ Hunder). }
  destruct (Decompress_well_formed usr_local r _ fs1 Hmk Hgz Hend Hseek Hplain
              Hnodup Hfresh Hparents)
    as (fs' & evsE & Hdec & Hreg & Hframe).
  assert (enterSequence m w
          = ([statusMsg Downloading] ++ progress_msgs (EvCreateTemp :: evsD) ++ []
               ++ [statusMsg Extracting]
               ++ progress_msgs ([EvSeekStart; EvRemoveAll usr_local_go] ++ evsE)
               ++ [doneMsg], fs')) as Hseq.
  { unfold enterSequence, downloadCmd.
    destruct (decide (selectFile (versions m) (choice m) = File_zero)); [done|].
    rewrite Htmp, Hdl. unfold extractCmd. cbn [file set_file].
    rewrite Hrm, Hcontent. fold r. rewrite Hdec. reflexivity. }
  rewrite Hseq. cbn [fst snd].
  split; [|split; [|split; [exact Hreg|]]].
  - rewrite !loop_app. unfold View.
    set (m1 := loop (loop (loop (loop m [statusMsg Downloading])
                             (progress_msgs (EvCreateTemp :: evsD))) [])
                 [statusMsg Extracting]).
    set (m2 := loop m1 (progress_msgs ([EvSeekStart; EvRemoveAll usr_local_go] ++ evsE))).
    assert (err m2 = None /\ choice m2 = choice m) as [He Hc].
    { destruct (loop_quiet
                  ([statusMsg Downloading] ++ progress_msgs (EvCreateTemp :: evsD)
                     ++ [] ++ [statusMsg Extracting]
                     ++ progress_msgs ([EvSeekStart; EvRemoveAll usr_local_go] ++ evsE))
                  m) as [He Hc].
      { rewrite !forallb_app, !progress_msgs_quiet. reflexivity. }
      rewrite !loop_app in He, Hc. fold m1 in He, Hc. fold m2 in He, Hc.
      by rewrite He, Hc. }
    change (loop m2 [doneMsg]) with (set_status m2 Completed).
    cbn [err set_status status choice]. by rewrite He, Hc.
  - exists out'. split; [|done]. unfold downloadCmd.
    destruct (decide (selectFile (versions m) (choice m) = File_zero)); [done|].
    by rewrite Htmp, Hdl.
  - intros p Hp Hnot. rewrite (Hframe p Hnot). by apply Hgone.
Qed.

Lemma enter_replaces_installation_witness :
  View (loop chosen_model (enterSequence chosen_model upgrade_world).1)
  = CompletedView (choice chosen_model)
  /\ (exists f, file (downloadCmd chosen_model upgrade_world).1.2 = Some f
                /\ content f = Body_bytes (Resp_Body response_abc))
  /\ (forall e,
        In e (entries (readArchive upgrade_world
                         (Body_bytes (Resp_Body response_abc)))) ->
        isReg e = true ->
        (enterSequence chosen_model upgrade_world).2 !! target_of usr_local e
        = Some (Reg (Mode (header e)) (data e)))
  /\ (forall p,
        usr_local_go `prefix_of` p ->
        ~ In p (map (target_of usr_local)
                  (entries (readArchive upgrade_world
                              (Body_bytes (Resp_Body response_abc))))) ->
        (enterSequence chosen_model upgrade_world).2 !! p = None).
Proof.
  apply (enter_replaces_installation chosen_model upgrade_world empty_file
           response_abc
           (<[usr_local := Dir 493]> (<[["usr"] := Dir 493]> ∅)));
    try reflexivity.
  - discriminate.
  - apply (bool_decide_unpack _). vm_compute. exact I.
Defined.

(** * Sorting with the release ordering *)

(** *** Rules for total correctness *)

Lemma wp_ret {D X : Type} (x : X) (Q : X -> D -> Prop) (d : D) :
  Q x d -> wp (ret x) Q d.
Proof. done. Qed.

Lemma wp_bind {D X Y : Type} (m : Sorter D X) (k : X -> Sorter D Y)
    (Q : Y -> D -> Prop) (d : D) :
  wp m (fun x d' => wp (k x) Q d') d -> wp (bind m k) Q d.
Proof. unfold wp, bind. by destruct (m d) as [[x d']| |]. Qed.

Lemma wp_mono {D X : Type} (m : Sorter D X) (Q Q' : X -> D -> Prop) (d : D) :
  wp m Q d -> (forall x d', Q x d' -> Q' x d') -> wp m Q' d.
Proof. unfold wp. destruct (m d) as [[x d']| |]; auto. Qed.

(** A loop with invariant [I] and variant [V]. *)
Lemma wp_for_loop {D S R : Type} (I : S -> D -> Prop) (V : S -> nat)
    (body : S -> Sorter D (R + S)) (Q : R -> D -> Prop) :
  (forall s d, I s d ->
     wp (body s)
        (fun r d' =>
           match r with
           | inl x => Q x d'
           | inr s' => I s' d' /\ V s' < V s
           end) d) ->
  forall fuel s d, I s d -> V s < fuel -> wp (for_loop fuel body s) Q d.
Proof.
  intros Hbody. induction fuel as [|fuel IH]; intros s d HI HV; [lia|].
  specialize (Hbody s d HI). unfold wp in *. simpl.
  destruct (body s d) as [[[r|s'] d']| |]; try done.
  destruct Hbody as [HI' HV']. apply IH; [done|lia].
Qed.

Section SortProofs.
Context {A : Type} `{Inhabited A} (lt : A -> A -> bool).

(** [lt] is a strict weak order, as [sort.Interface] asks of [Less]. *)
Hypothesis lt_irrefl : forall x, lt x x = false.
Hypothesis lt_trans : forall x y z, lt x y = true -> lt y z = true -> lt x z = true.
Hypothesis lt_ntrans :
  forall x y z, lt x y = false -> lt y z = false -> lt x z = false.

#[local] Instance slice_I : Interface (list A) := slice_Interface lt.

Local Open Scope Z_scope.

Lemma lt_asym (x y : A) : lt x y = true -> lt y x = false.
Proof.
  intros Hxy. destruct (lt y x) eqn:Hyx; [|done].
  by rewrite <- (lt_irrefl x), (lt_trans x y x Hxy Hyx).
Qed.

Lemma lt_le_trans (x y z : A) : lt x y = true -> lt z y = false -> lt x z = true.
Proof.
  intros Hxy Hzy. destruct (lt x z) eqn:Hxz; [done|].
  by rewrite (lt_ntrans x z y Hxz Hzy) in Hxy.
Qed.

Lemma le_lt_trans (x y z : A) : lt y x = false -> lt y z = true -> lt x z = true.
Proof.
  intros Hyx Hyz. destruct (lt x z) eqn:Hxz; [done|].
  by rewrite (lt_ntrans y x z Hyx Hxz) in Hyz.
Qed.

(** *** Elements and exchanges *)

Lemma length_exchange (l : list A) (i j : Z) :
  length (exchange l i j) = length l.
Proof. unfold exchange. by rewrite !length_insert. Qed.

Lemma elt_lookup (l : list A) (k : Z) :
  0 <= k < Z.of_nat (length l) -> l !! Z.to_nat k = Some (elt l k).
Proof. intros Hk. apply list_lookup_lookup_total_lt. lia. Qed.

Lemma elt_exchange (l : list A) (i j k : Z) :
  0 <= i < Z.of_nat (length l) -> 0 <= j < Z.of_nat (length l) -> 0 <= k ->
  elt (exchange l i j) k
  = if decide (k = j) then elt l i
    else if decide (k = i) then elt l j
    else elt l k.
Proof.
  intros Hi Hj Hk. unfold exchange, elt at 1.
  destruct (decide (k = j)) as [->|Hkj].
  { apply list_lookup_total_insert_eq. rewrite length_insert. lia. }
  rewrite list_lookup_total_insert_ne by lia.
  destruct (decide (k = i)) as [->|Hki].
  { apply list_lookup_total_insert_eq. lia. }
  by rewrite list_lookup_total_insert_ne by lia.
Qed.

Lemma wp_less (i j : Z) (Q : bool -> list A -> Prop) (l : list A) :
  0 <= i < Z.of_nat (length l) -> 0 <= j < Z.of_nat (length l) ->
  Q (lt (elt l i) (elt l j)) l ->
  wp (sort.less i j) Q l.
Proof.
  intros Hi Hj HQ. unfold wp, sort.less. simpl. unfold index.
  destruct (Z.ltb_spec i 0); [lia|]. destruct (Z.ltb_spec j 0); [lia|].
  by rewrite (elt_lookup l i Hi), (elt_lookup l j Hj).
Qed.

Lemma wp_swap (i j : Z) (Q : unit -> list A -> Prop) (l : list A) :
  0 <= i < Z.of_nat (length l) -> 0 <= j < Z.of_nat (length l) ->
  Q tt (exchange l i j) ->
  wp (sort.swap i j) Q l.
Proof.
  intros Hi Hj HQ. unfold wp, sort.swap. simpl. unfold index.
  destruct (Z.ltb_spec i 0); [lia|]. destruct (Z.ltb_spec j 0); [lia|].
  by rewrite (elt_lookup l i Hi), (elt_lookup l j Hj).
Qed.

Lemma exchange_Permutation (l : list A) (i j : Z) :
  0 <= i < Z.of_nat (length l) -> 0 <= j < Z.of_nat (length l) ->
  Permutation l (exchange l i j).
Proof.
  intros Hi Hj. apply Permutation_inj. split; [by rewrite length_exchange|].
  exists (fun k => if decide (k = Z.to_nat i) then Z.to_nat j
                   else if decide (k = Z.to_nat j) then Z.to_nat i else k).
  split.
  - intros k1 k2. repeat case_decide; lia.
  - intros k. unfold exchange.
    destruct (decide (k = Z.to_nat i)) as [->|Hki].
    + rewrite list_lookup_insert_eq by (rewrite length_insert; lia).
      by apply elt_lookup.
    + destruct (decide (k = Z.to_nat j)) as [->|Hkj].
      * destruct (decide (Z.to_nat i = Z.to_nat j)) as [Heq|Hne]; [lia|].
        rewrite list_lookup_insert_ne by lia.
        rewrite list_lookup_insert_eq by lia. by apply elt_lookup.
      * by rewrite !list_lookup_insert_ne by lia.
Qed.

(** *** Exchanges inside a range *)

Lemma within_length (a b : Z) (l l' : list A) :
  within a b l l' -> length l' = length l.
Proof. induction 1; [done|]. by rewrite length_exchange. Qed.

Lemma within_Permutation (a b : Z) (l l' : list A) :
  within a b l l' -> Permutation l l'.
Proof.
  induction 1; [done|]. etrans; [done|]. by apply exchange_Permutation.
Qed.

Lemma within_outside (a b : Z) (l l' : list A) :
  within a b l l' ->
  forall k, 0 <= k -> ~ (a <= k < b) -> elt l' k = elt l k.
Proof.
  induction 1 as [|l1 i j Hw IH Hi Hj Hi' Hj']; intros k Hk Hout; [done|].
  rewrite elt_exchange by lia. repeat case_decide; try lia. by apply IH.
Qed.

Lemma within_trans (a b : Z) (l l1 l2 : list A) :
  within a b l l1 -> within a b l1 l2 -> within a b l l2.
Proof. intros H1. induction 1; [done|]. by constructor. Qed.

Lemma within_mono (a b a' b' : Z) (l l' : list A) :
  within a b l l' -> a' <= a -> b <= b' -> within a' b' l l'.
Proof.
  intros Hw Ha Hb. induction Hw; [constructor|]. constructor; [done|lia..].
Qed.

Lemma within_all (a b : Z) (l l' : list A) (P : A -> Prop) :
  0 <= a -> within a b l l' -> all_in l a b P -> all_in l' a b P.
Proof.
  intros Ha Hw Hall.
  induction Hw as [|l1 i j Hw IH Hi Hj Hi' Hj']; [done|].
  intros k Hk. rewrite elt_exchange by lia.
  repeat case_decide; apply IH; lia.
Qed.

Lemma within_step (a b : Z) (l l1 : list A) (i j : Z) :
  within a b l l1 ->
  a <= i < b -> a <= j < b -> 0 <= a -> b <= Z.of_nat (length l) ->
  within a b l (exchange l1 i j).
Proof.
  intros Hw Hi Hj Ha Hb. pose proof (within_length _ _ _ _ Hw).
  constructor; [done|lia..].
Qed.

Lemma sorted_range_mono (l : list A) (a b a' b' : Z) :
  sorted_range lt l a b -> a <= a' -> b' <= b -> sorted_range lt l a' b'.
Proof. intros Hs Ha Hb i j Hi Hij Hj. apply Hs; lia. Qed.

(** *** Exchanging neighbours that are not tied *)

Lemma exchange_neighbours (l : list A) (j : Z) :
  0 < j < Z.of_nat (length l) ->
  l = take (Z.to_nat (j - 1)) l ++ [elt l (j - 1); elt l j] ++ drop (Z.to_nat (j + 1)) l
  /\ exchange l j (j - 1)
     = take (Z.to_nat (j - 1)) l ++ [elt l j; elt l (j - 1)]
         ++ drop (Z.to_nat (j + 1)) l.
Proof.
  intros Hj.
  assert (l = take (Z.to_nat (j - 1)) l
              ++ [elt l (j - 1); elt l j] ++ drop (Z.to_nat (j + 1)) l) as Hl.
  { rewrite <- (take_drop (Z.to_nat (j - 1)) l) at 1. f_equal.
    rewrite (drop_S l (elt l (j - 1)) (Z.to_nat (j - 1))) by (apply elt_lookup; lia).
    simpl. f_equal.
    replace (S (Z.to_nat (j - 1))) with (Z.to_nat j) by lia.
    rewrite (drop_S l (elt l j) (Z.to_nat j)) by (apply elt_lookup; lia).
    do 2 f_equal. lia. }
  split; [exact Hl|].
  apply list_eq. intros k.
  assert (length (take (Z.to_nat (j - 1)) l) = Z.to_nat (j - 1)) as Htake
    by (rewrite length_take; lia).
  unfold exchange.
  destruct (decide (k = Z.to_nat (j - 1))) as [->|Hk1].
  { rewrite list_lookup_insert_eq by (rewrite length_insert; lia).
    rewrite lookup_app_r by lia. by rewrite Htake, Nat.sub_diag. }
  rewrite list_lookup_insert_ne by lia.
  destruct (decide (k = Z.to_nat j)) as [->|Hk2].
  { rewrite list_lookup_insert_eq by lia.
    rewrite lookup_app_r by lia. rewrite Htake.
    by replace (Z.to_nat j - Z.to_nat (j - 1))%nat with 1%nat by lia. }
  rewrite list_lookup_insert_ne by lia.
  rewrite Hl at 1.
  destruct (decide (k < Z.to_nat (j - 1))%nat).
  { by rewrite !lookup_app_l by lia. }
  rewrite !(lookup_app_r (take _ _)) by lia. rewrite Htake.
  destruct (k - Z.to_nat (j - 1))%nat as [|[|m]] eqn:Hn; [lia|lia|done].
Qed.

Lemma tied_trans (x y z : A) :
  tied lt x y = true -> tied lt x z = true -> tied lt y z = true.
Proof.
  unfold tied. rewrite !andb_true_iff, !negb_true_iff.
  intros [Hxy Hyx] [Hxz Hzx]. split; eapply lt_ntrans; eauto.
Qed.

Lemma same_ties_exchange (l : list A) (j : Z) :
  0 < j < Z.of_nat (length l) ->
  lt (elt l j) (elt l (j - 1)) = true ->
  same_ties lt l (exchange l j (j - 1)).
Proof.
  intros Hj Hlt x.
  destruct (exchange_neighbours l j Hj) as [Hl ->].
  set (t := take _ l) in *. set (d := drop _ l) in *.
  set (u := elt l (j - 1)) in *. set (v := elt l j) in *.
  clearbody t d u v. rewrite Hl.
  rewrite !List.filter_app. f_equal. f_equal. simpl.
  destruct (tied lt x v) eqn:H1; destruct (tied lt x u) eqn:H2; try done.
  pose proof (tied_trans _ _ _ H1 H2) as H3. unfold tied in H3.
  rewrite Hlt in H3. done.
Qed.

Lemma same_ties_trans (l l1 l2 : list A) :
  same_ties lt l l1 -> same_ties lt l1 l2 -> same_ties lt l l2.
Proof. intros H1 H2 x. by rewrite H2, H1. Qed.

Lemma same_ties_refl (l : list A) : same_ties lt l l.
Proof. by intros x. Qed.

(** *** [insertionSort] *)

Ltac elts :=
  rewrite ?elt_exchange by lia; repeat case_decide; subst; try lia.

Ltac by_hyp :=
  match goal with
  | H : _ |- _ => solve [apply H; lia]
  end.

Lemma insertionSort_inner (a b i : Z) (l0 l : list A) :
  0 <= a -> b <= Z.of_nat (length l0) -> a < i < b ->
  within a b l0 l -> sorted_range lt l a i -> same_ties lt l0 l ->
  wp (for_loop (sort.steps (i - a))
        (fun j =>
           if a <? j then
             bind (sort.less j (j - 1))
               (fun lt0 : bool =>
                  if lt0 then bind (sort.swap j (j - 1)) (fun _ => ret (inr (j - 1)))
                  else ret (inl tt))
           else ret (inl tt)) i)
     (fun _ l' => within a b l0 l' /\ same_ties lt l0 l'
                  /\ sorted_range lt l' a (i + 1)) l.
Proof.
  intros Ha Hb Hi Hw Hs Hties.
  apply (wp_for_loop
           (fun j l' =>
              a <= j <= i /\ within a b l0 l' /\ same_ties lt l0 l'
              /\ sorted_range lt l' a j /\ sorted_range lt l' j (i + 1)
              /\ (forall p q, a <= p < j -> j < q <= i ->
                              lt (elt l' q) (elt l' p) = false))
           (fun j => Z.to_nat (j - a))).
  - intros j l' (Hj & Hw' & Ht' & Hs1 & Hs2 & Hcross).
    pose proof (within_length _ _ _ _ Hw') as Hlen.
    destruct (Z.ltb_spec a j) as [Haj|Haj].
    + apply wp_bind, wp_less; [lia..|].
      destruct (lt (elt l' j) (elt l' (j - 1))) eqn:Hlt.
      * apply wp_bind, wp_swap; [lia..|]. apply wp_ret.
        split; [|lia]. split; [lia|]. split; [apply within_step; [done|lia..]|].
        split; [eapply same_ties_trans; [done|apply same_ties_exchange; [lia|done]]|].
        split; [|split].
        -- intros p q Hp Hpq Hq. elts. by_hyp.
        -- intros p q Hp Hpq Hq. elts; try by_hyp.
           all: try (by apply lt_asym).
        -- intros p q Hp Hq. elts; by_hyp.
      * apply wp_ret. split; [done|]. split; [done|].
        intros p q Hp Hpq Hq.
        destruct (decide (q < j)); [by_hyp|].
        destruct (decide (j <= p)); [by_hyp|].
        destruct (decide (q = j)) as [->|]; [|apply Hcross; lia].
        destruct (decide (p = j - 1)) as [->|]; [done|].
        apply (lt_ntrans _ (elt l' (j - 1))); [done|by_hyp].
    + apply wp_ret. split; [done|]. split; [done|].
      assert (j = a) as -> by lia. done.
  - split; [lia|]. split; [done|]. split; [done|]. split; [done|]. split.
    + intros p q Hp Hpq Hq. lia.
    + intros p q Hp Hq. lia.
  - unfold sort.steps. lia.
Qed.

(** [insertionSort] sorts [l[a:b]] and keeps tied elements in their
    order. *)
Lemma insertionSort_spec (a b : Z) (l : list A) :
  0 <= a -> b <= Z.of_nat (length l) ->
  wp (sort.insertionSort a b)
     (fun _ l' => within a b l l' /\ same_ties lt l l' /\ sorted_range lt l' a b) l.
Proof.
  intros Ha Hb. unfold sort.insertionSort.
  apply (wp_for_loop
           (fun i l' =>
              a < i /\ within a b l l' /\ same_ties lt l l'
              /\ sorted_range lt l' a i)
           (fun i => Z.to_nat (b - i))).
  - intros i l' (Hi & Hw & Ht & Hs).
    destruct (Z.ltb_spec i b) as [Hib|Hib].
    + apply wp_bind.
      eapply wp_mono; [apply (insertionSort_inner a b i l l'); try done; lia|].
      intros _ l'' (Hw' & Ht' & Hs'). apply wp_ret.
      split; [|lia]. split; [lia|]. done.
    + apply wp_ret. split; [done|]. split; [done|].
      eapply sorted_range_mono; [done|lia..].
  - split; [lia|]. split; [constructor|]. split; [apply same_ties_refl|].
    intros p q Hp Hpq Hq. lia.
  - unfold sort.steps. lia.
Qed.

(** *** [reverseRange], [breakPatterns] and [choosePivot] *)

Lemma reverseRange_spec (a b : Z) (l : list A) :
  0 <= a -> b <= Z.of_nat (length l) ->
  wp (sort.reverseRange a b) (fun _ l' => within a b l l') l.
Proof.
  intros Ha Hb. unfold sort.reverseRange.
  apply (wp_for_loop
           (fun '(i, j) l' => a <= i /\ j < b /\ within a b l l')
           (fun '(i, j) => Z.to_nat (j - i + 1))).
  - intros [i j] l' (Hi & Hj & Hw).
    destruct (Z.ltb_spec i j) as [Hij|Hij].
    + pose proof (within_length _ _ _ _ Hw).
      apply wp_bind, wp_swap; [lia..|]. apply wp_ret.
      split; [|lia]. split; [lia|]. split; [lia|].
      apply within_step; [done|lia..].
    + by apply wp_ret.
  - split; [lia|]. split; [lia|]. constructor.
  - unfold sort.steps. lia.
Qed.

Lemma quot_bounds (n d : Z) :
  0 <= n -> 0 < d -> d * (n ÷ d) <= n < d * (n ÷ d) + d.
Proof.
  intros Hn Hd. rewrite Z.quot_div_nonneg by lia.
  pose proof (Z.div_mod n d ltac:(lia)). pose proof (Z.mod_pos_bound n d Hd).
  lia.
Qed.

Lemma xorshift_Next_nonneg (r : Z) : 0 <= r -> 0 <= sort.xorshift_Next r.
Proof.
  intros Hr. unfold sort.xorshift_Next.
  repeat (apply Z.lxor_nonneg; split; intros ?);
    try apply Z.shiftr_nonneg; try (apply Z.mod_pos_bound; lia);
    try (apply Z.lxor_nonneg; split; intros ?); try lia;
    try (apply Z.mod_pos_bound; lia).
Qed.

Lemma nextPowerOfTwo_bounds (n : Z) :
  0 < n -> n < sort.nextPowerOfTwo n <= 2 * n.
Proof.
  intros Hn. unfold sort.nextPowerOfTwo, sort.bits_Len.
  destruct (Z.leb_spec n 0); [lia|].
  rewrite Z.shiftl_1_l.
  pose proof (Z.log2_spec n Hn) as [Hlo Hhi].
  pose proof (Z.log2_nonneg n).
  replace (Z.succ (Z.log2 n)) with (Z.log2 n + 1) in Hhi by lia.
  rewrite Z.pow_add_r in * by lia. lia.
Qed.

Lemma breakPatterns_spec (a b : Z) (l : list A) :
  0 <= a -> b <= Z.of_nat (length l) ->
  wp (sort.breakPatterns a b) (fun _ l' => within a b l l') l.
Proof.
  intros Ha Hb. unfold sort.breakPatterns.
  destruct (Z.leb_spec 8 (b - a)) as [Hlen|Hlen]; [|apply wp_ret; constructor].
  pose proof (quot_bounds (b - a) 4 ltac:(lia) ltac:(lia)) as Hq.
  pose proof (nextPowerOfTwo_bounds (b - a) ltac:(lia)) as Hm.
  apply (wp_for_loop
           (fun '(i, random) l' => 0 <= i /\ 0 <= random /\ within a b l l')
           (fun '(i, random) => Z.to_nat (3 - i))).
  - intros [i random] l' (Hi & Hr & Hw).
    destruct (Z.ltb_spec i 3) as [Hi3|Hi3]; [|by apply wp_ret].
    pose proof (within_length _ _ _ _ Hw).
    pose proof (xorshift_Next_nonneg random Hr) as Hnext.
    set (other := Z.land (sort.xorshift_Next random) (sort.nextPowerOfTwo (b - a) - 1)).
    assert (0 <= other < sort.nextPowerOfTwo (b - a)) as Hother.
    { unfold other, sort.nextPowerOfTwo. rewrite Z.shiftl_1_l.
      assert (0 <= sort.bits_Len (b - a)) as Hbits
        by (unfold sort.bits_Len; destruct (Z.leb_spec (b - a) 0);
            [lia|pose proof (Z.log2_nonneg (b - a)); lia]).
      replace (2 ^ sort.bits_Len (b - a) - 1)
        with (Z.ones (sort.bits_Len (b - a)))
        by (rewrite Z.ones_equiv; lia).
      rewrite Z.land_ones by done. apply Z.mod_pos_bound.
      apply Z.pow_pos_nonneg; lia. }
    apply wp_bind, wp_swap.
    + lia.
    + destruct (Z.leb_spec (b - a) other); lia.
    + apply wp_ret. split; [|lia]. split; [lia|]. split; [done|].
      apply within_step; [done| | |lia..].
      * lia.
      * destruct (Z.leb_spec (b - a) other); lia.
  - split; [lia|]. split; [lia|]. constructor.
  - lia.
Qed.

Lemma order2_spec (x y s : Z) (Q : Z * Z * Z -> list A -> Prop) (l : list A) :
  0 <= x < Z.of_nat (length l) -> 0 <= y < Z.of_nat (length l) ->
  (forall x' y' s', (x' = x /\ y' = y) \/ (x' = y /\ y' = x) -> Q (x', y', s') l) ->
  wp (sort.order2 x y s) Q l.
Proof.
  intros Hx Hy HQ. unfold sort.order2.
  apply wp_bind, wp_less; [lia..|].
  destruct (lt (elt l y) (elt l x)); apply wp_ret, HQ; lia.
Qed.

Lemma median_spec (x y z s : Z) (Q : Z * Z -> list A -> Prop) (l : list A) :
  0 <= x < Z.of_nat (length l) -> 0 <= y < Z.of_nat (length l) ->
  0 <= z < Z.of_nat (length l) ->
  (forall m s', m = x \/ m = y \/ m = z -> Q (m, s') l) ->
  wp (sort.median x y z s) Q l.
Proof.
  intros Hx Hy Hz HQ. unfold sort.median.
  apply wp_bind, order2_spec; [lia..|]. intros x1 y1 s1 H1.
  apply wp_bind, order2_spec; [lia..|]. intros y2 z2 s2 H2.
  apply wp_bind, order2_spec; [lia..|]. intros x3 y3 s3 H3.
  apply wp_ret, HQ. lia.
Qed.

(** [choosePivot] changes nothing and returns an index of the range. *)
Lemma choosePivot_spec (a b : Z) (l : list A) :
  0 <= a -> b <= Z.of_nat (length l) -> 8 <= b - a ->
  wp (sort.choosePivot a b) (fun r l' => l' = l /\ a <= r.1 < b) l.
Proof.
  intros Ha Hb Hlen. unfold sort.choosePivot.
  pose proof (quot_bounds (b - a) 4 ltac:(lia) ltac:(lia)) as Hq.
  assert (forall j s,
             a <= j < b ->
             wp (if s =? 0 then ret (j, sort.increasingHint)
                 else if s =? 4 * 3 then ret (j, sort.decreasingHint)
                      else ret (j, sort.unknownHint))
                (fun r l' => l' = l /\ a <= r.1 < b) l) as Hend.
  { intros j s Hj. repeat case_match; by apply wp_ret. }
  apply wp_bind.
  destruct (Z.leb_spec 8 (b - a)) as [_|?]; [|lia].
  apply wp_bind.
  destruct (Z.leb_spec 50 (b - a)) as [H50|H50].
  - apply wp_bind, median_spec; [lia..|]. intros i s1 Hi.
    apply wp_bind, median_spec; [lia..|]. intros j s2 Hj.
    apply wp_bind, median_spec; [lia..|]. intros k s3 Hk.
    apply wp_ret. apply median_spec; [lia..|]. intros m s4 Hm.
    apply Hend. lia.
  - apply wp_ret. apply median_spec; [lia..|]. intros m s4 Hm.
    apply Hend. lia.
Qed.

(** *** [partition] *)

Lemma scan_up_spec (a b i j : Z) (Q : Z -> list A -> Prop) (l : list A) :
  0 <= a < i -> i <= j + 1 -> j < b -> b <= Z.of_nat (length l) ->
  (forall i',
      i <= i' <= j + 1 ->
      all_in l i i' (fun x => lt x (elt l a) = true) ->
      (i' <= j -> lt (elt l i') (elt l a) = false) ->
      Q i' l) ->
  wp (sort.scan_up a b i j) Q l.
Proof.
  intros Ha Hi Hj Hb HQ. unfold sort.scan_up.
  apply (wp_for_loop
           (fun i' l' =>
              l' = l /\ i <= i' <= j + 1
              /\ all_in l i i' (fun x => lt x (elt l a) = true))
           (fun i' => Z.to_nat (b - i'))).
  - intros i' l' (-> & Hi' & Hall).
    destruct (Z.leb_spec i' j) as [Hij|Hij].
    + apply wp_bind, wp_less; [lia..|].
      destruct (lt (elt l i') (elt l a)) eqn:Hlt; apply wp_ret.
      * split; [|lia]. split; [done|]. split; [lia|].
        intros k Hk. destruct (decide (k = i')) as [->|]; [done|].
        apply Hall. lia.
      * by apply HQ.
    + apply wp_ret. apply HQ; [lia|done|lia].
  - split; [done|]. split; [lia|]. intros k Hk. lia.
  - unfold sort.steps. lia.
Qed.

Lemma scan_down_spec (a i j : Z) (Q : Z -> list A -> Prop) (l : list A) :
  0 <= a < i -> i <= j + 1 -> j < Z.of_nat (length l) ->
  (forall j',
      i - 1 <= j' <= j ->
      all_in l (j' + 1) (j + 1) (fun x => lt x (elt l a) = false) ->
      (i <= j' -> lt (elt l j') (elt l a) = true) ->
      Q j' l) ->
  wp (sort.scan_down a i j) Q l.
Proof.
  intros Ha Hi Hj HQ. unfold sort.scan_down.
  apply (wp_for_loop
           (fun j' l' =>
              l' = l /\ i - 1 <= j' <= j
              /\ all_in l (j' + 1) (j + 1) (fun x => lt x (elt l a) = false))
           (fun j' => Z.to_nat (j' - a))).
  - intros j' l' (-> & Hj' & Hall).
    destruct (Z.leb_spec i j') as [Hij|Hij].
    + apply wp_bind, wp_less; [lia..|].
      destruct (lt (elt l j') (elt l a)) eqn:Hlt; apply wp_ret; simpl.
      * by apply HQ.
      * split; [|lia]. split; [done|]. split; [lia|].
        intros k Hk. destruct (decide (k = j')) as [->|]; [done|].
        apply Hall. lia.
    + apply wp_ret. apply HQ; [lia|done|lia].
  - split; [done|]. split; [lia|]. intros k Hk. lia.
  - unfold sort.steps. lia.
Qed.

(** The last step of [partition]: the pivot, kept at [a], goes between the
    two parts. *)
Lemma partition_finish (a b j : Z) (p : A) (l0 l : list A) :
  0 <= a -> b <= Z.of_nat (length l0) -> a <= j < b ->
  within a b l0 l ->
  elt l a = p ->
  all_in l (a + 1) (j + 1) (fun x => lt x p = true) ->
  all_in l (j + 1) b (fun x => lt x p = false) ->
  within a b l0 (exchange l j a)
  /\ elt (exchange l j a) j = p
  /\ all_in (exchange l j a) a j (fun x => lt x p = true)
  /\ all_in (exchange l j a) (j + 1) b (fun x => lt x p = false).
Proof.
  intros Ha Hb Hj Hw Hp Hlow Hhigh.
  pose proof (within_length _ _ _ _ Hw) as Hlen.
  split; [apply within_step; [done|lia..]|].
  split; [rewrite elt_exchange by lia; repeat case_decide; congruence|].
  split.
  - intros k Hk. rewrite elt_exchange by lia.
    repeat case_decide; try lia; apply Hlow; lia.
  - intros k Hk. rewrite elt_exchange by lia.
    repeat case_decide; try lia. apply Hhigh; lia.
Qed.

Lemma partition_spec (a b pivot : Z) (l : list A) :
  0 <= a -> b <= Z.of_nat (length l) -> a <= pivot < b ->
  wp (sort.partition a b pivot)
     (fun r l' =>
        within a b l l' /\ a <= r.1 < b
        /\ elt l' r.1 = elt l pivot
        /\ all_in l' a r.1 (fun x => lt x (elt l pivot) = true)
        /\ all_in l' (r.1 + 1) b (fun x => lt x (elt l pivot) = false)) l.
Proof.
  intros Ha Hb Hpivot. unfold sort.partition.
  set (p := elt l pivot).
  apply wp_bind, wp_swap; [lia..|].
  set (l1 := exchange l a pivot).
  assert (within a b l l1) as Hw1
    by (apply within_step; [constructor|lia..]).
  assert (elt l1 a = p) as Hp1.
  { unfold l1, p. rewrite elt_exchange by lia. repeat case_decide; subst; done. }
  pose proof (within_length _ _ _ _ Hw1) as Hlen1.
  apply wp_bind, scan_up_spec; [lia..|]. intros i Hi Hlow Hstop_i.
  apply wp_bind, scan_down_spec; [lia..|]. intros j Hj Hhigh Hstop_j.
  rewrite Hp1 in *.
  destruct (Z.ltb_spec j i) as [Hji|Hji].
  { (* the range was partitioned already *)
    apply wp_bind, wp_swap; [lia..|]. apply wp_ret.
    destruct (partition_finish a b j p l l1 Ha Hb ltac:(lia) Hw1 Hp1)
      as (H1 & H2 & H3 & H4).
    { intros k Hk. apply Hlow. lia. }
    { intros k Hk. apply Hhigh. lia. }
    simpl. repeat split; try done; lia. }
  assert (i < j) as Hlt1.
  { destruct (decide (i = j)) as [->|]; [|lia].
    specialize (Hstop_i ltac:(lia)). specialize (Hstop_j ltac:(lia)).
    congruence. }
  apply wp_bind, wp_swap; [lia..|].
  set (l2 := exchange l1 i j).
  apply wp_bind.
  apply (wp_for_loop
           (fun '(i', j') l' =>
              a + 1 <= i' /\ i' <= j' + 1 /\ j' < b
              /\ within a b l l' /\ elt l' a = p
              /\ all_in l' (a + 1) i' (fun x => lt x p = true)
              /\ all_in l' (j' + 1) b (fun x => lt x p = false))
           (fun '(i', j') => Z.to_nat (b - i'))).
  - intros [i' j'] l' (Hi' & Hij' & Hj' & Hw' & Hp' & Hlow' & Hhigh').
    pose proof (within_length _ _ _ _ Hw') as Hlen'.
    apply wp_bind, scan_up_spec; [lia..|]. intros i2 Hi2 Hlow2 Hstop_i2.
    apply wp_bind, scan_down_spec; [lia..|]. intros j2 Hj2 Hhigh2 Hstop_j2.
    rewrite Hp' in *.
    assert (all_in l' (a + 1) i2 (fun x => lt x p = true)) as Hl.
    { intros k Hk. destruct (decide (k < i')); [apply Hlow'|apply Hlow2]; lia. }
    assert (all_in l' (j2 + 1) b (fun x => lt x p = false)) as Hh.
    { intros k Hk. destruct (decide (j' < k)); [apply Hhigh'|apply Hhigh2]; lia. }
    destruct (Z.ltb_spec j2 i2) as [Hji2|Hji2].
    + apply wp_ret. simpl.
      apply wp_bind, wp_swap; [lia..|]. apply wp_ret.
      destruct (partition_finish a b j2 p l l' Ha Hb ltac:(lia) Hw' Hp')
        as (H1 & H2 & H3 & H4).
      { intros k Hk. apply Hl. lia. }
      { done. }
      simpl. repeat split; try done; lia.
    + assert (i2 < j2) as Hlt2.
      { destruct (decide (i2 = j2)) as [->|]; [|lia].
        specialize (Hstop_i2 ltac:(lia)). specialize (Hstop_j2 ltac:(lia)).
        congruence. }
      apply wp_bind, wp_swap; [lia..|]. apply wp_ret.
      split; [|lia]. split; [lia|]. split; [lia|]. split; [lia|].
      split; [apply within_step; [done|lia..]|].
      split; [rewrite elt_exchange by lia; repeat case_decide; try lia; done|].
      split.
      * intros k Hk. rewrite elt_exchange by lia.
        repeat case_decide; try lia; [by apply Hstop_j2; lia|apply Hl; lia].
      * intros k Hk. rewrite elt_exchange by lia.
        repeat case_decide; try lia; [by apply Hstop_i2; lia|apply Hh; lia].
  - split; [lia|]. split; [lia|]. split; [lia|].
    split; [apply within_step; [done|lia..]|].
    split; [unfold l2; rewrite elt_exchange by lia; repeat case_decide; try lia; done|].
    split.
    + intros k Hk. unfold l2. rewrite elt_exchange by lia.
      repeat case_decide; try lia; [by apply Hstop_j; lia|apply Hlow; lia].
    + intros k Hk. unfold l2. rewrite elt_exchange by lia.
      repeat case_decide; try lia; [by apply Hstop_i; lia|apply Hhigh; lia].
  - unfold sort.steps. lia.
Qed.

(** *** [partitionEqual] *)

Lemma skip_equal_spec (a b i j : Z) (Q : Z -> list A -> Prop) (l : list A) :
  0 <= a < i -> i <= j + 1 -> j < b -> b <= Z.of_nat (length l) ->
  (forall i',
      i <= i' <= j + 1 ->
      all_in l i i' (fun x => lt (elt l a) x = false) ->
      (i' <= j -> lt (elt l a) (elt l i') = true) ->
      Q i' l) ->
  wp (sort.skip_equal a b i j) Q l.
Proof.
  intros Ha Hi Hj Hb HQ. unfold sort.skip_equal.
  apply (wp_for_loop
           (fun i' l' =>
              l' = l /\ i <= i' <= j + 1
              /\ all_in l i i' (fun x => lt (elt l a) x = false))
           (fun i' => Z.to_nat (b - i'))).
  - intros i' l' (-> & Hi' & Hall).
    destruct (Z.leb_spec i' j) as [Hij|Hij].
    + apply wp_bind, wp_less; [lia..|].
      destruct (lt (elt l a) (elt l i')) eqn:Hlt; apply wp_ret; simpl.
      * by apply HQ.
      * split; [|lia]. split; [done|]. split; [lia|].
        intros k Hk. destruct (decide (k = i')) as [->|]; [done|].
        apply Hall. lia.
    + apply wp_ret. apply HQ; [lia|done|lia].
  - split; [done|]. split; [lia|]. intros k Hk. lia.
  - unfold sort.steps. lia.
Qed.

Lemma skip_greater_spec (a i j : Z) (Q : Z -> list A -> Prop) (l : list A) :
  0 <= a < i -> i <= j + 1 -> j < Z.of_nat (length l) ->
  (forall j',
      i - 1 <= j' <= j ->
      all_in l (j' + 1) (j + 1) (fun x => lt (elt l a) x = true) ->
      (i <= j' -> lt (elt l a) (elt l j') = false) ->
      Q j' l) ->
  wp (sort.skip_greater a i j) Q l.
Proof.
  intros Ha Hi Hj HQ. unfold sort.skip_greater.
  apply (wp_for_loop
           (fun j' l' =>
              l' = l /\ i - 1 <= j' <= j
              /\ all_in l (j' + 1) (j + 1) (fun x => lt (elt l a) x = true))
           (fun j' => Z.to_nat (j' - a))).
  - intros j' l' (-> & Hj' & Hall).
    destruct (Z.leb_spec i j') as [Hij|Hij].
    + apply wp_bind, wp_less; [lia..|].
      destruct (lt (elt l a) (elt l j')) eqn:Hlt; apply wp_ret; simpl.
      * split; [|lia]. split; [done|]. split; [lia|].
        intros k Hk. destruct (decide (k = j')) as [->|]; [done|].
        apply Hall. lia.
      * by apply HQ.
    + apply wp_ret. apply HQ; [lia|done|lia].
  - split; [done|]. split; [lia|]. intros k Hk. lia.
  - unfold sort.steps. lia.
Qed.

Lemma partitionEqual_spec (a b pivot : Z) (l : list A) :
  0 <= a -> b <= Z.of_nat (length l) -> a <= pivot < b ->
  wp (sort.partitionEqual a b pivot)
     (fun mid l' =>
        within a b l l' /\ a < mid <= b
        /\ all_in l' a mid (fun x => lt (elt l pivot) x = false)
        /\ all_in l' mid b (fun x => lt (elt l pivot) x = true)) l.
Proof.
  intros Ha Hb Hpivot. unfold sort.partitionEqual.
  set (p := elt l pivot).
  apply wp_bind, wp_swap; [lia..|].
  set (l1 := exchange l a pivot).
  assert (within a b l l1) as Hw1
    by (apply within_step; [constructor|lia..]).
  assert (elt l1 a = p) as Hp1.
  { unfold l1, p. rewrite elt_exchange by lia. repeat case_decide; subst; done. }
  apply (wp_for_loop
           (fun '(i, j) l' =>
              a + 1 <= i /\ i <= j + 1 /\ j < b
              /\ within a b l l' /\ elt l' a = p
              /\ all_in l' (a + 1) i (fun x => lt p x = false)
              /\ all_in l' (j + 1) b (fun x => lt p x = true))
           (fun '(i, j) => Z.to_nat (b - i))).
  - intros [i j] l' (Hi & Hij & Hj & Hw' & Hp' & Hlow & Hhigh).
    pose proof (within_length _ _ _ _ Hw') as Hlen'.
    apply wp_bind, skip_equal_spec; [lia..|]. intros i2 Hi2 Hlow2 Hstop_i.
    apply wp_bind, skip_greater_spec; [lia..|]. intros j2 Hj2 Hhigh2 Hstop_j.
    rewrite Hp' in *.
    assert (all_in l' (a + 1) i2 (fun x => lt p x = false)) as Hl.
    { intros k Hk. destruct (decide (k < i)); [apply Hlow|apply Hlow2]; lia. }
    assert (all_in l' (j2 + 1) b (fun x => lt p x = true)) as Hh.
    { intros k Hk. destruct (decide (j < k)); [apply Hhigh|apply Hhigh2]; lia. }
    destruct (Z.ltb_spec j2 i2) as [Hji|Hji].
    + apply wp_ret. split; [done|]. split; [lia|]. split.
      * intros k Hk. destruct (decide (k = a)) as [->|]; [|apply Hl; lia].
        rewrite Hp'. apply lt_irrefl.
      * intros k Hk. apply Hh. lia.
    + assert (i2 < j2) as Hlt2.
      { destruct (decide (i2 = j2)) as [->|]; [|lia].
        specialize (Hstop_i ltac:(lia)). specialize (Hstop_j ltac:(lia)).
        congruence. }
      apply wp_bind, wp_swap; [lia..|]. apply wp_ret.
      split; [|lia]. split; [lia|]. split; [lia|]. split; [lia|].
      split; [apply within_step; [done|lia..]|].
      split; [rewrite elt_exchange by lia; repeat case_decide; try lia; done|].
      split.
      * intros k Hk. rewrite elt_exchange by lia.
        repeat case_decide; try lia; [by apply Hstop_j; lia|apply Hl; lia].
      * intros k Hk. rewrite elt_exchange by lia.
        repeat case_decide; try lia; [by apply Hstop_i; lia|apply Hh; lia].
  - split; [lia|]. split; [lia|]. split; [lia|]. split; [done|]. split; [done|].
    split; intros k Hk; lia.
  - unfold sort.steps. lia.
Qed.

(** *** [partialInsertionSort] *)

Lemma lower_bound_within (a b : Z) (l l' : list A) :
  0 <= a -> within a b l l' -> lower_bound lt l a b -> lower_bound lt l' a b.
Proof.
  intros Ha Hw Hlb Hpos.
  rewrite (within_outside _ _ _ _ Hw (a - 1)) by lia.
  eapply within_all; [done|done|]. by apply Hlb.
Qed.

Lemma sorted_range_extend (l : list A) (a i : Z) :
  sorted_range lt l a i -> a < i ->
  lt (elt l i) (elt l (i - 1)) = false ->
  sorted_range lt l a (i + 1).
Proof.
  intros Hs Hi Hlt p q Hp Hpq Hq.
  destruct (decide (q = i)) as [->|]; [|apply Hs; lia].
  destruct (decide (p = i - 1)) as [->|]; [done|].
  apply (lt_ntrans _ (elt l (i - 1))); [done|apply Hs; lia].
Qed.

Lemma scan_sorted_spec (a b i : Z) (Q : Z -> list A -> Prop) (l : list A) :
  0 <= a < i -> i <= b -> b <= Z.of_nat (length l) ->
  sorted_range lt l a i ->
  (forall i',
      i <= i' <= b -> sorted_range lt l a i' ->
      (i' < b -> lt (elt l i') (elt l (i' - 1)) = true) ->
      Q i' l) ->
  wp (sort.scan_sorted b i) Q l.
Proof.
  intros Ha Hi Hb Hs HQ. unfold sort.scan_sorted.
  apply (wp_for_loop
           (fun i' l' => l' = l /\ i <= i' <= b /\ sorted_range lt l a i')
           (fun i' => Z.to_nat (b - i'))).
  - intros i' l' (-> & Hi' & Hs').
    destruct (Z.ltb_spec i' b) as [Hib|Hib].
    + apply wp_bind, wp_less; [lia..|].
      destruct (lt (elt l i') (elt l (i' - 1))) eqn:Hlt; apply wp_ret; simpl.
      * by apply HQ.
      * split; [|lia]. split; [done|]. split; [lia|].
        apply sorted_range_extend; [done|lia|done].
    + apply wp_ret. apply HQ; [lia|done|lia].
  - done.
  - unfold sort.steps. lia.
Qed.

Lemma shift_left_spec (a b i : Z) (l : list A) :
  0 <= a -> a + 2 <= i -> i <= b -> b <= Z.of_nat (length l) ->
  lower_bound lt l a b ->
  sorted_range lt l a (i - 1) ->
  wp (sort.shift_left i)
     (fun _ l' => within a i l l' /\ sorted_range lt l' a i) l.
Proof.
  intros Ha Hi Hib Hb Hlb Hs. unfold sort.shift_left.
  apply (wp_for_loop
           (fun j l' =>
              a <= j <= i - 1 /\ within a i l l'
              /\ sorted_range lt l' a j /\ sorted_range lt l' j i
              /\ (forall p q, a <= p < j -> j < q < i ->
                              lt (elt l' q) (elt l' p) = false))
           (fun j => Z.to_nat j)).
  - intros j l' (Hj & Hw' & Hs1 & Hs2 & Hcross).
    pose proof (within_length _ _ _ _ Hw') as Hlen.
    assert (sorted_range lt l' a i -> 
            wp (ret (inl tt))
              (fun (r : unit + Z) d' =>
                 match r with
                 | inl _ => within a i l d' /\ sorted_range lt d' a i
                 | inr s' =>
                     (a <= s' <= i - 1 /\ within a i l d'
                      /\ sorted_range lt d' a s' /\ sorted_range lt d' s' i
                      /\ (forall p q, a <= p < s' -> s' < q < i ->
                                      lt (elt d' q) (elt d' p) = false))
                     /\ (Z.to_nat s' < Z.to_nat j)%nat
                 end) l') as Hdone by (intros; by apply wp_ret).
    destruct (Z.leb_spec 1 j) as [H1j|H1j].
    + apply wp_bind, wp_less; [lia..|].
      destruct (lt (elt l' j) (elt l' (j - 1))) eqn:Hlt; simpl.
      * assert (a < j) as Haj.
        { destruct (decide (j = a)) as [->|]; [|lia].
          assert (lower_bound lt l' a b) as Hlb'
            by (eapply lower_bound_within;
                [done|eapply within_mono; [done|lia..]|done]).
          rewrite (Hlb' ltac:(lia) a) in Hlt by lia. done. }
        apply wp_bind, wp_swap; [lia..|]. apply wp_ret.
        split; [|lia]. split; [lia|]. split; [apply within_step; [done|lia..]|].
        split; [|split].
        -- intros p q Hp Hpq Hq. elts. by_hyp.
        -- intros p q Hp Hpq Hq. elts; try by_hyp.
           all: try (by apply lt_asym).
        -- intros p q Hp Hq. elts; by_hyp.
      * apply Hdone.
        intros p q Hp Hpq Hq.
        destruct (decide (q < j)); [by_hyp|].
        destruct (decide (j <= p)); [by_hyp|].
        destruct (decide (q = j)) as [->|]; [|apply Hcross; lia].
        destruct (decide (p = j - 1)) as [->|]; [done|].
        apply (lt_ntrans _ (elt l' (j - 1))); [done|by_hyp].
    + apply Hdone. assert (j = a) as -> by lia. done.
  - split; [lia|]. split; [constructor|]. split; [done|]. split.
    + intros p q Hp Hpq Hq. lia.
    + intros p q Hp Hq. lia.
  - unfold sort.steps. lia.
Qed.

Lemma shift_right_spec (b i : Z) (l : list A) :
  0 < i -> i + 2 <= b -> b <= Z.of_nat (length l) ->
  wp (sort.shift_right b i) (fun _ l' => within i b l l') l.
Proof.
  intros Hi Hib Hb. unfold sort.shift_right.
  apply (wp_for_loop
           (fun j l' => i + 1 <= j <= b /\ within i b l l')
           (fun j => Z.to_nat (b - j))).
  - intros j l' (Hj & Hw').
    pose proof (within_length _ _ _ _ Hw') as Hlen.
    destruct (Z.ltb_spec j b) as [Hjb|Hjb]; [|by apply wp_ret].
    apply wp_bind, wp_less; [lia..|].
    destruct (lt (elt l' j) (elt l' (j - 1))); simpl; [|by apply wp_ret].
    apply wp_bind, wp_swap; [lia..|]. apply wp_ret.
    split; [|lia]. split; [lia|]. apply within_step; [done|lia..].
  - split; [lia|]. constructor.
  - unfold sort.steps. lia.
Qed.

(** [partialInsertionSort] answers true only when it leaves the range
    sorted. *)
Lemma partialInsertionSort_spec (a b : Z) (l : list A) :
  0 <= a -> a < b -> b <= Z.of_nat (length l) ->
  lower_bound lt l a b ->
  wp (sort.partialInsertionSort a b)
     (fun r l' => within a b l l' /\ (r = true -> sorted_range lt l' a b)) l.
Proof.
  intros Ha Hab Hb Hlb. unfold sort.partialInsertionSort.
  apply (wp_for_loop
           (fun '(i, j) l' =>
              a + 1 <= i <= b /\ within a b l l' /\ sorted_range lt l' a i)
           (fun '(i, j) => Z.to_nat (5 - j))).
  - intros [i j] l' (Hi & Hw & Hs).
    pose proof (within_length _ _ _ _ Hw) as Hlen.
    destruct (Z.ltb_spec j 5) as [Hj|Hj]; [|by apply wp_ret].
    apply wp_bind, (scan_sorted_spec a); [lia..|done|].
    intros i2 Hi2 Hs2 Hstop.
    destruct (Z.eqb_spec i2 b) as [->|Hne]; [by apply wp_ret|].
    destruct (Z.ltb_spec (b - a) 50) as [?|H50]; [by apply wp_ret|].
    apply wp_bind, wp_swap; [lia..|].
    set (l1 := exchange l' i2 (i2 - 1)).
    assert (within a b l l1) as Hw1 by (apply within_step; [done|lia..]).
    assert (sorted_range lt l1 a (i2 - 1)) as Hs1.
    { intros p q Hp Hpq Hq. unfold l1. elts. by_hyp. }
    assert (lower_bound lt l1 a b) as Hlb1
      by (eapply lower_bound_within; done).
    pose proof (within_length _ _ _ _ Hw1) as Hlen1.
    apply wp_bind.
    assert (wp (if 2 <=? i2 - a then sort.shift_left i2 else ret tt)
              (fun _ l2 => within a b l l2 /\ sorted_range lt l2 a i2) l1)
      as Hleft.
    { destruct (Z.leb_spec 2 (i2 - a)).
      - eapply wp_mono;
          [apply (shift_left_spec a b i2 l1); try done; lia|].
        intros [] l2 [Hw2 Hs2']. split; [|done].
        eapply within_trans; [done|]. eapply within_mono; [done|lia..].
      - apply wp_ret. split; [done|]. intros p q Hp Hpq Hq. lia. }
    eapply wp_mono; [exact Hleft|]. intros [] l2 [Hw2 Hs2']. simpl.
    pose proof (within_length _ _ _ _ Hw2) as Hlen2.
    apply wp_bind.
    assert (wp (if 2 <=? b - i2 then sort.shift_right b i2 else ret tt)
              (fun _ l3 => within a b l l3 /\ sorted_range lt l3 a i2) l2)
      as Hright.
    { destruct (Z.leb_spec 2 (b - i2)).
      - eapply wp_mono; [apply (shift_right_spec b i2 l2); lia|].
        intros [] l3 Hw3. split.
        + eapply within_trans; [done|]. eapply within_mono; [done|lia..].
        + intros p q Hp Hpq Hq.
          rewrite !(within_outside _ _ _ _ Hw3) by lia. by apply Hs2'.
      - by apply wp_ret. }
    eapply wp_mono; [exact Hright|]. intros [] l3 [Hw3 Hs3]. simpl.
    apply wp_ret. split; [|lia]. split; [lia|]. done.
  - split; [lia|]. split; [constructor|]. intros p q Hp Hpq Hq. lia.
  - lia.
Qed.

(** *** [heapSort] *)

Lemma siftDown_spec (lo hi first : Z) (l : list A) :
  0 <= first -> 0 <= lo -> first + hi <= Z.of_nat (length l) ->
  heap lt l first (lo + 1) hi ->
  wp (sort.siftDown lo hi first)
     (fun _ l' => within (first + lo) (first + hi) l l' /\ heap lt l' first lo hi) l.
Proof.
  intros Hfirst Hlo Hhi Hheap. unfold sort.siftDown.
  apply (wp_for_loop
           (fun root l' =>
              lo <= root /\ within (first + lo) (first + hi) l l'
              /\ (forall k, lo <= k -> k <> root -> heap_at lt l' first hi k)
              /\ (forall k c, lo <= k -> root = 2 * k + 1 \/ root = 2 * k + 2 ->
                              c = 2 * root + 1 \/ c = 2 * root + 2 -> c < hi ->
                              lt (elt l' (first + k)) (elt l' (first + c)) = false))
           (fun root => Z.to_nat (hi - root))).
  - intros root l' (Hroot & Hw & Hothers & Hgrand).
    pose proof (within_length _ _ _ _ Hw) as Hlen.
    destruct (Z.leb_spec hi (2 * root + 1)) as [Hleaf|Hchild].
    { apply wp_ret. split; [done|]. intros k Hk.
      destruct (decide (k = root)) as [->|]; [|by apply Hothers].
      intros c Hc Hchi. lia. }
    apply wp_bind.
    (* the greater child *)
    assert (wp (if 2 * root + 1 + 1 <? hi
                then bind (sort.less (first + (2 * root + 1))
                             (first + (2 * root + 1) + 1))
                       (fun lt0 : bool =>
                          ret (if lt0 then 2 * root + 1 + 1 else 2 * root + 1))
                else ret (2 * root + 1))
              (fun child d' =>
                 d' = l' /\ (child = 2 * root + 1 \/ child = 2 * root + 2)
                 /\ child < hi
                 /\ forall c, c = 2 * root + 1 \/ c = 2 * root + 2 -> c < hi ->
                              lt (elt l' (first + child)) (elt l' (first + c)) = false)
              l') as Hgreater.
    { destruct (Z.ltb_spec (2 * root + 1 + 1) hi) as [Htwo|Hone].
      - apply wp_bind, wp_less; [lia..|].
        destruct (lt (elt l' (first + (2 * root + 1)))
                    (elt l' (first + (2 * root + 1) + 1))) eqn:Hlt;
          apply wp_ret; (split; [done|]); (split; [lia|]); (split; [lia|]);
          intros c [->| ->] Hc.
        + replace (first + (2 * root + 1 + 1)) with (first + (2 * root + 1) + 1)
            by lia.
          by apply lt_asym.
        + replace (first + (2 * root + 2)) with (first + (2 * root + 1 + 1)) by lia.
          apply lt_irrefl.
        + apply lt_irrefl.
        + by replace (first + (2 * root + 2)) with (first + (2 * root + 1) + 1)
            by lia.
      - apply wp_ret. split; [done|]. split; [lia|]. split; [lia|].
        intros c [->| ->] Hc; [apply lt_irrefl|lia]. }
    eapply wp_mono; [exact Hgreater|].
    intros child d' (-> & Hchild_is & Hchild_hi & Hmax). simpl.
    apply wp_bind, wp_less; [lia..|].
    destruct (lt (elt l' (first + root)) (elt l' (first + child))) eqn:Hlt; simpl.
    + (* the root goes down *)
      apply wp_bind, wp_swap; [lia..|]. apply wp_ret.
      split; [|lia]. split; [lia|].
      split; [apply within_step; [done|lia..]|]. split.
      * intros k Hk Hne c Hc Hchi.
        rewrite !elt_exchange by lia.
        destruct (decide (k = root)) as [->|Hkr].
        -- repeat case_decide; try lia.
           ++ by apply lt_asym.
           ++ apply Hmax; [lia|done].
        -- destruct (decide (root = c)) as [<-|Hrc].
           ++ repeat case_decide; try lia.
              apply (Hgrand k child); [lia..|done].
           ++ repeat case_decide; try lia.
              apply (Hothers k Hk Hkr c Hc Hchi).
      * intros k c Hk Hparent Hc Hchi.
        assert (k = root) as -> by lia.
        rewrite !elt_exchange by lia. repeat case_decide; try lia.
        apply (Hothers child); [lia..|done].
    + (* the heap is in order *)
      apply wp_ret. split; [done|]. intros k Hk.
      destruct (decide (k = root)) as [->|]; [|by apply Hothers].
      intros c Hc Hchi.
      apply (lt_ntrans _ (elt l' (first + child))); [done|by apply Hmax].
  - split; [lia|]. split; [constructor|]. split.
    + intros k Hk Hne. apply Hheap. lia.
    + intros k c Hk Hparent. lia.
  - unfold sort.steps. lia.
Qed.

Lemma heap_root_max (l : list A) (first n : Z) :
  heap lt l first 0 n ->
  forall k, 0 <= k < n -> lt (elt l first) (elt l (first + k)) = false.
Proof.
  intros Hheap k.
  remember (Z.to_nat k) as m eqn:Hm. revert k Hm.
  induction m as [m IH] using lt_wf_ind. intros k -> Hk.
  destruct (decide (k = 0)) as [->|Hpos].
  { rewrite Z.add_0_r. apply lt_irrefl. }
  set (q := (k - 1) / 2).
  assert (k = 2 * q + 1 \/ k = 2 * q + 2) as Hq.
  { unfold q. pose proof (Z.div_mod (k - 1) 2 ltac:(lia)).
    pose proof (Z.mod_pos_bound (k - 1) 2 ltac:(lia)). lia. }
  apply (lt_ntrans _ (elt l (first + q))).
  - apply (IH (Z.to_nat q)); lia.
  - apply (Hheap q); [lia|done|lia].
Qed.

Lemma heapSort_spec (a b : Z) (l : list A) :
  0 <= a -> a < b -> b <= Z.of_nat (length l) ->
  wp (sort.heapSort a b)
     (fun _ l' => within a b l l' /\ sorted_range lt l' a b) l.
Proof.
  intros Ha Hab Hb. unfold sort.heapSort.
  pose proof (quot_bounds (b - a - 1) 2 ltac:(lia) ltac:(lia)) as Hq.
  apply wp_bind.
  (* building the heap *)
  apply (wp_for_loop
           (fun i l' => -1 <= i /\ within a b l l' /\ heap lt l' a (i + 1) (b - a))
           (fun i => Z.to_nat (i + 1))).
  - intros i l' (Hi & Hw & Hheap).
    pose proof (within_length _ _ _ _ Hw) as Hlen.
    destruct (Z.leb_spec 0 i) as [Hi0|Hi0].
    + apply wp_bind.
      eapply wp_mono; [apply (siftDown_spec i (b - a) a l'); try done; lia|].
      intros [] l2 [Hw2 Hheap2]. apply wp_ret.
      split; [|lia]. split; [lia|]. split.
      * eapply within_trans; [done|]. eapply within_mono; [done|lia..].
      * by replace (i - 1 + 1) with i by lia.
    + apply wp_ret. assert (i = -1) as -> by lia.
      (* taking the greatest element out, again and again *)
      apply (wp_for_loop
               (fun i l2 =>
                  -1 <= i < b - a /\ within a b l l2
                  /\ heap lt l2 a 0 (i + 1)
                  /\ sorted_range lt l2 (a + i + 1) b
                  /\ (forall p q, a <= p <= a + i -> a + i < q < b ->
                                  lt (elt l2 q) (elt l2 p) = false))
               (fun i => Z.to_nat (i + 1))).
      * intros i l2 (Hi' & Hw2 & Hheap2 & Hs2 & Hcross).
        pose proof (within_length _ _ _ _ Hw2) as Hlen2.
        destruct (Z.leb_spec 0 i) as [Hi0'|Hi0'].
        -- apply wp_bind, wp_swap; [lia..|].
           set (l3 := exchange l2 a (a + i)).
           assert (within a b l l3) as Hw3 by (apply within_step; [done|lia..]).
           pose proof (within_length _ _ _ _ Hw3) as Hlen3.
           pose proof (heap_root_max l2 a (i + 1) Hheap2) as Hmax.
           apply wp_bind.
           eapply wp_mono; [apply (siftDown_spec 0 i a l3); try done; try lia|].
           { intros k Hk c Hc Hci. unfold l3.
             rewrite !elt_exchange by lia. repeat case_decide; try lia.
             apply (Hheap2 k); [lia|done|lia]. }
           intros [] l4 [Hw4 Hheap4]. apply wp_ret.
           assert (forall k, a + i <= k -> elt l4 k = elt l3 k) as Hsame
             by (intros k Hk; apply (within_outside _ _ _ _ Hw4); lia).
           assert (forall k, a + i < k -> elt l3 k = elt l2 k) as Hsame3.
           { intros k Hk. unfold l3. rewrite elt_exchange by lia.
             repeat case_decide; try lia; done. }
           assert (elt l3 (a + i) = elt l2 a) as Htop.
           { unfold l3. rewrite elt_exchange by lia.
             repeat case_decide; try lia; done. }
           assert (forall P : A -> Prop,
                      all_in l2 a (a + i + 1) P -> all_in l4 a (a + i) P) as Hsub.
           { intros P HP k Hk.
             apply (within_all (a + 0) (a + i) l3 l4 P ltac:(lia) Hw4); [|lia].
             intros k' Hk'. unfold l3. rewrite elt_exchange by lia.
             repeat case_decide; apply HP; lia. }
           split; [|lia]. split; [lia|].
           split; [eapply within_trans; [done|];
                   eapply within_mono; [done|lia..]|].
           split; [by replace (i - 1 + 1) with i by lia|].
           split.
           ++ intros p q Hp Hpq Hqb.
              rewrite !Hsame by lia.
              destruct (decide (p = a + i)) as [->|].
              ** rewrite Htop, Hsame3 by lia. apply Hcross; lia.
              ** rewrite !Hsame3 by lia. apply Hs2; lia.
           ++ intros p q Hp Hqb. rewrite (Hsame q) by lia.
              destruct (decide (q = a + i)) as [->|].
              ** rewrite Htop.
                 apply (Hsub (fun y => lt (elt l2 a) y = false)); [|lia].
                 intros k Hk. replace k with (a + (k - a)) by lia.
                 apply Hmax. lia.
              ** rewrite Hsame3 by lia.
                 apply (Hsub (fun y => lt (elt l2 q) y = false)); [|lia].
                 intros k Hk. apply Hcross; lia.
        -- apply wp_ret. assert (i = -1) as -> by lia.
           split; [done|]. by replace (a + -1 + 1) with a in Hs2 by lia.
      * split; [lia|]. split; [done|].
        split; [by replace (b - a - 1 + 1) with (b - a) by lia|].
        split.
        -- intros p q Hp Hpq Hqb. lia.
        -- intros p q Hp Hqb. lia.
      * unfold sort.steps. lia.
  - split; [lia|]. split; [constructor|].
    intros k Hk c Hc Hchi. lia.
  - unfold sort.steps. lia.
Qed.

(** *** [pdqsort] *)

Lemma sorted_range_outside (l l' : list A) (a b u v : Z) :
  sorted_range lt l a b -> within u v l l' -> 0 <= a -> b <= u \/ v <= a ->
  sorted_range lt l' a b.
Proof.
  intros Hs Hw Ha Hdis i j Hi Hij Hj.
  rewrite !(within_outside _ _ _ _ Hw) by lia. by apply Hs.
Qed.

Lemma partitioned_left (l l' : list A) (a mid b : Z) (p : A) :
  0 <= a -> a <= mid -> partitioned lt l a mid b p -> within a mid l l' ->
  partitioned lt l' a mid b p.
Proof.
  intros Ha Hmid (Hp & Hlow & Hhigh) Hw. split; [|split].
  - by rewrite (within_outside _ _ _ _ Hw) by lia.
  - by eapply within_all.
  - intros k Hk. rewrite (within_outside _ _ _ _ Hw) by lia. by apply Hhigh.
Qed.

Lemma partitioned_right (l l' : list A) (a mid b : Z) (p : A) :
  0 <= a -> a <= mid -> partitioned lt l a mid b p -> within (mid + 1) b l l' ->
  partitioned lt l' a mid b p.
Proof.
  intros Ha Hmid (Hp & Hlow & Hhigh) Hw. split; [|split].
  - by rewrite (within_outside _ _ _ _ Hw) by lia.
  - intros k Hk. rewrite (within_outside _ _ _ _ Hw) by lia. by apply Hlow.
  - eapply within_all; [|done..]. lia.
Qed.

Lemma sorted_partitioned (l : list A) (a mid b : Z) (p : A) :
  partitioned lt l a mid b p ->
  sorted_range lt l a mid -> sorted_range lt l (mid + 1) b ->
  sorted_range lt l a b.
Proof.
  intros (Hp & Hlow & Hhigh) Hs1 Hs2 i j Hi Hij Hj.
  destruct (decide (j < mid)); [apply Hs1; lia|].
  destruct (decide (mid < i)); [apply Hs2; lia|].
  destruct (decide (j = mid)) as [->|].
  { rewrite Hp. apply lt_asym, Hlow. lia. }
  destruct (decide (i = mid)) as [->|].
  { rewrite Hp. apply Hhigh. lia. }
  destruct (lt (elt l j) (elt l i)) eqn:Hlt; [|done].
  rewrite <- (Hhigh j ltac:(lia)). symmetry.
  apply (lt_trans _ (elt l i)); [done|apply Hlow; lia].
Qed.

Lemma sorted_equal_part (l : list A) (a mid b : Z) (p : A) :
  all_in l a mid (fun x => lt p x = false) ->
  all_in l a mid (fun x => lt x p = false) ->
  all_in l mid b (fun x => lt p x = true) ->
  sorted_range lt l mid b ->
  sorted_range lt l a b.
Proof.
  intros Hle Hge Hgt Hs i j Hi Hij Hj.
  destruct (decide (mid <= i)); [apply Hs; lia|].
  destruct (decide (j < mid)).
  { apply (lt_ntrans _ p); [apply Hge|apply Hle]; lia. }
  destruct (lt (elt l j) (elt l i)) eqn:Hlt; [|done].
  rewrite <- (Hle i ltac:(lia)). symmetry.
  apply (lt_trans _ (elt l j)); [apply Hgt; lia|done].
Qed.

Lemma lower_bound_sub (l : list A) (a b b' : Z) :
  lower_bound lt l a b -> b' <= b -> lower_bound lt l a b'.
Proof. intros Hlb Hb Ha k Hk. apply Hlb; lia. Qed.

(** [pdqsort] sorts [l[a:b]], given a budget above the length of the
    range. *)
Lemma pdqsort_spec (fuel : nat) :
  forall (a b limit : Z) (l : list A),
    0 <= a -> a <= b -> b <= Z.of_nat (length l) ->
    lower_bound lt l a b ->
    b - a < Z.of_nat fuel ->
    wp (sort.pdqsort fuel a b limit)
       (fun _ l' => within a b l l' /\ sorted_range lt l' a b) l.
Proof.
  induction fuel as [|fuel IH]; intros a b limit l Ha Hab Hb Hlb Hfuel; [lia|].
  cbn [sort.pdqsort].
  apply (wp_for_loop
           (fun '(a', b', limit', wasBalanced, wasPartitioned) l' =>
              a <= a' /\ a' <= b' /\ b' <= b /\ within a b l l'
              /\ lower_bound lt l' a' b'
              /\ (forall l'', within a' b' l' l'' -> sorted_range lt l'' a' b' ->
                              sorted_range lt l'' a b))
           (fun '(a', b', _, _, _) => Z.to_nat (b' - a'))).
  - intros [[[[a' b'] limit'] wasBalanced] wasPartitioned] l'
      (Ha' & Hab' & Hb' & Hw & Hlb' & Hinv).
    pose proof (within_length _ _ _ _ Hw) as Hlen.
    assert (forall l'', within a' b' l' l'' -> within a b l l'') as Hwhole.
    { intros l'' Hw''.
      eapply within_trans; [done|]. eapply within_mono; [done|lia..]. }
    assert (forall l'', within a' b' l' l'' -> sorted_range lt l'' a' b' ->
                        within a b l l'' /\ sorted_range lt l'' a b) as Hexit.
    { intros l'' Hw'' Hs''. split; [by apply Hwhole|by apply Hinv]. }
    destruct (Z.leb_spec (b' - a') 12) as [Hshort|Hlong].
    { apply wp_bind.
      eapply wp_mono; [apply insertionSort_spec; lia|].
      intros [] l2 (Hw2 & _ & Hs2). apply wp_ret. by apply Hexit. }
    destruct (Z.eqb_spec limit' 0) as [Hlimit|Hlimit].
    { apply wp_bind.
      eapply wp_mono; [apply heapSort_spec; lia|].
      intros [] l2 (Hw2 & Hs2). apply wp_ret. by apply Hexit. }
    (* breaking patterns *)
    apply wp_bind.
    assert (wp (if negb wasBalanced
                then bind (sort.breakPatterns a' b') (fun _ => ret (limit' - 1))
                else ret limit')
              (fun _ l1 => within a' b' l' l1) l') as Hstep1.
    { destruct wasBalanced; simpl; [apply wp_ret; constructor|].
      apply wp_bind.
      eapply wp_mono; [apply breakPatterns_spec; lia|].
      intros [] l1 Hw1. by apply wp_ret. }
    eapply wp_mono; [exact Hstep1|]. clear Hstep1.
    intros limit1 l1 Hw1. simpl. cbv beta in Hw1.
    pose proof (within_length _ _ _ _ Hw1) as Hlen1.
    (* the pivot *)
    apply wp_bind.
    eapply wp_mono; [apply choosePivot_spec; lia|].
    intros [pivot hint] ? [-> Hpivot]. simpl in Hpivot. simpl.
    apply wp_bind.
    assert (wp (match hint with
                | sort.decreasingHint =>
                    bind (sort.reverseRange a' b')
                      (fun _ => ret (b' - 1 - (pivot - a'), sort.increasingHint))
                | _ => ret (pivot, hint)
                end)
              (fun r l2 => within a' b' l' l2 /\ a' <= r.1 < b') l1) as Hstep2.
    { destruct hint; try (by apply wp_ret).
      apply wp_bind.
      eapply wp_mono; [apply reverseRange_spec; lia|].
      intros [] l2 Hw2. apply wp_ret. split; [|simpl; lia].
      by eapply within_trans. }
    eapply wp_mono; [exact Hstep2|]. clear Hstep2.
    intros [pivot2 hint2] l2 [Hw2 Hpivot2]. simpl in Hpivot2. simpl.
    cbv beta in Hw2.
    pose proof (within_length _ _ _ _ Hw2) as Hlen2.
    (* the range may be sorted already *)
    apply wp_bind.
    assert (wp (if wasBalanced && wasPartitioned
                   && match hint2 with sort.increasingHint => true | _ => false end
                then sort.partialInsertionSort a' b'
                else ret false)
              (fun r l3 => within a' b' l' l3
                           /\ (r = true -> sorted_range lt l3 a' b')) l2)
      as Hstep3.
    { destruct (wasBalanced && wasPartitioned && _); [|by apply wp_ret].
      eapply wp_mono.
      - apply partialInsertionSort_spec; try lia.
        eapply lower_bound_within; [lia|done|done].
      - intros r l3 [Hw3 Hs3]. split; [by eapply within_trans|done]. }
    eapply wp_mono; [exact Hstep3|]. clear Hstep3.
    intros sorted l3 [Hw3 Hs3]. simpl. cbv beta in Hw3, Hs3.
    destruct sorted; [apply wp_ret; by apply Hexit; [|apply Hs3]|].
    clear Hs3.
    pose proof (within_length _ _ _ _ Hw3) as Hlen3.
    assert (lower_bound lt l3 a' b') as Hlb3
      by (eapply lower_bound_within; [lia|done|done]).
    (* many equal elements *)
    apply wp_bind.
    assert (wp (if 0 <? a'
                then bind (sort.less (a' - 1) pivot2) (fun lt0 : bool => ret (negb lt0))
                else ret false)
              (fun dup d' =>
                 d' = l3
                 /\ (dup = true ->
                     0 < a' /\ lt (elt l3 (a' - 1)) (elt l3 pivot2) = false)) l3)
      as Hstep4.
    { destruct (Z.ltb_spec 0 a'); [|by apply wp_ret].
      apply wp_bind, wp_less; [lia..|]. apply wp_ret. split; [done|].
      intros Hneg. split; [done|]. by apply negb_true_iff. }
    eapply wp_mono; [exact Hstep4|]. clear Hstep4.
    intros dup ? [-> Hdup]. simpl.
    destruct dup.
    + (* partitionEqual *)
      destruct (Hdup eq_refl) as [Hpos Hle]. clear Hdup.
      apply wp_bind.
      eapply wp_mono; [apply partitionEqual_spec; lia|].
      intros mid l4 (Hw4 & Hmid & Hequal & Hgreater). apply wp_ret.
      set (p := elt l3 pivot2) in *.
      assert (within a' b' l' l4) as Hw4' by (by eapply within_trans).
      pose proof (within_length _ _ _ _ Hw4') as Hlen4.
      assert (all_in l4 a' b' (fun x => lt x p = false)) as Hge.
      { apply (within_all a' b' l3 l4 _ ltac:(lia) Hw4). intros k Hk.
        apply (lt_ntrans _ (elt l3 (a' - 1))); [by apply Hlb3|done]. }
      split; [|lia]. split; [lia|]. split; [lia|]. split; [done|].
      split; [by apply Hwhole|]. split.
      * intros _ k Hk.
        destruct (lt (elt l4 k) (elt l4 (mid - 1))) eqn:Hlt; [|done].
        rewrite <- (Hequal (mid - 1) ltac:(lia)). symmetry.
        apply (lt_trans _ (elt l4 k)); [apply Hgreater; lia|done].
      * intros l'' Hw'' Hs''. apply Hinv.
        { eapply within_trans; [done|]. eapply within_mono; [done|lia..]. }
        apply (sorted_equal_part _ _ mid _ p); [| | |done].
        -- intros k Hk. rewrite (within_outside _ _ _ _ Hw'') by lia.
           apply Hequal. lia.
        -- intros k Hk. rewrite (within_outside _ _ _ _ Hw'') by lia.
           apply Hge. lia.
        -- eapply within_all; [lia|done|done].
    + (* partition *)
      clear Hdup. apply wp_bind.
      eapply wp_mono; [apply partition_spec; lia|].
      intros [mid alreadyPartitioned] l4
        (Hw4 & Hmid & Hpiv & Hless & Hnotless). simpl in *.
      set (p := elt l3 pivot2) in *.
      assert (within a' b' l' l4) as Hw4' by (by eapply within_trans).
      pose proof (within_length _ _ _ _ Hw4') as Hlen4.
      assert (lower_bound lt l4 a' b') as Hlb4
        by (eapply lower_bound_within; [lia|done|done]).
      assert (partitioned lt l4 a' mid b' p) as Hpart by done.
      assert (lower_bound lt l4 (mid + 1) b') as Hlb_right.
      { intros _ k Hk. replace (mid + 1 - 1) with mid by lia.
        rewrite Hpiv. by apply Hnotless. }
      destruct (Z.ltb_spec (mid - a') (b' - mid)) as [Hside|Hside].
      * (* the left part is sorted by the nested call *)
        apply wp_bind.
        eapply wp_mono;
          [apply (IH a' mid limit1 l4); try lia;
           apply (lower_bound_sub _ _ b'); [done|lia]|].
        intros [] l5 (Hw5 & Hs5). apply wp_ret.
        pose proof (partitioned_left l4 l5 a' mid b' p ltac:(lia) ltac:(lia) Hpart Hw5)
          as Hpart5.
        assert (within a' b' l' l5) as Hw5'.
        { eapply within_trans; [done|]. eapply within_mono; [done|lia..]. }
        split; [|lia]. split; [lia|]. split; [lia|]. split; [done|].
        split; [by apply Hwhole|]. split.
        -- intros _ k Hk. replace (mid + 1 - 1) with mid by lia.
           destruct Hpart5 as (-> & _ & Hhigh5). by apply Hhigh5.
        -- intros l'' Hw'' Hs''. apply Hinv.
           { eapply within_trans; [done|]. eapply within_mono; [done|lia..]. }
           apply (sorted_partitioned _ _ mid _ p); [|
             eapply sorted_range_outside; [done|done|lia|lia]|done].
           eapply partitioned_right; [| |done|done]; lia.
      * (* the right part is sorted by the nested call *)
        apply wp_bind.
        eapply wp_mono; [apply (IH (mid + 1) b' limit1 l4); try lia; done|].
        intros [] l5 (Hw5 & Hs5). apply wp_ret.
        pose proof (partitioned_right l4 l5 a' mid b' p ltac:(lia) ltac:(lia) Hpart Hw5)
          as Hpart5.
        assert (within a' b' l' l5) as Hw5'.
        { eapply within_trans; [done|]. eapply within_mono; [done|lia..]. }
        split; [|lia]. split; [lia|]. split; [lia|]. split; [lia|].
        split; [by apply Hwhole|]. split.
        -- apply (lower_bound_sub _ _ b'); [|lia].
           apply (lower_bound_within a' b' l4 l5);
             [lia|eapply within_mono; [exact Hw5|lia..]|exact Hlb4].
        -- intros l'' Hw'' Hs''. apply Hinv.
           { eapply within_trans; [done|]. eapply within_mono; [done|lia..]. }
           apply (sorted_partitioned _ _ mid _ p); [|done|
             eapply sorted_range_outside; [done|done|lia|lia]].
           eapply partitioned_left; [| |done|done]; lia.
  - split; [lia|]. split; [lia|]. split; [lia|]. split; [constructor|].
    split; [done|]. done.
  - unfold sort.steps. lia.
Qed.

(** *** [Sort] *)

Lemma pdqsort_short (fuel : nat) (a b limit : Z) (l : list A) (Q : unit -> list A -> Prop) :
  b - a <= 12 ->
  wp (sort.insertionSort a b) Q l ->
  wp (sort.pdqsort (S fuel) a b limit) Q l.
Proof.
  intros Hshort Hins. cbn [sort.pdqsort]. unfold sort.steps. cbn [for_loop].
  destruct (Z.leb_spec (b - a) 12) as [_|?]; [|lia].
  unfold wp, bind, ret in *.
  by destruct (sort.insertionSort a b l) as [[[] l']| |].
Qed.

(** [sort.Sort] on a slice ordered by a strict weak order returns, for
    every slice: the result is a permutation of the slice, it is in order,
    and on at most 12 elements tied elements keep their places. *)
Lemma Sort_spec (l : list A) :
  wp sort.Sort
     (fun _ l' =>
        Permutation l l'
        /\ sorted_range lt l' 0 (Z.of_nat (length l'))
        /\ ((length l <= 12)%nat -> same_ties lt l l')) l.
Proof.
  unfold wp, sort.Sort. cbn [Len slice_I slice_Interface].
  destruct (Z.leb_spec (Z.of_nat (length l)) 1) as [Hsmall|Hbig].
  { split; [done|]. split; [|intros _; apply same_ties_refl].
    intros i j Hi Hij Hj. lia. }
  fold (wp (sort.pdqsort (sort.steps (Z.of_nat (length l))) 0 (Z.of_nat (length l))
              (sort.bits_Len (Z.of_nat (length l))))
          (fun _ l' =>
             Permutation l l'
             /\ sorted_range lt l' 0 (Z.of_nat (length l'))
             /\ ((length l <= 12)%nat -> same_ties lt l l')) l).
  destruct (decide (length l <= 12)%nat) as [Hshort|Hlong].
  - unfold sort.steps. apply pdqsort_short; [lia|].
    eapply wp_mono; [apply insertionSort_spec; lia|].
    intros [] l' (Hw & Ht & Hs).
    rewrite (within_length _ _ _ _ Hw).
    split; [by eapply within_Permutation|]. by split.
  - eapply wp_mono.
    + apply (pdqsort_spec _ 0 (Z.of_nat (length l))); try lia.
      * intros Hpos. lia.
      * unfold sort.steps. lia.
    + intros [] l' (Hw & Hs).
      rewrite (within_length _ _ _ _ Hw).
      split; [by eapply within_Permutation|]. split; [done|]. intros ?. lia.
Qed.

Lemma sorted_range_lookup (l : list A) :
  sorted_range lt l 0 (Z.of_nat (length l)) ->
  forall (i j : nat) (x y : A),
    (i < j)%nat -> l !! i = Some x -> l !! j = Some y -> lt y x = false.
Proof.
  intros Hs i j x y Hij Hx Hy.
  pose proof (lookup_lt_Some _ _ _ Hy) as Hj.
  specialize (Hs (Z.of_nat i) (Z.of_nat j) ltac:(lia) ltac:(lia) ltac:(lia)).
  unfold elt in Hs. rewrite !Nat2Z.id in Hs.
  by rewrite (list_lookup_total_correct _ _ _ Hx),
    (list_lookup_total_correct _ _ _ Hy) in Hs.
Qed.

End SortProofs.

(** *** Sorting releases *)

Lemma release_less_irrefl (x : Release) : release_less x x = false.
Proof. unfold release_less. by rewrite Compare_refl. Qed.

Lemma release_less_trans (x y z : Release) :
  release_less x y = true -> release_less y z = true -> release_less x z = true.
Proof. rewrite !release_less_true. apply Compare_gt_trans. Qed.

Lemma release_less_ntrans (x y z : Release) :
  release_less x y = false -> release_less y z = false ->
  release_less x z = false.
Proof.
  rewrite !release_less_false. unfold version_ge. intros H1 H2.
  by eapply Compare_ge_trans.
Qed.

Lemma IsSorted_pairwise (a : ByRelease) :
  (forall (i j : nat) (x y : Release),
      i < j -> a !! i = Some x -> a !! j = Some y -> release_less y x = false) ->
  IsSorted a = true.
Proof.
  induction a as [|x [|y rest] IH]; intros Hpair; [done|done|].
  change (IsSorted (x :: y :: rest))
    with (negb (release_less y x) && IsSorted (y :: rest)).
  rewrite (Hpair 0 1 x y) by (done || lia). simpl negb. rewrite andb_true_l.
  apply IH. intros i j u v Hij Hu Hv. apply (Hpair (S i) (S j)); [lia|done..].
Qed.

Lemma sorted_by_release_spec (a : ByRelease) :
  exists a',
    sorted_by_release a = Done a'
    /\ Permutation a a'
    /\ (forall (i j : nat) (x y : Release),
          i < j -> a' !! i = Some x -> a' !! j = Some y ->
          release_less y x = false)
    /\ (length a <= 12 -> same_ties release_less a a').
Proof.
  pose proof (Sort_spec release_less release_less_irrefl release_less_trans
                release_less_ntrans a) as Hsort.
  unfold wp in Hsort. unfold sorted_by_release.
  assert (@sort.Sort ByRelease ByRelease_Interface a
          = @sort.Sort (list Release) (slice_I release_less) a) as ->
    by reflexivity.
  destruct (@sort.Sort (list Release) (slice_I release_less) a)
    as [[[] a']| |]; [|contradiction..].
  destruct Hsort as (Hperm & Hs & Hties).
  exists a'. split; [done|]. split; [done|]. split; [|done].
  by apply sorted_range_lookup.
Qed.

Example TestReleaseSort : sorted_by_release unsorted_releases = Done sorted_releases.
Proof. vm_compute. reflexivity. Qed.

(** C4 as stated fails in two places.  [sort.Sort] is not stable: on
    thirteen releases of which only the second has a valid version the
    first pivot is the seventh element, which [partition] exchanges with the
    first, so the release "f" ends up before "a", "b", ... although all
    invalid versions compare equal.  And [main] shows the catalog in the
    order it was fetched: a catalog that arrives oldest first is shown oldest
    first. *)
Lemma sort_unstable_and_list_unsorted :
  (sorted_by_release thirteen_releases
   = Done (map (fun v => mkRelease v false [])
             ["go1.20"; "f"; "b"; "c"; "d"; "e"; "a"; "g"; "h"; "i"; "j"; "k"; "l"])
   /\ forall a', sorted_by_release thirteen_releases = Done a' ->
                 ~ same_ties release_less thirteen_releases a')
  /\ main_items ascending_catalog = ["go1.19.7"; "go1.20.2"]
  /\ ~ descending (main_items ascending_catalog).
Proof.
  assert (sorted_by_release thirteen_releases
          = Done (map (fun v => mkRelease v false [])
                    ["go1.20"; "f"; "b"; "c"; "d"; "e"; "a"; "g"; "h"; "i"; "j";
                     "k"; "l"])) as Hsort by (vm_compute; reflexivity).
  split; [split; [exact Hsort|]|split; [reflexivity|]].
  - intros a' Ha' Hties. rewrite Hsort in Ha'. injection Ha' as <-.
    specialize (Hties (mkRelease "a" false [])).
    vm_compute in Hties. discriminate Hties.
  - intros H.
    specialize (H 0 1 "go1.19.7" "go1.20.2" ltac:(lia) eq_refl eq_refl).
    assert (version.Compare "go1.19.7" "go1.20.2" = (-1)%Z) as Hc
      by (vm_compute; reflexivity).
    rewrite Hc in H. lia.
Qed.

Lemma Compare_invalid (x y : string) :
  invalid x -> invalid y -> version.Compare x y = 0%Z.
Proof.
  unfold invalid, version.Compare, version.gover_Compare. by intros -> ->.
Qed.

(** C4, amended: for every list of releases, [sort.Sort] with the release
    ordering returns, whatever the version strings are, a permutation of the
    list that [sort.IsSorted] accepts and whose version strings are
    non-increasing under [version.Compare]; releases that compare equal keep
    their order when the list has at most 12 elements; the comparison
    yields -1, 0 or 1 on any two strings and 0 on two strings that are not
    valid Go versions; and the list shown to the user is the catalog's
    version strings in catalog order, hence descending when the catalog
    is. *)
Theorem Sort_by_release_descending :
  forall versions : list Release,
    (exists sorted,
        sorted_by_release versions = Done sorted
        /\ Permutation versions sorted
        /\ IsSorted sorted = true
        /\ descending (map Release_Version sorted)
        /\ (length versions <= 12 -> same_ties release_less versions sorted))
    /\ (forall x y : string,
          version.Compare x y = (-1)%Z \/ version.Compare x y = 0%Z
          \/ version.Compare x y = 1%Z)
    /\ (forall x y : string, invalid x -> invalid y -> version.Compare x y = 0%Z)
    /\ main_items versions = map Release_Version versions
    /\ (IsSorted versions = true -> descending (main_items versions)).
Proof.
  intros versions.
  destruct (sorted_by_release_spec versions) as (sorted & Hrun & Hperm & Hpair & Hties).
  pose proof (IsSorted_pairwise sorted Hpair) as Hsorted.
  split; [|split; [apply Compare_range|split; [apply Compare_invalid|split]]].
  - exists sorted. split; [done|]. split; [done|]. split; [done|].
    split; [by apply IsSorted_descending|done].
  - apply main_items_map.
  - intros Hs. rewrite main_items_map. by apply IsSorted_descending.
Qed.
